(** * Hearts (card_games/hearts_game.py): a shallow embedding

    The trick-taking engine of the repository: the legality check of a
    play ([do_play]), the resolution of a trick ([trick_winner]), the
    scoring of a round ([score_players], [score_round]), the deal
    ([deal]) and the dealer's choice of a pass direction
    ([dealers_choice]).  Python's [self] is the record [Hearts]; a method
    that mutates [self] is a function returning the new record. *)

From Stdlib Require Import ZArith Ascii String List Lia.
From stdpp Require Import gmap strings list sorting.

Local Open Scope string_scope.
Local Open Scope Z_scope.
Local Open Scope list_scope.

(** ** Cards *)

Module Cards.

(** Modelled from the spec: [cards.Card] (the module [cards] is not among
    the sources).  A card is an immutable pair of a rank character and a
    suit character; two cards are equal iff rank and suit match. *)
Record Card : Type := mkCard { rank : ascii; suit : ascii }.

#[global] Instance Card_eq_dec : EqDecision Card.
Proof. solve_decision. Defined.

#[global] Instance Card_countable : Countable Card :=
  inj_countable' (λ c, (rank c, suit c)) (λ p, mkCard p.1 p.2)
                 (λ c, match c with mkCard _ _ => eq_refl end).

(** The card built from a two-character option value such as ['JD']:
    the source unpacks the text into the rank and the suit, and a text of
    another length is a TypeError. *)
Definition Card_of_text (text : string) : option Card :=
  match text with
  | String r (String s EmptyString) => Some (mkCard r s)
  | _ => None
  end.

(** The text of a card, rank then suit (['QS']). *)
Definition up_text (c : Card) : string :=
  String (rank c) (String (suit c) EmptyString).

(** Modelled from the spec: [Deck.ranks], the rank characters in index
    order, the joker first and the ace low; the index of a rank is its pip
    count (J=11, Q=12, K=13). *)
Definition ranks : list ascii :=
  list_ascii_of_string "XA23456789TJQK".

(** [ranks.index(r)], [None] where Python raises ValueError. *)
Fixpoint index_from {A} `{EqDecision A} (n : nat) (x : A) (l : list A) : option nat :=
  match l with
  | [] => None
  | y :: l' => if decide (y = x) then Some n else index_from (S n) x l'
  end.

(** Modelled from the spec: [Card.rank_num] in a deck built with
    [ace_high = True]: the index of the rank, the ace counting 14 (and a
    character that is no rank counting 0, below every card). *)
Definition rank_num (c : Card) : Z :=
  if decide (rank c = "A"%char) then 14
  else match index_from 0 (rank c) ranks with
       | Some n => Z.of_nat n
       | None => 0
       end.

(** Python compares a card with another card or with a card text
    ([card == 'QS'], ['QS' in hand], [hand.cards.index(card_text)]). *)
Class CardKey (K : Type) := card_eqb : Card → K → bool.

#[global] Instance CardKey_Card : CardKey Card :=
  λ c k, bool_decide (c = k).
#[global] Instance CardKey_text : CardKey string :=
  λ c k, bool_decide (up_text c = k).

(** [key in hand] *)
Definition contains `{CardKey K} (k : K) (hand : list Card) : bool :=
  existsb (λ c, card_eqb c k) hand.

(** [hand.cards.index(key)]: the first position whose card equals the key. *)
Fixpoint index `{CardKey K} (k : K) (hand : list Card) : option nat :=
  match hand with
  | [] => None
  | c :: hand' => if card_eqb c k then Some 0%nat else S <$> index k hand'
  end.

(** [hand.cards.remove(key)]: drops the first card equal to the key. *)
Fixpoint remove `{CardKey K} (k : K) (hand : list Card) : list Card :=
  match hand with
  | [] => []
  | c :: hand' => if card_eqb c k then hand' else c :: remove k hand'
  end.

(** Modelled from the spec: [Hand.shift(key, other)] moves the card out of
    this hand to the end of the other, keeping the order of both; the card
    moved is the hand's own card object, found by the key. *)
Definition shift `{CardKey K} (k : K) (hand other : list Card)
  : option (list Card * list Card) :=
  i ← index k hand;
  c ← hand !! i;
  Some (remove k hand, other ++ [c]).

Definition is_heart (c : Card) : bool := bool_decide (suit c = "H"%char).
Definition is_joker (c : Card) : bool := bool_decide (rank c = "X"%char).

Definition QS : Card := mkCard "Q" "S".

(** Modelled from the spec: [cards.Deck(ace_high = True)], the 52 cards,
    suit by suit. *)
Definition standard_deck : list Card :=
  s ← list_ascii_of_string "CDHS";
  r ← list_ascii_of_string "A23456789TJQK";
  [mkCard r s].

End Cards.
Export Cards.

(** ** Python lists and texts *)

(** [l[i]] with Python's negative indices; [None] is IndexError. *)
Definition py_nth {A} (l : list A) (i : Z) : option A :=
  if bool_decide (0 ≤ i) then l !! Z.to_nat i
  else if bool_decide (- Z.of_nat (length l) ≤ i)
       then l !! Z.to_nat (Z.of_nat (length l) + i)
       else None.

(** [l.index(x)] on the player list; [None] is ValueError. *)
Definition list_index (x : string) (l : list string) : option nat :=
  index_from 0 x l.

(** [l[-1]] of a list that is not empty. *)
Definition py_last {A} (l : list A) : option A := last l.

(** [sorted(l, key = key)] and [l.sort(key = key)]: a stable insertion
    sort; [ltb] is the order of the keys. *)
Fixpoint insert_by {A K} (ltb : K → K → bool) (key : A → K) (x : A) (l : list A)
  : list A :=
  match l with
  | [] => [x]
  | y :: l' => if ltb (key y) (key x) then y :: insert_by ltb key x l'
               else x :: l
  end.

Definition sorted_by {A K} (ltb : K → K → bool) (key : A → K) (l : list A) : list A :=
  foldr (insert_by ltb key) [] l.

(** The order of the tuples [(card.suit, card.rank_num)]. *)
Definition suit_rank_ltb (a b : ascii * Z) : bool :=
  bool_decide (nat_of_ascii a.1 < nat_of_ascii b.1)%nat
  || bool_decide (a.1 = b.1) && bool_decide (a.2 < b.2).

(** A text or a list is true when it is not empty. *)
Definition truthy (text : string) : bool := negb (bool_decide (text = "")).

(** The whitespace class of the regular expressions, on the ASCII range. *)
Definition is_space (a : ascii) : bool :=
  let n := nat_of_ascii a in
  bool_decide (9 ≤ n ≤ 13)%nat || bool_decide (28 ≤ n ≤ 32)%nat.

Definition upper_char (a : ascii) : ascii :=
  let n := nat_of_ascii a in
  if bool_decide (97 ≤ n ≤ 122)%nat then ascii_of_nat (n - 32) else a.

(** [text.upper()], on the ASCII letters. *)
Fixpoint upper (s : string) : string :=
  match s with
  | EmptyString => EmptyString
  | String a s' => String (upper_char a) (upper s')
  end.

Fixpoint skip_spaces (s : string) : string :=
  match s with
  | EmptyString => EmptyString
  | String a s' => if is_space a then skip_spaces s' else s
  end.

Definition in_chars (a : ascii) (chars : string) : bool :=
  bool_decide (a ∈ list_ascii_of_string chars).

(** [card_re.match(text)], where [card_re] is
    [\s*[x123456789tjqka][cdhs]\s*] without regard to case: the text
    starts, after any spaces, with a rank and a suit character.  What
    follows them is not looked at. *)
Definition card_re_match (text : string) : bool :=
  match skip_spaces text with
  | String r (String s _) =>
      in_chars (upper_char r) "X123456789TJQKA" && in_chars (upper_char s) "CDHS"
  | _ => false
  end.

(** ** The game object *)

(** The attributes of [Hearts] that [handle_options] fixes for the game. *)
Record Settings : Type := mkSettings {
  all_break : bool;             (* no heart leads before a penalty card is played *)
  break_hearts : bool;          (* no heart leads before a heart is played *)
  jokers_follow : bool;         (* jokers may not lead *)
  joker_points : bool;          (* jokers score one point each *)
  bonus : option Card;          (* the bonus card, [None] for the empty option *)
  end_ : Z;                     (* [end]: the points that stop the game *)
  kitty : string;               (* ['first'], ['heart'] or empty *)
  heart_points : gmap ascii Z;  (* the points of a heart, by rank *)
  lady_points : Z;              (* the points of the queen of spades *)
  max_score : Z;                (* the points of a shooter *)
  moon : string;                (* ['old'], ['new'], ['auto'] or an initial *)
  no_tricks : Z;                (* the points taken off for winning no trick *)
  breakers : gset Card          (* the cards that break hearts *)
}.

(** The game: the players by their names, in the order of their seats,
    and the attributes that the methods below read and write.  The dicts
    [hands], [taken] and [scores] have the names of the players as keys. *)
Record Hearts : Type := mkHearts {
  opt : Settings;
  players : list string;
  human : string;
  dealer : string;
  player_index : Z;
  deck_cards : list Card;
  hands : gmap string (list Card);
  taken : gmap string (list Card);
  trick : list Card;
  hearts_broken : bool;
  phase : string;
  tricks : Z;
  scores : gmap string Z;
  this_pass : string;
  pass_to : gmap string string
}.

Definition with_dealer (v : string) (g : Hearts) : Hearts :=
  mkHearts (opt g) (players g) (human g) v (player_index g) (deck_cards g)
           (hands g) (taken g) (trick g) (hearts_broken g) (phase g)
           (tricks g) (scores g) (this_pass g) (pass_to g).

Definition with_player_index (v : Z) (g : Hearts) : Hearts :=
  mkHearts (opt g) (players g) (human g) (dealer g) v (deck_cards g)
           (hands g) (taken g) (trick g) (hearts_broken g) (phase g)
           (tricks g) (scores g) (this_pass g) (pass_to g).

Definition with_deck_cards (v : list Card) (g : Hearts) : Hearts :=
  mkHearts (opt g) (players g) (human g) (dealer g) (player_index g) v
           (hands g) (taken g) (trick g) (hearts_broken g) (phase g)
           (tricks g) (scores g) (this_pass g) (pass_to g).

Definition with_hands (v : gmap string (list Card)) (g : Hearts) : Hearts :=
  mkHearts (opt g) (players g) (human g) (dealer g) (player_index g)
           (deck_cards g) v (taken g) (trick g) (hearts_broken g)
           (phase g) (tricks g) (scores g) (this_pass g) (pass_to g).

Definition with_taken (v : gmap string (list Card)) (g : Hearts) : Hearts :=
  mkHearts (opt g) (players g) (human g) (dealer g) (player_index g)
           (deck_cards g) (hands g) v (trick g) (hearts_broken g)
           (phase g) (tricks g) (scores g) (this_pass g) (pass_to g).

Definition with_trick (v : list Card) (g : Hearts) : Hearts :=
  mkHearts (opt g) (players g) (human g) (dealer g) (player_index g)
           (deck_cards g) (hands g) (taken g) v (hearts_broken g)
           (phase g) (tricks g) (scores g) (this_pass g) (pass_to g).

Definition with_hearts_broken (v : bool) (g : Hearts) : Hearts :=
  mkHearts (opt g) (players g) (human g) (dealer g) (player_index g)
           (deck_cards g) (hands g) (taken g) (trick g) v (phase g)
           (tricks g) (scores g) (this_pass g) (pass_to g).

Definition with_phase (v : string) (g : Hearts) : Hearts :=
  mkHearts (opt g) (players g) (human g) (dealer g) (player_index g)
           (deck_cards g) (hands g) (taken g) (trick g) (hearts_broken g)
           v (tricks g) (scores g) (this_pass g) (pass_to g).

Definition with_tricks (v : Z) (g : Hearts) : Hearts :=
  mkHearts (opt g) (players g) (human g) (dealer g) (player_index g)
           (deck_cards g) (hands g) (taken g) (trick g) (hearts_broken g)
           (phase g) v (scores g) (this_pass g) (pass_to g).

Definition with_scores (v : gmap string Z) (g : Hearts) : Hearts :=
  mkHearts (opt g) (players g) (human g) (dealer g) (player_index g)
           (deck_cards g) (hands g) (taken g) (trick g) (hearts_broken g)
           (phase g) (tricks g) v (this_pass g) (pass_to g).

Definition with_this_pass (v : string) (g : Hearts) : Hearts :=
  mkHearts (opt g) (players g) (human g) (dealer g) (player_index g)
           (deck_cards g) (hands g) (taken g) (trick g) (hearts_broken g)
           (phase g) (tricks g) (scores g) v (pass_to g).

Definition with_pass_to (v : gmap string string) (g : Hearts) : Hearts :=
  mkHearts (opt g) (players g) (human g) (dealer g) (player_index g)
           (deck_cards g) (hands g) (taken g) (trick g) (hearts_broken g)
           (phase g) (tricks g) (scores g) (this_pass g) v.

(** The game with another value of the option [no-tricks]. *)
Definition with_no_tricks (v : Z) (g : Hearts) : Hearts :=
  let s := opt g in
  mkHearts (mkSettings (all_break s) (break_hearts s) (jokers_follow s)
              (joker_points s) (bonus s) (end_ s) (kitty s) (heart_points s)
              (lady_points s) (max_score s) (moon s) v (breakers s))
           (players g) (human g) (dealer g) (player_index g) (deck_cards g)
           (hands g) (taken g) (trick g) (hearts_broken g) (phase g)
           (tricks g) (scores g) (this_pass g) (pass_to g).

(** ** Scoring options: [Hearts.handle_opt_score] *)

(** [text[0]]; [None] is IndexError. *)
Definition first_char (text : string) : option ascii :=
  match text with
  | EmptyString => None
  | String a _ => Some a
  end.

(** [{rank: f(score, rank) for score, rank in enumerate(ranks)}] *)
Definition points_by_index (f : nat → ascii → Z) (rs : list ascii) : gmap ascii Z :=
  list_to_map (imap (λ score r, (r, f score r)) rs).

(** [sum(points.values())] *)
Definition sum_values (points : gmap ascii Z) : Z :=
  map_fold (λ _ v acc, v + acc) 0 points.

(** The table of heart points for a [heart-score] setting. *)
Definition heart_points_for (heart_score : string) : option (gmap ascii Z) :=
  let one := points_by_index (λ _ _, 1) (tail ranks) in
  h ← first_char heart_score;
  if decide (h = "f"%char) then
    Some (<["A"%char := 5]> (<["K"%char := 4]> (<["Q"%char := 3]> (<["J"%char := 2]> one))))
  else if decide (h = "p"%char) then
    Some (<["A"%char := 10]> (points_by_index (λ score _, Z.min 10 (Z.of_nat score)) ranks))
  else if decide (h = "r"%char) then
    Some (<["A"%char := 14]> (points_by_index (λ score _, Z.of_nat score) ranks))
  else Some one.

(** [handle_opt_score]: from the option values ([heart_score], the text
    of the bonus card) and the deck, the heart points, the maximum score,
    the breakers and the bonus card.  The source adds the text ['QS'] to
    the breakers, which is the queen of spades. *)
Definition handle_opt_score (heart_score bonus_text : string)
    (deck : list Card) (s : Settings) : option Settings :=
  points ← heart_points_for heart_score;
  let max0 := sum_values points + lady_points s in
  let hearts : gset Card := list_to_set (filter (λ c, is_heart c = true) deck) in
  let breakers1 := if all_break s then hearts ∪ {[ QS ]} else hearts in
  let jokers := filter (λ c, is_joker c = true) deck in
  let max1 := if joker_points s then max0 + Z.of_nat (length jokers) else max0 in
  let breakers2 :=
    if joker_points s && all_break s then breakers1 ∪ list_to_set jokers
    else breakers1 in
  '(bonus', max2) ←
    (if bool_decide (bonus_text = "") then Some (None, max1)
     else card ← Card_of_text bonus_text; Some (Some card, max1 - 10));
  Some (mkSettings (all_break s) (break_hearts s) (jokers_follow s)
          (joker_points s) bonus' (end_ s) (kitty s) points (lady_points s)
          max2 (moon s) (no_tricks s) breakers2).

(** ** Scoring a round: [Hearts.score_players], [Hearts.score_round] *)

(** The counters of the loop over a player's taken cards. *)
Record Count : Type := mkCount {
  n_hearts : Z;
  n_heart_points : Z;
  n_lady : Z;
  n_jokers : Z;
  got_bonus : option Card
}.

Definition no_count : Count := mkCount 0 0 0 0 None.

(** One turn of the loop [for card in self.taken[player.name]]; a heart
    whose rank has no entry in [heart_points] is a KeyError. *)
Definition count_card (s : Settings) (n : Count) (card : Card) : option Count :=
  if is_heart card then
    p ← heart_points s !! rank card;
    Some (mkCount (n_hearts n + 1) (n_heart_points n + p) (n_lady n)
            (n_jokers n) (got_bonus n))
  else if card_eqb card "QS" then
    Some (mkCount (n_hearts n) (n_heart_points n) (n_lady n + 1)
            (n_jokers n) (got_bonus n))
  else if is_joker card then
    Some (mkCount (n_hearts n) (n_heart_points n) (n_lady n)
            (n_jokers n + 1) (got_bonus n))
  else if bool_decide (bonus s = Some card) then
    Some (mkCount (n_hearts n) (n_heart_points n) (n_lady n)
            (n_jokers n) (Some card))
  else Some n.

Fixpoint count_cards (s : Settings) (n : Count) (cards : list Card) : option Count :=
  match cards with
  | [] => Some n
  | card :: cards' => n' ← count_card s n card; count_cards s n' cards'
  end.

(** [player_points] before the bonus card is looked at: the hearts, the
    lady, and the jokers if they score. *)
Definition card_points (s : Settings) (n : Count) : Z :=
  let p0 := n_heart_points n + lady_points s * n_lady n in
  if joker_points s then p0 + n_jokers n else p0.

(** [player_points] as stored in [round_points], "the unadjusted points":
    the card points, less 10 (to no less than 0) if [self.bonus and bonus],
    that is if a bonus card is set and was found in the pile. *)
Definition points_of_count (s : Settings) (n : Count) : Z :=
  if bool_decide (is_Some (bonus s)) && bool_decide (is_Some (got_bonus n))
  then Z.max 0 (card_points s n - 10) else card_points s n.

Definition player_points (s : Settings) (pile : list Card) : option Z :=
  points_of_count s <$> count_cards s no_count pile.

(** The condition under which [score_players] records a shooter. *)
Definition shoots (s : Settings) (n : Count) : bool :=
  bool_decide (points_of_count s n = max_score s)
  && (bool_decide (is_Some (got_bonus n)) || negb (bool_decide (is_Some (bonus s)))).

(** What [round_points] holds for a player at the end of the loop body:
    the points, or the no-tricks value taken off if the pile is empty. *)
Definition round_entry (s : Settings) (pile : list Card) (n : Count) : Z :=
  if bool_decide (pile = []) && negb (bool_decide (no_tricks s = 0))
  then - no_tricks s else points_of_count s n.

(** The body of [for player in self.players] in [score_players], on the
    pair [(round_points, shooter)]; the texts told to the human are left
    out.  A player without a pile is a KeyError. *)
Definition score_player (g : Hearts) (acc : gmap string Z * string) (name : string)
  : option (gmap string Z * string) :=
  pile ← taken g !! name;
  n ← count_cards (opt g) no_count pile;
  let round_points := <[name := points_of_count (opt g) n]> acc.1 in
  let shooter := if shoots (opt g) n then name else acc.2 in
  let round_points :=
    if bool_decide (pile = []) && negb (bool_decide (no_tricks (opt g) = 0))
    then <[name := - no_tricks (opt g)]> round_points else round_points in
  Some (round_points, shooter).

Fixpoint score_loop (g : Hearts) (acc : gmap string Z * string) (names : list string)
  : option (gmap string Z * string) :=
  match names with
  | [] => Some acc
  | name :: names' => acc' ← score_player g acc name; score_loop g acc' names'
  end.

(** [score_players]: the raw points of each player and the name of the
    shooter, empty if there is none. *)
Definition score_players (g : Hearts) : option (gmap string Z * string) :=
  score_loop g (∅, "") (players g).

(** [max(self.scores.values())]; [None] is the ValueError of an empty dict. *)
Definition max_value (m : gmap string Z) : option Z :=
  match (map_to_list m).*2 with
  | [] => None
  | v :: vs => Some (foldr Z.max v vs)
  end.

(** [self.max_score + 10 * bool(self.bonus)] *)
Definition moon_value (s : Settings) : Z :=
  max_score s + 10 * (if bool_decide (is_Some (bonus s)) then 1 else 0).

(** The loop [for player in round_points] of the old way of the moon. *)
Definition moon_old (shooter : string) (value : Z) (round_points : gmap string Z)
  : gmap string Z :=
  map_imap (λ player p, Some (if bool_decide (player = shooter) then 0 else p + value))
           round_points.

(** The test [self.moon[0] == 'o' or auto_old], where [auto_old] looks at
    the scores only if the setting starts with an a. *)
Definition use_old (g : Hearts) : option bool :=
  m ← first_char (moon (opt g));
  auto_old ←
    (if decide (m = "a"%char)
     then top ← max_value (scores g);
          Some (bool_decide (top + moon_value (opt g) < end_ (opt g)))
     else Some false);
  Some (bool_decide (m = "o"%char) || auto_old).

(** The block [if shooter:] of [score_round]: the round points after the
    adjustment for a shot moon. *)
Definition moon_adjust (g : Hearts) (round_points : gmap string Z) (shooter : string)
  : option (gmap string Z) :=
  if bool_decide (shooter = "") then Some round_points
  else
    old ← use_old g;
    if old : bool then Some (moon_old shooter (moon_value (opt g)) round_points)
    else Some (<[shooter := - moon_value (opt g)]> round_points).

(** [round_points] as [score_round] adds them to the scores. *)
Definition round_scores (g : Hearts) : option (gmap string Z) :=
  '(round_points, shooter) ← score_players g;
  moon_adjust g round_points shooter.

(** The last loop of [score_round]: the overall scores, kept from
    falling below 0. *)
Fixpoint add_scores (round_points scores : gmap string Z) (names : list string)
  : option (gmap string Z) :=
  match names with
  | [] => Some scores
  | name :: names' =>
      old ← scores !! name;
      p ← round_points !! name;
      add_scores round_points (<[name := Z.max (old + p) 0]> scores) names'
  end.

Definition score_round (g : Hearts) : option Hearts :=
  round_points ← round_scores g;
  scores' ← add_scores round_points (scores g) (players g);
  Some (with_scores scores' g).

(** ** Playing a card: [Hearts.do_play] *)

(** The errors [do_play] reports with [player.error] before it returns
    True (the turn is not over). *)
Inductive PlayError : Type :=
  | NotACard (arguments : string)   (* '... is not a card in the deck.' *)
  | WrongTime                       (* 'This is not the right time to play cards.' *)
  | NotHeld (card_text : string)    (* 'You do not have the ... to play.' *)
  | FollowSuit                      (* 'You must play a card of the suit led.' *)
  | JokerLead                       (* 'You cannot lead with a joker.' *)
  | HeartLead.                      (* 'You cannot lead with a heart until they are broken.' *)

#[global] Instance PlayError_eq_dec : EqDecision PlayError.
Proof. solve_decision. Defined.

(** [hand.shift(key, self.trick)] on the hand of [name]. *)
Definition shift_to_trick `{CardKey K} (k : K) (name : string) (hand : list Card)
    (g : Hearts) : option Hearts :=
  '(hand', trick') ← shift k hand (trick g);
  Some (with_trick trick' (with_hands (<[name := hand']> (hands g)) g)).

(** The cards the player may lead with. *)
Definition playable (g : Hearts) (hand : list Card) : list Card :=
  let playable := hand in
  let playable :=
    if jokers_follow (opt g) then filter (λ card, is_joker card = false) playable
    else playable in
  if negb (hearts_broken g) then filter (λ card, is_heart card = false) playable
  else playable.

(** [do_play(arguments)]: the game after the call and the error reported,
    if any; without an error the card is in the trick.  The outer [None]
    is a Python exception. *)
Definition do_play (arguments : string) (g : Hearts) : option (Hearts * option PlayError) :=
  player ← py_nth (players g) (player_index g);
  hand ← hands g !! player;
  if negb (card_re_match arguments) then Some (g, Some (NotACard arguments))
  else
  let card_text := upper arguments in
  if negb (bool_decide (phase g = "trick")) then Some (g, Some WrongTime)
  else if negb (contains card_text hand) then Some (g, Some (NotHeld card_text))
  else
  i ← index card_text hand;
  to_play ← hand !! i;
  match trick g with
  | led :: _ =>
      let trick_suit := suit led in
      if negb (bool_decide (suit to_play = trick_suit))
         && existsb (λ card, bool_decide (suit card = trick_suit)) hand
      then Some (g, Some FollowSuit)
      else g' ← shift_to_trick to_play player hand g; Some (g', None)
  | [] =>
      let playable := playable g hand in
      if is_joker to_play && jokers_follow (opt g)
         && negb (bool_decide (playable = []))
      then Some (g, Some JokerLead)
      else if is_heart to_play && negb (hearts_broken g)
              && negb (bool_decide (playable = []))
      then Some (g, Some HeartLead)
      else g' ← shift_to_trick card_text player hand g; Some (g', None)
  end.

(** ** The deal: [Hearts.deal] *)

(** [players[k:] + players[:k]] *)
Definition rotate_left {A} (k : nat) (l : list A) : list A := drop k l ++ take k l.

(** The loop over [itertools.cycle(...)] of [deal], on the deck with its
    top card first: the [k]-th player of the cycle draws the top card, and
    the loop stops after the dealer when fewer cards are left than there
    are players.  Modelled from the spec: [Hand.draw] moves the top card of
    the deck to the end of the hand; an empty deck is an IndexError. *)
Fixpoint deal_cycle (dealer : string) (n : nat) (cycle : list string) (k : nat)
    (pile : list Card) (hands : gmap string (list Card))
  : option (list Card * gmap string (list Card)) :=
  match pile with
  | [] => None
  | card :: pile' =>
      player ← cycle !! (k mod length cycle)%nat;
      hand ← hands !! player;
      let hands' := <[player := hand ++ [card]]> hands in
      if bool_decide (player = dealer) && bool_decide (length pile' < n)%nat
      then Some (pile', hands')
      else deal_cycle dealer n cycle (S k) pile' hands'
  end.

(** [deal].  Modelled from the spec: [Deck.shuffle] leaves in
    [deck.cards] the cards of the deck in a random order, here
    [shuffled]; the top of the deck is the end of that list. *)
Definition deal (shuffled : list Card) (g : Hearts) : option Hearts :=
  let n := length (players g) in
  i ← list_index (dealer g) (players g);
  if bool_decide (n = 0%nat) then None else
  let player_index := ((i + 1) mod n)%nat in
  '(pile, hands') ←
    deal_cycle (dealer g) n (rotate_left player_index (players g)) 0
               (reverse shuffled) (hands g);
  let hands'' := sorted_by suit_rank_ltb (λ card, (suit card, rank_num card)) <$> hands' in
  dealer' ← players g !! player_index;
  Some (with_hearts_broken (negb (break_hearts (opt g) || all_break (opt g)))
         (with_dealer dealer'
           (with_hands hands'' (with_deck_cards (reverse pile) g)))).

(** ** The pass of a hand: [Hearts.set_pass] *)

Definition digit_of (a : ascii) : option Z :=
  let n := nat_of_ascii a in
  if bool_decide (48 ≤ n ≤ 57)%nat then Some (Z.of_nat (n - 48)) else None.

Fixpoint digits_from (acc : Z) (text : string) : option Z :=
  match text with
  | EmptyString => Some acc
  | String a text' => d ← digit_of a; digits_from (10 * acc + d) text'
  end.

(** [int(text)] for the decimal numbers the sequencer writes in its
    ['left-N'] labels; [None] is ValueError. *)
Definition int_of (text : string) : option Z :=
  if bool_decide (text = "") then None else digits_from 0 text.

(** The offset of a label ['left-N']: the text between the first and the
    second ['-'] read as a number, if the label starts with ['left-']. *)
Fixpoint upto_dash (text : string) : string :=
  match text with
  | EmptyString => EmptyString
  | String a text' => if bool_decide (a = "-"%char) then EmptyString
                      else String a (upto_dash text')
  end.

Definition left_offset (this_pass : string) : option (option Z) :=
  match this_pass with
  | String "l" (String "e" (String "f" (String "t" (String "-" rest)))) =>
      Some (int_of (upto_dash rest))
  | _ => None
  end.

(** The passees of the players, in the order of the players; [None] where
    the source leaves [pass_to] unbound or the offset is no number. *)
Definition passees (this_pass : string) (players : list string) : option (list string) :=
  if bool_decide (this_pass = "left") then Some (rotate_left 1 players)
  else if bool_decide (this_pass = "right")
  then Some (rotate_left (length players - 1) players)
  else if bool_decide (this_pass = "across")
  then Some (rotate_left (length players / 2) players)
  else match left_offset this_pass with
       | Some offset => o ← offset; Some (rotate_left (Z.to_nat o) players)
       | None => None
       end.

(** [set_pass], for the direction [next(self.pass_dir)] that the
    sequencer gives; the text told to the human is left out. *)
Definition set_pass (next_dir : string) (g : Hearts) : option Hearts :=
  let g := with_this_pass next_dir (with_phase "pass" g) in
  if bool_decide (this_pass g = "not") then Some (with_phase "trick" g)
  else if bool_decide (this_pass g = "center")
  then Some (with_pass_to (list_to_map ((λ p, (p, "the center")) <$> players g)) g)
  else if bool_decide (this_pass g = "scatter")
  then Some (with_pass_to (list_to_map ((λ p, (p, this_pass g)) <$> players g)) g)
  else
    to ← passees (this_pass g) (players g);
    Some (with_pass_to (list_to_map (reverse (zip (players g) to))) g).

(** ** Resolving a trick: [Hearts.trick_winner] *)

(** The card that wins a trick: the last of the cards of the suit led,
    sorted by [rank_num]. *)
Definition winning_card (trick : list Card) : option Card :=
  led ← head trick;
  let trick_suit := suit led in
  let suit_cards := filter (λ card, suit card = trick_suit) trick in
  py_last (sorted_by Z.ltb rank_num suit_cards).

(** [winner_index]: the seat of the winner. *)
Definition winner_index (g : Hearts) : option Z :=
  card ← winning_card (trick g);
  card_index ← index card (trick g);
  if bool_decide (players g = []) then None
  else Some ((player_index g + 1 + Z.of_nat card_index) `mod` Z.of_nat (length (players g))).

(** The test [kitty_win]: [self.kitty == 'first'], or else the value of
    ['heart' and [the hearts of the trick]]. *)
Definition kitty_win (g : Hearts) : bool :=
  bool_decide (kitty (opt g) = "first")
  || (truthy "heart" && negb (bool_decide (filter (λ card, is_heart card = true) (trick g) = []))).

(** The block [# Handle any kitty] for the winner [name]. *)
Definition handle_kitty (name : string) (g : Hearts) : option Hearts :=
  if negb (bool_decide (deck_cards g = [])) && kitty_win g then
    pile ← taken g !! name;
    Some (with_deck_cards [] (with_taken (<[name := pile ++ deck_cards g]> (taken g)) g))
  else Some g.

(** The block [# Check for breaking hearts]. *)
Definition check_breaking (g : Hearts) : Hearts :=
  if negb (hearts_broken g)
     && negb (bool_decide (breakers (opt g) ∩ list_to_set (trick g) = ∅))
  then with_hearts_broken true g else g.

(** [trick_winner] down to [# Clear the trick]: the seat of the winner
    and the game with the trick taken. *)
Definition take_trick (g : Hearts) : option (Z * Hearts) :=
  seat ← winner_index g;
  winner ← py_nth (players g) seat;
  pile ← taken g !! winner;
  let g := with_taken (<[winner := pile ++ trick g]> (taken g)) g in
  g ← handle_kitty winner g;
  let g := check_breaking g in
  Some (seat, with_trick [] g).

(** [hand.discard()] for every taken pile. *)
Definition discard_taken (g : Hearts) : Hearts :=
  with_taken ((λ _, []) <$> taken g) g.

(** [trick_winner]; [shuffled] and [next_dir] are what the shuffle and the
    sequencer of pass directions give if the round is over. *)
Definition trick_winner (shuffled : list Card) (next_dir : string) (g : Hearts)
  : option Hearts :=
  '(seat, g) ← take_trick g;
  hand ← hands g !! human g;
  if bool_decide (hand = []) then
    g ← score_round g;
    top ← max_value (scores g);
    if bool_decide (top < end_ (opt g))
    then g ← deal shuffled (discard_taken g); set_pass next_dir g
    else Some g
  else Some (with_player_index (seat - 1) g).

(** ** The turns of the players *)

(** The branch of [player_action] for the phase ['trick'] and a move that
    is a card text (the move is the text of the low club when the player
    must play it, and the player's answer otherwise): the play, then the
    trick is resolved if it is full.  The flag is the value returned,
    true when the same player is to move again.  [shuffles] and [dirs]
    give the shuffle and the pass direction of a round that starts after
    so many tricks. *)
Definition play_card (shuffles : Z → list Card) (dirs : Z → string)
    (move : string) (g : Hearts) : option (Hearts * bool) :=
  '(g, err) ← do_play move g;
  g ← (if bool_decide (length (trick g) = length (players g))
       then let g := with_tricks (tricks g + 1) g in
            trick_winner (shuffles (tricks g)) (dirs (tricks g)) g
       else Some g);
  Some (g, bool_decide (is_Some err)).

(** Modelled from the spec: the loop of [game.Game.play] (the module
    [game] is not among the sources), in which the players act strictly in
    seat order: when an action is over the index of the player moves on by
    one, around the table. *)
Definition next_player (g : Hearts) : Hearts :=
  with_player_index ((player_index g + 1) `mod` Z.of_nat (length (players g))) g.

(** The plays of one trick: each move is made by the player whose turn
    it is and accepted by [do_play], and the turn moves on between two
    plays.  The game is given as it is after the last play, when
    [player_action] looks at the length of the trick, with the seat and
    the card of every play.  [None] is a play that was rejected or raised
    an exception. *)
Fixpoint play_trick (moves : list string) (g : Hearts)
  : option (Hearts * list (Z * Card)) :=
  match moves with
  | [] => Some (g, [])
  | move :: moves' =>
      '(g1, err) ← do_play move g;
      if bool_decide (is_Some err) then None
      else
        card ← last (trick g1);
        match moves' with
        | [] => Some (g1, [(player_index g, card)])
        | _ :: _ =>
            '(g2, plays) ← play_trick moves' (next_player g1);
            Some (g2, (player_index g, card) :: plays)
        end
  end.

(** ** Dealer's choice: [Hearts.dealers_choice] *)

Definition pass_aliases : gmap string string :=
  list_to_map [("l", "left"); ("r", "right"); ("rl", "right-left");
               ("lr", "left-right"); ("@", "rot-left"); ("c", "central");
               ("d", "dealer"); ("n", "not"); ("s", "scatter")].

(** What the first [next] of the generator comes to, for the answers the
    dealer gives to ['What direction shoud cards be passed? ']. *)
Inductive Choice : Type :=
  | NameError (name : string)
      (* the exception of Python for a name that is not defined *)
  | ValueError
      (* the dealer is not among the players *)
  | Asking (dealer : string) (rejected : list string)
      (* every answer was rejected with dealer.error; the dealer is asked again *)
  | Yield (dealer : string) (rejected : list string) (pass_dir : string).
      (* the direction yielded, after the rejected ones *)

(** [# Set the valid choices.]  With other than 4 or 6 players the source
    evaluates [valid[:-1]], and no name [valid] is defined in the
    function, the module or the builtins. *)
Definition valid_dirs (g : Hearts) : option (list string) :=
  let valid_dirs := ["left"; "right"; "not"; "center"; "scatter"; "across"] in
  if bool_decide (length (players g) ∉ [4; 6]%nat) then None
  else Some valid_dirs.

(** The loop [# Get a valid direction.] *)
Fixpoint ask_direction (dealer : string) (valid_dirs : list string)
    (rejected : list string) (answers : list string) : Choice :=
  match answers with
  | [] => Asking dealer rejected
  | answer :: answers' =>
      let pass_dir := default answer (pass_aliases !! answer) in
      if bool_decide (pass_dir ∈ valid_dirs) then Yield dealer rejected pass_dir
      else ask_direction dealer valid_dirs (rejected ++ [pass_dir]) answers'
  end.

(** The generator up to its first [yield]; the count of cards to pass,
    asked after the direction, is left out. *)
Definition dealers_choice (g : Hearts) (answers : list string) : Choice :=
  match valid_dirs g with
  | None => NameError "valid"
  | Some valid_dirs =>
      match i ← list_index (dealer g) (players g);
            py_nth (players g) (Z.of_nat i - 1) with
      | None => ValueError
      | Some dealer => ask_direction dealer valid_dirs [] answers
      end
  end.

(** ** Well-formed games *)

(** Every heart of the pile has its points in [heart_points]. *)
Definition countable (s : Settings) (pile : list Card) : bool :=
  forallb (λ card, negb (is_heart card)
                   || bool_decide (is_Some (heart_points s !! rank card))) pile.

(** Every player has a taken pile that can be counted, as after [set_up]
    with the cards of the deck. *)
Definition scorable (g : Hearts) : bool :=
  forallb (λ name, match taken g !! name with
                   | Some pile => countable (opt g) pile
                   | None => false
                   end) (players g).

(** Every player has a score, and the moon setting is not empty. *)
Definition scored (g : Hearts) : bool :=
  forallb (λ name, bool_decide (is_Some (scores g !! name))) (players g)
  && negb (bool_decide (players g = []))
  && truthy (moon (opt g)).


(** ** The rounds of the deal *)

(** A player draws a card: it goes to the end of the hand. *)
Definition draw_card (hands : gmap string (list Card)) (draw : string * Card)
  : gmap string (list Card) :=
  <[draw.1 := default [] (hands !! draw.1) ++ [draw.2]]> hands.

(** One round of the deal: the players of the cycle draw, in their order,
    the cards [cards] from the top of the deck. *)
Definition deal_round (cycle : list string) (cards : list Card)
    (hands : gmap string (list Card)) : gmap string (list Card) :=
  foldl draw_card hands (zip cycle cards).

(** The players have distinct names, and each of them has a hand. *)
Definition seated (g : Hearts) : bool :=
  bool_decide (NoDup (players g))
  && forallb (λ name, bool_decide (is_Some (hands g !! name))) (players g).

(** The cards that the players hold, hand after hand. *)
Definition held (names : list string) (hands : gmap string (list Card)) : list Card :=
  names ≫= λ name, default [] (hands !! name).

(** The order of the hands after a sort by [(card.suit, card.rank_num)]:
    [a] may stand before [b]. *)
Definition suit_rank_le (a b : Card) : Prop :=
  suit_rank_ltb (suit b, rank_num b) (suit a, rank_num a) = false.

(** ** The end of the game: [Hearts.game_over] *)

(** The game with the two attributes that [game_over] writes for the
    interface: [win_loss_draw], the wins, the losses and the draws of the
    human, and [turns]. *)
Record Played : Type := mkPlayed {
  game : Hearts;
  win_loss_draw : Z * Z * Z;
  turns : Z
}.

(** One turn of the loop [for name, score in self.scores.items()].  The
    third test of the source, [name != human_score], compares the name of
    a player with a score, a text with a number, which are never equal:
    a score that is neither above nor below the score of the human counts
    as a draw, whose ever it is. *)
Definition tally_step (human_score : Z) (wld : Z * Z * Z) (item : string * Z)
  : Z * Z * Z :=
  let '(win, loss, draw) := wld in
  if bool_decide (item.2 > human_score) then (win + 1, loss, draw)
  else if bool_decide (item.2 < human_score) then (win, loss + 1, draw)
  else (win, loss, draw + 1).

(** [hand.discard()] for every hand. *)
Definition discard_hands (g : Hearts) : Hearts :=
  with_hands ((λ _, []) <$> hands g) g.

(** [game_over]: the value returned and the game after the call; the
    texts told to the human are left out. *)
Definition game_over (t : Played) : option (bool * Played) :=
  let g := game t in
  top ← max_value (scores g);
  if bool_decide (end_ (opt g) ≤ top) then
    human_score ← scores g !! human g;
    let wld := foldl (tally_step human_score) (win_loss_draw t)
                     (map_to_list (scores g)) in
    Some (true, mkPlayed (discard_hands g) wld (tricks g))
  else Some (false, t).

(** The number of the scores that satisfy [P]. *)
Definition count_scores (P : Z → bool) (items : list (string * Z)) : Z :=
  Z.of_nat (length (filter (λ item, P item.2 = true) items)).

(** ** The sequencer of the pass directions: [Hearts.handle_opt_pass] *)

From Stdlib Require DecimalString DecimalNat.

Definition pass_dirs : gmap string (list string) :=
  list_to_map [("left", ["left"]); ("right", ["right"]);
               ("left-right", ["left"; "right"]);
               ("right-left", ["right"; "left"]); ("rot-left", []);
               ("central", ["center"]); ("dealer", []); ("not", ["not"]);
               ("lran", ["left"; "right"; "across"; "not"]);
               ("scatter", ["scatter"])].

(** The text of a number, as ['left-{}'.format(n)] writes it. *)
Definition decimal (n : nat) : string :=
  DecimalString.NilZero.string_of_uint (Nat.to_uint n).

(** [l[1:-1]] *)
Definition inner {A} (l : list A) : list A := drop 1 (take (length l - 1) l).

(** The value of [self.pass_dir] once the options are handled: an
    [itertools.cycle] of directions, or the generator [dealers_choice]. *)
Inductive Sequencer : Type :=
  | Cycle (dirs : list string)
  | DealersChoice.

(** [handle_opt_pass], from the option values [pass_dir] and [num_pass]:
    the number of cards to pass, the flag [not_warning] and the
    sequencer.  [None] is the KeyError of a setting that [pass_dirs] does
    not have. *)
Definition handle_opt_pass (pass_dir : string) (num_pass : Z) (players : list string)
  : option (Z * bool * Sequencer) :=
  let n := length players in
  let num_pass :=
    if bool_decide (num_pass = 0) then (if bool_decide (n < 5)%nat then 3 else 2)
    else num_pass in
  let pass_dir := default pass_dir (pass_aliases !! pass_dir) in
  let not_warning := negb (bool_decide (pass_dir = "not")) in
  let num_pass :=
    if bool_decide (pass_dir = "scatter") then Z.of_nat n - 1 else num_pass in
  if bool_decide (pass_dir = "rot-left") then
    let dirs := (λ player_index, "left-" +:+ decimal player_index) <$> seq 1 n in
    Some (num_pass, not_warning, Cycle (["left"] ++ inner dirs ++ ["not"]))
  else if bool_decide (pass_dir = "dealer") then
    Some (num_pass, not_warning, DealersChoice)
  else
    dirs ← pass_dirs !! pass_dir;
    Some (num_pass, not_warning, Cycle dirs).

(** What the [round]-th [next] of a cycle gives, the rounds counted from
    0; [None] is the StopIteration of an empty cycle. *)
Definition nth_dir (dirs : list string) (round : nat) : option string :=
  dirs !! (round mod length dirs)%nat.

(** In the game [g'] the cards are to be passed [offset] seats to the
    left: the phase is the pass, the player at seat [i] passes to the
    player at seat [i + offset], around the table, no two players pass
    to the same, and no one else passes. *)
Definition passes_by (offset : nat) (g g' : Hearts) : Prop :=
  phase g' = "pass"
  ∧ (∀ i p, players g !! i = Some p →
       pass_to g' !! p = players g !! ((i + offset) mod length (players g))%nat)
  ∧ (∀ p p' q, pass_to g' !! p = Some q → pass_to g' !! p' = Some q → p = p')
  ∧ (∀ p, p ∉ players g → pass_to g' !! p = None).

(** The values of the option pass-dir that [set_options] allows, but for
    the dealer's choice. *)
Definition pass_dir_values : list string :=
  ["r"; "right"; "l"; "left"; "rl"; "right-left"; "lr"; "left-right"; "lran";
   "rot-left"; "@"; "central"; "c"; "not"; "n"; "scatter"; "s"].

(** ** Passing cards: [Hearts.do_pass], [Hearts.pass_cards] *)

(** [card_re.findall(text)], each match stripped of the spaces around it:
    the pairs of a rank and a suit character of the text, from left to
    right and without overlap. *)
Fixpoint card_re_findall (text : string) : list string :=
  match text with
  | EmptyString => []
  | String r rest =>
      match rest with
      | EmptyString => []
      | String s rest' =>
          if in_chars (upper_char r) "X123456789TJQKA"
             && in_chars (upper_char s) "CDHS"
          then String r (String s EmptyString) :: card_re_findall rest'
          else card_re_findall rest
      end
  end.

(** The game with the attributes of the pass: the options keep-spades,
    low-club (the club found by [handle_opt_play], if the option is set)
    and num-pass, and the cards that each player has put aside to
    pass. *)
Record Passing : Type := mkPassing {
  base : Hearts;
  keep_spades : bool;
  low_club : option Card;
  num_pass : Z;
  passes : gmap string (list Card)
}.

Definition with_base (v : Hearts) (t : Passing) : Passing :=
  mkPassing v (keep_spades t) (low_club t) (num_pass t) (passes t).

(** The errors that [do_pass] reports with [player.error] before it
    returns True. *)
Inductive PassError : Type :=
  | NotInHand (card : string)    (* 'You do not have the ...' *)
  | MayNotPass (card : string).  (* 'You may not pass the ...' *)

(** The loop that checks the cards named. *)
Definition pass_errors (keep_spades : bool) (hand : list Card) (cards : list string)
  : list PassError :=
  cards ≫= λ card,
    if negb (contains card hand) then [NotInHand card]
    else if keep_spades && bool_decide (card ∈ ["QS"; "KS"; "AS"])
    then [MayNotPass card]
    else [].

(** The loop [for card in cards: hand.shift(card, self.passes[player.name])]. *)
Fixpoint shift_all (cards : list string) (player : string)
    (hands passes : gmap string (list Card))
  : option (gmap string (list Card) * gmap string (list Card)) :=
  match cards with
  | [] => Some (hands, passes)
  | card :: cards' =>
      hand ← hands !! player;
      stack ← passes !! player;
      '(hand', stack') ← shift card hand stack;
      shift_all cards' player (<[player := hand']> hands) (<[player := stack']> passes)
  end.

(** [pass_cards], player to player: the cards put aside by a player go
    to the end of the hand of the passee. *)
Fixpoint pass_direct (names : list string) (pass_to : gmap string string)
    (hands passes : gmap string (list Card))
  : option (gmap string (list Card) * gmap string (list Card)) :=
  match names with
  | [] => Some (hands, passes)
  | pass_from :: names' =>
      to ← pass_to !! pass_from;
      hand ← hands !! to;
      stack ← passes !! pass_from;
      pass_direct names' pass_to (<[to := hand ++ stack]> hands)
                  (<[pass_from := []]> passes)
  end.

(** [pass_cards], scatter: the inner loop, in which [pass_from] gives the
    first card put aside, [pop(0)], to every other player in turn. *)
Fixpoint scatter_from (pass_from : string) (names : list string)
    (hands passes : gmap string (list Card))
  : option (gmap string (list Card) * gmap string (list Card)) :=
  match names with
  | [] => Some (hands, passes)
  | to :: names' =>
      if bool_decide (pass_from = to) then scatter_from pass_from names' hands passes
      else
        hand ← hands !! to;
        stack ← passes !! pass_from;
        match stack with
        | [] => None
        | card :: stack' =>
            scatter_from pass_from names' (<[to := hand ++ [card]]> hands)
                         (<[pass_from := stack']> passes)
        end
  end.

Fixpoint pass_scatter (froms names : list string)
    (hands passes : gmap string (list Card))
  : option (gmap string (list Card) * gmap string (list Card)) :=
  match froms with
  | [] => Some (hands, passes)
  | pass_from :: froms' =>
      '(hands', passes') ← scatter_from pass_from names hands passes;
      pass_scatter froms' names hands' passes'
  end.

(** [pass_cards], to the center: the cards put aside are gathered, *)
Fixpoint gather (names : list string) (passes : gmap string (list Card))
    (center : list Card) : option (list Card * gmap string (list Card)) :=
  match names with
  | [] => Some (center, passes)
  | name :: names' =>
      stack ← passes !! name;
      gather names' (<[name := []]> passes) (center ++ stack)
  end.

(** shuffled, and dealt from the end of the list, [center.pop()], to the
    players in their order, around the table, until none is left; the
    [k]-th card goes to the [k]-th player of the cycle.  An empty center
    is an IndexError. *)
Fixpoint deal_center (names : list string) (k : nat) (center : list Card)
    (hands : gmap string (list Card)) : option (gmap string (list Card)) :=
  match center with
  | [] => None
  | card :: center' =>
      name ← names !! (k mod length names)%nat;
      hand ← hands !! name;
      let hands' := <[name := hand ++ [card]]> hands in
      if bool_decide (center' = []) then Some hands'
      else deal_center names (S k) center' hands'
  end.

(** [pass_cards]; [shuffle] is what [random.shuffle] makes of the cards
    of the center. *)
Definition pass_cards (shuffle : list Card → list Card) (t : Passing) : option Passing :=
  let g := base t in
  '(hands', passes') ←
    (if bool_decide (this_pass g = "center") then
       '(center, passes') ← gather (players g) (passes t) [];
       hands' ← (if bool_decide (players g = []) then Some (hands g)
                 else deal_center (players g) 0 (reverse (shuffle center)) (hands g));
       Some (hands', passes')
     else if bool_decide (this_pass g = "scatter") then
       pass_scatter (players g) (players g) (hands g) (passes t)
     else pass_direct (players g) (pass_to g) (hands g) (passes t));
  human_got ← hands' !! human g;
  let sorted := sorted_by suit_rank_ltb (λ card, (suit card, rank_num card)) <$> hands' in
  Some (mkPassing (with_hands sorted g) (keep_spades t) (low_club t) (num_pass t)
                  passes').

(** The loop [for player in self.players] that looks for the holder of
    the low club: the first player who holds it or, as no one does, the
    last player ([last] is the value of the variable before the loop). *)
Fixpoint find_holder (club : Card) (names : list string)
    (hands : gmap string (list Card)) (last : string) : option string :=
  match names with
  | [] => Some last
  | name :: names' =>
      hand ← hands !! name;
      if contains club hand then Some name
      else find_holder club names' hands name
  end.

(** [# Set the first player.] *)
Definition first_player (passer : string) (t : Passing) : option Z :=
  let g := base t in
  match low_club t with
  | Some club =>
      holder ← find_holder club (players g) (hands g) passer;
      i ← list_index holder (players g);
      Some (Z.of_nat i - 1)
  | None =>
      i ← list_index (dealer g) (players g);
      Some (Z.of_nat i - 1)
  end.

(** [all(self.passes.values())]: every player has put cards aside. *)
Definition all_passed (passes : gmap string (list Card)) : bool :=
  forallb (λ stack, negb (bool_decide (stack = []))) (map_to_list passes).*2.

(** [do_pass(arguments)]: the game after the call and the errors
    reported; with an error the value returned is True and the player is
    asked again. *)
Definition do_pass (shuffle : list Card → list Card) (arguments : string)
    (t : Passing) : option (Passing * list PassError) :=
  let g := base t in
  player ← py_nth (players g) (player_index g);
  hand ← hands g !! player;
  let cards := upper <$> card_re_findall arguments in
  let errors := pass_errors (keep_spades t) hand cards in
  if negb (bool_decide (errors = [])) then Some (t, errors)
  else
    '(hands', passes') ← shift_all cards player (hands g) (passes t);
    let t := mkPassing (with_hands hands' g) (keep_spades t) (low_club t)
                       (num_pass t) passes' in
    if all_passed passes' then
      t ← pass_cards shuffle t;
      let t := with_base (with_phase "trick" (base t)) t in
      index ← first_player player t;
      Some (with_base (with_player_index index (base t)) t, [])
    else Some (t, []).

(** ** The turn of a player: [Hearts.player_action] *)

(** What a turn comes to: the game after it with the value returned,
    true if the same player is to move again; or a text that is no
    move and goes to [handle_cmd]. *)
Inductive Action : Type :=
  | Went (t : Passing) (again : bool)
  | Command (move : string).

(** [player_action] for the answer that the player gives when asked; the
    texts told to the players are left out. *)
Definition player_action (shuffles : Z → list Card) (dirs : Z → string)
    (shuffle : list Card → list Card) (answer : string) (t : Passing)
  : option Action :=
  let g := base t in
  player ← py_nth (players g) (player_index g);
  hand ← hands g !! player;
  if bool_decide (phase g = "pass") then
    (if bool_decide (this_pass g = "scatter") then Some ""
     else pass_to g !! player) ≫= λ _,
    if bool_decide (Z.of_nat (length (card_re_findall answer)) = num_pass t) then
      '(t', errors) ← do_pass shuffle answer t;
      Some (Went t' (negb (bool_decide (errors = []))))
    else Some (Command answer)
  else if bool_decide (phase g = "trick") then
    let move :=
      match low_club t with
      | Some club => if contains club hand then up_text club else answer
      | None => answer
      end in
    if card_re_match move then
      '(g', go) ← play_card shuffles dirs move g;
      Some (Went (with_base g' t) go)
    else Some (Command move)
  else Some (Went t false).

(** ** Well-formed passes *)

(** The players are seated, each has a stack for the cards put aside,
    and the human is one of them. *)
Definition pass_ready (t : Passing) : bool :=
  seated (base t)
  && forallb (λ name, bool_decide (is_Some (passes t !! name))) (players (base t))
  && bool_decide (human (base t) ∈ players (base t)).

(** Every player passes to a player, and no two pass to the same. *)
Definition one_to_one (g : Hearts) : bool :=
  forallb (λ name, match pass_to g !! name with
                   | Some to => bool_decide (to ∈ players g)
                   | None => false
                   end) (players g)
  && bool_decide (NoDup ((λ name, pass_to g !! name) <$> players g)).

(** The hands as [pass_cards] leaves them. *)
Definition sorted_hand (hand : list Card) : list Card :=
  sorted_by suit_rank_ltb (λ card, (suit card, rank_num card)) hand.

(** ** The options of the deal and of the play: [Hearts.handle_opt_deal],
       [Hearts.handle_opt_play] *)

(** Modelled from the spec: the ditch policy shrinks the deck;
    [Deck.force(text)] takes the card of that text out of the deck, and a
    text for which the deck has no card is an error. *)
Definition force (text : string) (deck : list Card) : option (list Card) :=
  if contains text deck then Some (remove text deck) else None.

(** The loop of the ditch, [while len(self.deck.cards) % len(self.players)],
    on the texts in the order in which [ditch_stack.pop()] gives them; the
    pop of the empty list is an IndexError. *)
Fixpoint ditch (stack : list string) (n : nat) (deck : list Card)
  : option (list Card) :=
  if bool_decide (length deck mod n = 0)%nat then Some deck
  else match stack with
       | [] => None
       | text :: stack' => deck' ← force text deck; ditch stack' n deck'
       end.

(** The loop of the jokers: the [k]-th joker is of the suit that
    [itertools.cycle('CD')] gives, clubs first.  The loop runs fewer than
    [n] times, which [fuel] allows for. *)
Fixpoint add_jokers (fuel k n : nat) (deck : list Card) : option (list Card) :=
  if bool_decide (length deck mod n = 0)%nat then Some deck
  else match fuel with
       | O => None
       | S fuel' =>
           add_jokers fuel' (S k) n
             (deck ++ [mkCard "X" (if Nat.even k then "C" else "D")])
       end.

(** [handle_opt_deal], for the value of the option extras, [n] players
    and the deck: the deck and the kitty setting after it.  [None] is an
    exception: the IndexError of an empty option or of an empty ditch
    stack, or the division by no players. *)
Definition handle_opt_deal (extras : string) (n : nat) (deck : list Card)
    (kitty : string) : option (list Card * string) :=
  x ← first_char extras;
  if decide (x = "d"%char) then
    if bool_decide (n = 0%nat) then None
    else deck' ← ditch (reverse ["3D"; "3C"; "2D"; "2C"]) n deck; Some (deck', kitty)
  else if decide (x = "f"%char) then Some (deck, "first")
  else if decide (x = "h"%char) then Some (deck, "heart")
  else if decide (x = "j"%char) then
    if bool_decide (n = 0%nat) then None
    else deck' ← add_jokers n 0 n deck; Some (deck', kitty)
  else Some (deck, kitty).

(** The loop [while self.jokers_follow and self.low_club.rank == 'X'], on
    the clubs in the order in which [clubs.pop()] gives them. *)
Fixpoint pop_low (jokers_follow : bool) (clubs : list Card) : option Card :=
  match clubs with
  | [] => None
  | card :: clubs' =>
      if jokers_follow && is_joker card then pop_low jokers_follow clubs'
      else Some card
  end.

(** [handle_opt_play], for the value of the option low-club: the card
    that must lead, if the option is set.  The clubs are sorted with
    [reverse = True], the highest first.  [None] is the IndexError of a
    deck without a club that can lead. *)
Definition handle_opt_play (low_club jokers_follow : bool) (deck : list Card)
  : option (option Card) :=
  if low_club then
    let clubs := filter (λ card, suit card = "C"%char) deck in
    let clubs := sorted_by (λ a b, b <? a) rank_num clubs in
    card ← pop_low jokers_follow (reverse clubs);
    Some (Some card)
  else Some None.

(** The [k] first jokers that the option extras adds to the deck. *)
Definition jokers (k : nat) : list Card :=
  (λ i, mkCard "X" (if Nat.even i then "C" else "D")) <$> seq 0 k.

(** The deck without the cards of the texts, taken out one after the
    other. *)
Definition without (texts : list string) (deck : list Card) : list Card :=
  foldl (λ deck text, remove text deck) deck texts.

(** ** The course of a round *)

(** What happens to the game between two deals: the pass direction is
    set, a player puts cards aside to pass, the cards are passed, a card
    is played, a full trick is taken, the tricks are counted, the winner
    is given the lead, the turn moves to the next player and the round is
    scored.  The steps of the pass are those of [do_pass] and of
    [pass_cards] on the game with the attributes of the pass, whatever
    these are. *)
Inductive round_step : Hearts → Hearts → Prop :=
  | step_pass next_dir g g' :
      set_pass next_dir g = Some g' → round_step g g'
  | step_play arguments g g' err :
      do_play arguments g = Some (g', err) → round_step g g'
  | step_take g seat g' :
      take_trick g = Some (seat, g') → round_step g g'
  | step_count g :
      round_step g (with_tricks (tricks g + 1) g)
  | step_lead g seat :
      round_step g (with_player_index seat g)
  | step_score g g' :
      score_round g = Some g' → round_step g g'
  | step_do_pass shuffle arguments t t' errors :
      do_pass shuffle arguments t = Some (t', errors) →
      round_step (base t) (base t')
  | step_pass_cards shuffle t t' :
      pass_cards shuffle t = Some t' → round_step (base t) (base t').
(** ** The ways of the moon *)

(** The two ways of the moon, as relations between the raw points [rp]
    and the adjusted points [rs] of the round. *)
Definition old_way (shooter : string) (value : Z) (rp rs : gmap string Z) : Prop :=
  rs !! shooter = Some 0
  ∧ ∀ other, other ≠ shooter → rs !! other = (λ p, p + value) <$> rp !! other.

Definition new_way (shooter : string) (value : Z) (rp rs : gmap string Z) : Prop :=
  rs !! shooter = Some (- value)
  ∧ ∀ other, other ≠ shooter → rs !! other = rp !! other.

(** ** A card played *)

(** The game after the card [c] went from the hand of [player] to the
    trick. *)
Definition played (player : string) (hand : list Card) (c : Card) (g : Hearts) : Hearts :=
  with_trick (trick g ++ [c])
    (with_hands (<[player := remove c hand]> (hands g)) g).

(** ** Games at the table *)

(** Games of four players at the end of a round and in the course of a
    trick, on which the theorems below are tried. *)
Module Table.

Definition cards_of (texts : list string) : list Card := omap Card_of_text texts.

Definition names : list string := ["Ann"; "Bob"; "Cat"; "Dan"].
Definition names3 : list string := ["Ann"; "Bob"; "Cat"].

(** The default values of the options. *)
Definition defaults : Settings :=
  mkSettings false false false false None 100 "" ∅ 13 0 "old" 0 ∅.

(** The settings after [handle_opt_score] on the deck of 52 cards. *)
Definition settings (heart_score bonus_text : string) (s : Settings) : Settings :=
  default s (handle_opt_score heart_score bonus_text standard_deck s).

(** The deck of three players with the option extras at jokers: two
    jokers make the hands even. *)
Definition deck_of_three : list Card :=
  standard_deck ++ [mkCard "X" "C"; mkCard "X" "D"].

(** The cards of a deck that are in none of the piles. *)
Definition others_of (deck : list Card) (piles : list (list Card)) : list Card :=
  filter (λ card, card ∉ concat piles) deck.
Definition others (piles : list (list Card)) : list Card :=
  others_of standard_deck piles.

(** The end of a round: the hands are played out, the trick is cleared
    and the cards are in the piles of the players. *)
Definition round_end (s : Settings) (piles : list (list Card)) (scores : list Z) : Hearts :=
  mkHearts s names "Ann" "Bob" 3 []
    (list_to_map ((λ name, (name, [])) <$> names))
    (list_to_map (zip names piles)) [] true
    "trick" 13 (list_to_map (zip names scores)) "not" ∅.

Definition JD : Card := mkCard "J" "D".

(** The jack of diamonds is the bonus card; Ann took it with the queen
    of spades and two hearts, Bob took four hearts, Cat the other cards
    and Dan no trick. *)
Definition ann_pile : list Card := cards_of ["JD"; "QS"; "2H"; "3H"].
Definition bob_pile : list Card := cards_of ["4H"; "5H"; "6H"; "7H"].
Definition bonus_game : Hearts :=
  round_end (settings "one" "JD" defaults)
    [ann_pile; bob_pile; others [ann_pile; bob_pile]; []] [0; 0; 0; 0].

End Table.

Module Moon.
Import Table.

Definition hearts : list Card := filter (λ card, is_heart card = true) standard_deck.

(** Ann took every heart and the queen of spades, with two clubs. *)
Definition moon_pile : list Card := hearts ++ cards_of ["QS"; "2C"; "3C"].

(** The round in which Ann shoots the moon: Bob took the other cards,
    Cat and Dan no trick. *)
Definition shot (moon : string) (no_tricks : Z) (scores : list Z) : Hearts :=
  round_end
    (settings "one" "" (mkSettings false false false false None 100 "" ∅ 13 0
                          moon no_tricks ∅))
    [moon_pile; others [moon_pile]; []; []] scores.

(** Under [auto], with Bob at 74 points of the 100 that end the game. *)
Definition at_the_end : Hearts := shot "auto" 0 [10; 74; 30; 20].

(** Under [auto], with the shooter at 90 points. *)
Definition shooter_ahead : Hearts := shot "auto" 0 [90; 10; 30; 20].

(** The raw points of that round. *)
Definition raw : gmap string Z :=
  list_to_map [("Ann", 26); ("Bob", 0); ("Cat", 0); ("Dan", 0)].

End Moon.

(** ** Leads *)

Module Lead.
Import Table.

(** Ann is to lead a trick; the players hold the cards [hands] and the
    other cards of the deck were taken by Bob. *)
Definition lead (s : Settings) (names : list string) (deck : list Card)
    (hearts_broken : bool) (hands : list (list Card)) : Hearts :=
  let taken := others_of deck hands in
  mkHearts s names "Ann" "Ann" 0 []
    (list_to_map (zip names hands))
    (<["Bob" := taken]> (list_to_map ((λ name, (name, [])) <$> names)))
    [] hearts_broken "trick" (Z.of_nat (length taken / length names))
    (list_to_map ((λ name, (name, 0)) <$> names)) "not" ∅.

Definition AH : Card := mkCard "A" "H".
Definition C2 : Card := mkCard "2" "C".
Definition XC : Card := mkCard "X" "C".

(** With the option break-hearts. *)
Definition break_hearts_on : Settings :=
  settings "one" "" (mkSettings false true false false None 100 "" ∅ 13 0 "old" 0 ∅).

(** With the options break-hearts and jokers-follow, and the jokers in
    the deck. *)
Definition jokers_follow_on : Settings :=
  default defaults
    (handle_opt_score "one" "" deck_of_three
       (mkSettings false true true false None 100 "" ∅ 13 0 "old" 0 ∅)).

(** Hearts are not broken and Ann holds the ace of hearts and the two of
    clubs. *)
Definition unbroken : Hearts :=
  lead break_hearts_on names standard_deck false
    [[AH; C2]; cards_of ["3C"; "KH"]; cards_of ["4C"; "QH"]; cards_of ["5C"; "JH"]].

(** Three players; hearts are not broken, jokers may not lead, and Ann
    holds the ace of hearts and a joker. *)
Definition heart_and_joker : Hearts :=
  lead jokers_follow_on names3 deck_of_three false
    [[AH; XC]; cards_of ["3C"; "KH"]; cards_of ["4C"; "QH"]].

End Lead.

(** ** A trick taken *)

(** The kitty goes to the winner of this trick. *)
Definition awarded (g : Hearts) : bool :=
  negb (bool_decide (deck_cards g = [])) && kitty_win g.

(** A card of the trick is a breaker. *)
Definition has_breaker (g : Hearts) : bool :=
  negb (bool_decide (breakers (opt g) ∩ list_to_set (trick g) = ∅)).

(** The game after the trick went to [winner], whose pile was [pile]. *)
Definition taken_by (winner : string) (pile : list Card) (g : Hearts) : Hearts :=
  mkHearts (opt g) (players g) (human g) (dealer g) (player_index g)
    (if awarded g then [] else deck_cards g) (hands g)
    (<[winner := pile ++ trick g ++ (if awarded g then deck_cards g else [])]> (taken g))
    [] (hearts_broken g || has_breaker g) (phase g) (tricks g) (scores g)
    (this_pass g) (pass_to g).

(** Every player has a pile of taken cards. *)
Definition piled (g : Hearts) : bool :=
  forallb (λ name, bool_decide (is_Some (taken g !! name))) (players g).

(** ** The course of a round *)

(** The games [states] follow one another from [g] by the relation [R]. *)
Fixpoint chain (R : Hearts → Hearts → Prop) (g : Hearts) (states : list Hearts) : Prop :=
  match states with
  | [] => True
  | g' :: states' => R g g' ∧ chain R g' states'
  end.



(** ** Deals and tricks *)

Module Round.
Import Table.

(** The game as [set_up] has it before the first deal, the last player
    being the dealer that [set_dealer] found. *)
Definition before_deal (s : Settings) (names : list string) : Hearts :=
  mkHearts s names "Ann" (default "" (last names)) 0 []
    (list_to_map ((λ name, (name, [])) <$> names))
    (list_to_map ((λ name, (name, [])) <$> names))
    [] false "" 0 (list_to_map ((λ name, (name, 0)) <$> names)) "" ∅.


(** The games after the deal of the deck as it is, then with no cards
    to pass, and after the lead of the four of clubs by Ann, who is at
    the left of the dealer. *)
Definition dealt (g : Hearts) : Hearts := default g (deal standard_deck g).

(** The trick of the spec: the five of hearts led by Ann, then the king
    and the two of hearts and the queen of spades. *)
Definition the_trick : list Card := cards_of ["5H"; "KH"; "2H"; "QS"].

(** The trick is full after the play of Dan; each player holds the
    cards [left] and Cat took the tricks before. *)
Definition full_trick (s : Settings) (left : list (list Card)) (hearts_broken : bool)
  : Hearts :=
  mkHearts s names "Ann" "Ann" 3 []
    (list_to_map (zip names left))
    (list_to_map (zip names [[]; []; others (the_trick :: left); []]))
    the_trick hearts_broken "trick"
    (Z.of_nat (length (others (the_trick :: left)) / 4) + 1)
    (list_to_map (zip names [0; 0; 0; 0])) "not" ∅.

(** Ann is to lead; each player holds a card of the trick of the spec
    and the card [left] for it, if any. *)
Definition to_lead (left : list (list Card)) : Hearts :=
  let hands := zip_with (λ card cards, card :: cards) the_trick left in
  mkHearts (settings "one" "" defaults) names "Ann" "Ann" 0 []
    (list_to_map (zip names hands))
    (list_to_map (zip names [[]; []; others hands; []]))
    [] true "trick" (Z.of_nat (length (others hands) / 4))
    (list_to_map (zip names [0; 0; 0; 0])) "not" ∅.

(** Before the last trick but one of a round, and before the last. *)
Definition last_but_one : Hearts :=
  to_lead [cards_of ["2C"]; cards_of ["3C"]; cards_of ["4C"]; cards_of ["5C"]].
Definition the_last : Hearts := to_lead [[]; []; []; []].

(** The four plays of the trick. *)
Definition the_moves : list string := ["5h"; "kh"; "2h"; "qs"].

(** The game after these plays, the trick being full. *)
Definition played_out (g : Hearts) : Hearts :=
  default g (fst <$> play_trick the_moves g).

(** In the middle of a round. *)
Definition middle : Hearts :=
  full_trick Lead.break_hearts_on
    [cards_of ["2C"]; cards_of ["3C"]; cards_of ["4C"]; cards_of ["5C"]] false.


(** Three players after the deal, for a dealer's choice of the pass. *)
Definition three_players : Hearts :=
  dealt (before_deal (settings "one" "" defaults) names3).

End Round.



(** ** Players at the table *)

(** Four players, and three, before the first deal, with the default
    values of the options. *)
Definition seats4 : Hearts := Round.before_deal Table.defaults Table.names.
Definition seats3 : Hearts := Round.before_deal Table.defaults Table.names3.

(** ** The end of a game *)

Module Over.
Import Table.

(** The round is scored and Ann, the human, has 104 points of the 100
    that end the game; Bob has as many, Cat fewer and Dan none. *)
Definition lost : Played :=
  mkPlayed (round_end defaults
              [Moon.hearts; []; others [Moon.hearts]; []] [104; 104; 56; 0])
           (0, 0, 0) 0.

End Over.

(** ** A pass *)

Module Pass.
Import Table.

(** Four players in the phase of the pass, to the left, one card each;
    it is the turn of Ann.  The players hold the cards [deal.1] and have
    put aside the cards [deal.2]. *)
Definition table (hands : list (list Card)) : Hearts :=
  default seats4
    (set_pass "left" (with_hands (list_to_map (zip names hands)) seats4)).

Definition asked (keep_spades : bool) (low_club : option Card)
    (deal : list (list Card) * list (list Card)) : Passing :=
  mkPassing (table deal.1) keep_spades low_club 1 (list_to_map (zip names deal.2)).

(** Ann is the first to pass, and the last. *)
Definition first : list (list Card) * list (list Card) :=
  ([cards_of ["2C"; "QS"; "AH"]; cards_of ["3C"; "4C"]; cards_of ["5D"; "6D"];
    cards_of ["7S"; "8S"]],
   [[]; []; []; []]).
Definition last : list (list Card) * list (list Card) :=
  ([cards_of ["2C"; "QS"; "AH"]; cards_of ["3C"]; cards_of ["5D"]; cards_of ["7S"]],
   [[]; cards_of ["4C"]; cards_of ["6D"]; cards_of ["8S"]]).

End Pass.
(** * Properties *)

(** ** Counting the cards of a pile *)

Section Counting.
Context (s : Settings).

Lemma count_cards_app n pile1 pile2 :
  count_cards s n (pile1 ++ pile2)
  = n' ← count_cards s n pile1; count_cards s n' pile2.
Proof.
  revert n; induction pile1 as [|card pile1 IH]; intros n; simpl; [done|].
  destruct (count_card s n card) as [n'|]; simpl; [apply IH | done].
Qed.

Lemma count_card_total n card :
  negb (is_heart card) || bool_decide (is_Some (heart_points s !! rank card)) = true →
  is_Some (count_card s n card).
Proof.
  unfold count_card. destruct (is_heart card); simpl.
  - intros [p Hp]%bool_decide_eq_true. rewrite Hp. simpl. eauto.
  - intros _. repeat case_match; eauto.
Qed.

Lemma count_cards_total n pile :
  countable s pile = true → is_Some (count_cards s n pile).
Proof.
  revert n. induction pile as [|card pile IH]; intros n; simpl; [eauto|].
  intros [Hc Hp]%andb_prop.
  destruct (count_card_total n card Hc) as [n' ->]. simpl. by apply IH.
Qed.

(** The bonus noted by a turn of the loop is the old one or the card. *)
Lemma count_card_bonus n card n' :
  count_card s n card = Some n' →
  got_bonus n' = got_bonus n ∨ (got_bonus n' = Some card ∧ bonus s = Some card).
Proof.
  unfold count_card. intros Hc.
  repeat case_match; simplify_option_eq; auto.
Qed.

(** Without the bonus card in the pile no bonus is noted. *)
Lemma count_cards_no_bonus n pile n' :
  count_cards s n pile = Some n' →
  (∀ b, bonus s = Some b → b ∉ pile) →
  got_bonus n' = got_bonus n.
Proof.
  revert n. induction pile as [|card pile IH]; intros n; simpl.
  - by intros [= ->].
  - intros Hc Hb. destruct (count_card s n card) as [n1|] eqn:H1; [|done].
    simpl in Hc. rewrite (IH n1 Hc).
    + destruct (count_card_bonus _ _ _ H1) as [?|[_ Hs]]; [done|].
      exfalso. apply (Hb card Hs). left.
    + intros b Hs Hin. apply (Hb b Hs). by right.
Qed.

(** Once noted, the bonus stays noted. *)
Lemma count_cards_keeps_bonus n pile n' :
  count_cards s n pile = Some n' →
  is_Some (got_bonus n) → is_Some (got_bonus n').
Proof.
  revert n. induction pile as [|card pile IH]; intros n; simpl.
  - by intros [= ->].
  - intros Hc Hb. destruct (count_card s n card) as [n1|] eqn:H1; [|done].
    apply (IH n1 Hc).
    destruct (count_card_bonus _ _ _ H1) as [->|[-> _]]; eauto.
Qed.

(** The bonus card in the pile is noted, if it is no heart, not the
    queen of spades and no joker: those are counted as such first. *)
Lemma count_cards_bonus n pile n' b :
  count_cards s n pile = Some n' →
  bonus s = Some b → b ∈ pile →
  is_heart b = false → b ≠ QS → is_joker b = false →
  is_Some (got_bonus n').
Proof.
  intros Hc Hs Hin Hh Hq Hj. revert n Hc.
  induction pile as [|card pile IH]; intros n; simpl; [by inversion Hin|].
  destruct (count_card s n card) as [n1|] eqn:H1; [|done]. simpl. intros Hc.
  destruct (decide (card = b)) as [->|Hne].
  - apply (count_cards_keeps_bonus n1 pile n' Hc).
    unfold count_card in H1. rewrite Hh, Hj in H1.
    assert (card_eqb b "QS" = false) as Hq'.
    { apply bool_decide_eq_false. intros Ht. apply Hq.
      destruct b as [r u]. unfold up_text in Ht. simpl in Ht. by inversion Ht. }
    rewrite Hq' in H1. rewrite bool_decide_eq_true_2 in H1 by done.
    inversion H1. simpl. eauto.
  - apply (IH ltac:(by inversion Hin; subst) n1 Hc).
Qed.

(** The card points do not look at the bonus. *)
Lemma points_without_bonus n :
  got_bonus n = None → points_of_count s n = card_points s n.
Proof.
  intros Hn. unfold points_of_count. rewrite Hn.
  rewrite (bool_decide_eq_false_2 (is_Some None)); [by rewrite andb_false_r|].
  by intros [? ?].
Qed.

Lemma points_with_bonus n :
  is_Some (bonus s) → is_Some (got_bonus n) →
  points_of_count s n = Z.max 0 (card_points s n - 10).
Proof.
  intros H1 H2. unfold points_of_count.
  by rewrite !bool_decide_eq_true_2.
Qed.
End Counting.

(** ** The loop of [score_players] *)

Section ScorePlayers.
Context (g : Hearts).

Lemma score_player_inv acc name acc' :
  score_player g acc name = Some acc' →
  ∃ pile n, taken g !! name = Some pile
    ∧ count_cards (opt g) no_count pile = Some n
    ∧ acc'.1 = <[name := round_entry (opt g) pile n]> acc.1
    ∧ acc'.2 = (if shoots (opt g) n then name else acc.2).
Proof.
  unfold score_player. intros Hs.
  destruct (taken g !! name) as [pile|] eqn:Hp; [|done]. simpl in Hs.
  destruct (count_cards (opt g) no_count pile) as [n|] eqn:Hn; [|done].
  simpl in Hs. inversion Hs; subst acc'; clear Hs. simpl.
  exists pile, n. repeat split; try done.
  unfold round_entry. case_match; [|done]. by rewrite insert_insert_eq.
Qed.

Lemma score_player_total acc name pile :
  taken g !! name = Some pile → countable (opt g) pile = true →
  is_Some (score_player g acc name).
Proof.
  intros Hp Hc. unfold score_player. rewrite Hp. simpl.
  destruct (count_cards_total (opt g) no_count pile Hc) as [n ->]. simpl. eauto.
Qed.

Lemma score_loop_total names acc :
  forallb (λ name, match taken g !! name with
                   | Some pile => countable (opt g) pile
                   | None => false
                   end) names = true →
  is_Some (score_loop g acc names).
Proof.
  revert acc. induction names as [|name names IH]; intros acc; simpl; [eauto|].
  intros [H1 H2]%andb_prop.
  destruct (taken g !! name) as [pile|] eqn:Hp; [|done].
  destruct (score_player_total acc name pile Hp H1) as [acc' ->]. simpl.
  by apply IH.
Qed.

(** A player that the loop does not meet keeps its entry. *)
Lemma score_loop_other names acc rp sh name :
  score_loop g acc names = Some (rp, sh) → name ∉ names →
  rp !! name = acc.1 !! name.
Proof.
  revert acc. induction names as [|name0 names IH]; intros acc; simpl.
  - by intros [= ->].
  - intros Hl Hn. apply not_elem_of_cons in Hn as [Hne Hn].
    destruct (score_player g acc name0) as [acc'|] eqn:Hs; [|done]. simpl in Hl.
    rewrite (IH acc' Hl Hn).
    destruct (score_player_inv _ _ _ Hs) as (pile & n & _ & _ & -> & _).
    by rewrite lookup_insert_ne.
Qed.

(** The entry of a player of the loop: the points of the pile, or the
    no-tricks value. *)
Lemma score_loop_lookup names acc rp sh name :
  score_loop g acc names = Some (rp, sh) → name ∈ names →
  ∃ pile n, taken g !! name = Some pile
    ∧ count_cards (opt g) no_count pile = Some n
    ∧ rp !! name = Some (round_entry (opt g) pile n).
Proof.
  revert acc. induction names as [|name0 names IH]; intros acc; simpl.
  - intros _ Hin. by inversion Hin.
  - intros Hl Hin.
    destruct (score_player g acc name0) as [acc'|] eqn:Hs; [|done]. simpl in Hl.
    destruct (decide (name ∈ names)) as [Hin'|Hout]; [by apply (IH acc')|].
    assert (name = name0) as -> by (by inversion Hin; subst).
    destruct (score_player_inv _ _ _ Hs) as (pile & n & Hp & Hn & H1 & _).
    exists pile, n. repeat split; try done.
    rewrite (score_loop_other _ _ _ _ _ Hl Hout), H1. apply lookup_insert_eq.
Qed.

(** The shooter is the one before the loop or a player of the loop that
    shoots. *)
Lemma score_loop_shooter names acc rp sh :
  score_loop g acc names = Some (rp, sh) →
  sh = acc.2 ∨
  (sh ∈ names ∧ ∃ pile n, taken g !! sh = Some pile
      ∧ count_cards (opt g) no_count pile = Some n
      ∧ shoots (opt g) n = true).
Proof.
  revert acc. induction names as [|name0 names IH]; intros acc; simpl.
  - intros [= ->]. by left.
  - intros Hl.
    destruct (score_player g acc name0) as [acc'|] eqn:Hs; [|done]. simpl in Hl.
    destruct (score_player_inv _ _ _ Hs) as (pile & n & Hp & Hn & _ & H2).
    destruct (IH acc' Hl) as [->|(Hin & Hsh)].
    + rewrite H2. destruct (shoots (opt g) n) eqn:Hsh; [|by left].
      right. split; [left|]. by exists pile, n.
    + right. split; [by right|done].
Qed.

(** No shooter is named where no player shoots. *)
Lemma score_loop_no_shooter names acc rp sh :
  score_loop g acc names = Some (rp, sh) →
  (∀ name pile n, name ∈ names → taken g !! name = Some pile →
     count_cards (opt g) no_count pile = Some n → shoots (opt g) n = false) →
  sh = acc.2.
Proof.
  intros Hl Hno. destruct (score_loop_shooter _ _ _ _ Hl) as [?|(Hin & Hsh)]; [done|].
  destruct Hsh as (pile & n & Hp & Hn & Hsh).
  by rewrite (Hno _ _ _ Hin Hp Hn) in Hsh.
Qed.

Lemma score_players_total :
  scorable g = true → is_Some (score_players g).
Proof. apply score_loop_total. Qed.
End ScorePlayers.

(** ** The bonus card *)

(** C1 (as the code has it).  For a player scored at the end of a round
    with a bonus card configured: if the bonus card is not among the
    player's taken cards, no 10 points are taken off (the entry in the
    round points is the card points, or the no-tricks value for an empty
    pile); if the bonus card is among them (and is no heart, not the queen
    of spades and no joker), 10 is taken off the card points, to no less
    than 0. *)
Theorem C1_bonus_card_taken_deducts (g : Hearts) (name : string)
    (pile : list Card) (b : Card) :
  scorable g = true →
  name ∈ players g →
  taken g !! name = Some pile →
  bonus (opt g) = Some b →
  ∃ rp sh n,
    score_players g = Some (rp, sh)
    ∧ count_cards (opt g) no_count pile = Some n
    ∧ (b ∉ pile →
       rp !! name = Some (if bool_decide (pile = [])
                             && negb (bool_decide (no_tricks (opt g) = 0))
                          then - no_tricks (opt g)
                          else card_points (opt g) n))
    ∧ (b ∈ pile → is_heart b = false → b ≠ QS → is_joker b = false →
       rp !! name = Some (Z.max 0 (card_points (opt g) n - 10))).
Proof.
  intros Hg Hin Hp Hb.
  destruct (score_players_total g Hg) as [[rp sh] Hs].
  destruct (score_loop_lookup g _ _ _ _ _ Hs Hin) as (pile' & n & Hp' & Hn & Hrp).
  rewrite Hp in Hp'. inversion Hp'; subst pile'; clear Hp'.
  exists rp, sh, n. repeat split; try done.
  - intros Hout. rewrite Hrp. unfold round_entry. f_equal.
    case_match; [done|]. apply points_without_bonus.
    rewrite (count_cards_no_bonus _ _ _ _ Hn); [done|].
    intros b' Hb'. rewrite Hb in Hb'. by inversion Hb'; subst.
  - intros Hb_in Hh Hq Hj. rewrite Hrp. unfold round_entry. f_equal.
    assert (pile ≠ []) as Hne by (intros ->; by inversion Hb_in).
    rewrite (bool_decide_eq_false_2 _ Hne). simpl.
    apply points_with_bonus; [by rewrite Hb|].
    by apply (count_cards_bonus _ _ _ _ b Hn).
Qed.

Lemma C1_bonus_card_taken_deducts_witness :
  ∃ rp sh n,
    score_players Table.bonus_game = Some (rp, sh)
    ∧ count_cards (opt Table.bonus_game) no_count Table.ann_pile = Some n
    ∧ (Table.JD ∉ Table.ann_pile →
       rp !! "Ann" = Some (if bool_decide (Table.ann_pile = [])
                              && negb (bool_decide (no_tricks (opt Table.bonus_game) = 0))
                           then - no_tricks (opt Table.bonus_game)
                           else card_points (opt Table.bonus_game) n))
    ∧ (Table.JD ∈ Table.ann_pile → is_heart Table.JD = false → Table.JD ≠ QS →
       is_joker Table.JD = false →
       rp !! "Ann" = Some (Z.max 0 (card_points (opt Table.bonus_game) n - 10))).
Proof.
  apply (C1_bonus_card_taken_deducts Table.bonus_game "Ann" Table.ann_pile Table.JD).
  - vm_compute. reflexivity.
  - left.
  - vm_compute. reflexivity.
  - vm_compute. reflexivity.
Defined.

(** C1 as it is worded fails: Bob did not take the bonus card and keeps
    his 4 points (no 10 are taken off, which would leave 0), and Ann, who
    took it, has 5 points for cards worth 15. *)
Lemma C1_bonus_counterexample :
  bonus (opt Table.bonus_game) = Some Table.JD
  ∧ (Table.JD ∉ Table.bob_pile)
  ∧ (Table.JD ∈ Table.ann_pile)
  ∧ fmap (card_points (opt Table.bonus_game))
         (count_cards (opt Table.bonus_game) no_count Table.bob_pile) = Some 4
  ∧ fmap (card_points (opt Table.bonus_game))
         (count_cards (opt Table.bonus_game) no_count Table.ann_pile) = Some 15
  ∧ (score_players Table.bonus_game ≫= λ r, r.1 !! "Bob") = Some 4
  ∧ (score_players Table.bonus_game ≫= λ r, r.1 !! "Ann") = Some 5
  ∧ Z.max 0 (4 - 10) ≠ 4
  ∧ 15 ≠ 5.
Proof.
  repeat split; try (vm_compute; congruence).
  - apply (proj1 (bool_decide_eq_false (Table.JD ∈ Table.bob_pile))).
    vm_compute. reflexivity.
  - left.
Qed.

(** ** The highest score *)

Lemma foldr_max_ge (v : Z) (vs : list Z) (x : Z) :
  x ∈ v :: vs → x ≤ foldr Z.max v vs.
Proof.
  induction vs as [|w vs IH]; simpl.
  - intros ->%list_elem_of_singleton. lia.
  - intros [->|[->|Hx]%elem_of_cons]%elem_of_cons.
    + assert (v ≤ foldr Z.max v vs) by (apply IH; left). lia.
    + lia.
    + assert (x ≤ foldr Z.max v vs) by (apply IH; by right). lia.
Qed.

Lemma max_value_ge (m : gmap string Z) (top : Z) (k : string) (v : Z) :
  max_value m = Some top → m !! k = Some v → v ≤ top.
Proof.
  unfold max_value. intros Hm Hk.
  assert (v ∈ (map_to_list m).*2) as Hin.
  { apply list_elem_of_fmap. exists (k, v). split; [done|].
    by apply elem_of_map_to_list. }
  destruct ((map_to_list m).*2) as [|w ws]; [done|].
  inversion Hm; subst top. by apply foldr_max_ge.
Qed.

Lemma max_value_total (m : gmap string Z) (k : string) :
  is_Some (m !! k) → is_Some (max_value m).
Proof.
  intros [v Hk]. unfold max_value.
  assert (v ∈ (map_to_list m).*2) as Hin.
  { apply list_elem_of_fmap. exists (k, v). split; [done|].
    by apply elem_of_map_to_list. }
  destruct ((map_to_list m).*2) as [|w ws]; [by inversion Hin|eauto].
Qed.

(** ** The adjustment for a shot moon *)

Lemma moon_old_lookup (shooter : string) (value : Z) (rp : gmap string Z) (name : string) :
  moon_old shooter value rp !! name
  = (λ p, if bool_decide (name = shooter) then 0 else p + value) <$> rp !! name.
Proof.
  unfold moon_old. rewrite map_lookup_imap.
  by destruct (rp !! name).
Qed.

Lemma moon_old_old_way shooter value rp :
  is_Some (rp !! shooter) → old_way shooter value rp (moon_old shooter value rp).
Proof.
  intros [p Hp]. split.
  - rewrite moon_old_lookup, Hp. simpl. by rewrite bool_decide_eq_true_2.
  - intros other Hne. rewrite moon_old_lookup.
    destruct (rp !! other); simpl; [|done]. by rewrite bool_decide_eq_false_2.
Qed.

Lemma insert_new_way shooter value (rp : gmap string Z) :
  new_way shooter value rp (<[shooter := - value]> rp).
Proof.
  split; [apply lookup_insert_eq|]. intros other Hne. by rewrite lookup_insert_ne.
Qed.

Section MoonPolicy.
Context (g : Hearts).

Lemma use_old_total :
  scored g = true → is_Some (use_old g).
Proof.
  unfold scored, use_old, truthy.
  intros [[Hs Hp]%andb_prop Hm]%andb_prop.
  destruct (moon (opt g)) as [|m rest]; [done|]. simpl.
  destruct (decide (m = "a"%char)); simpl; [|eauto].
  destruct (players g) as [|p ps]; [done|]. simpl in Hs.
  apply andb_prop in Hs as [Hs%bool_decide_eq_true _].
  destruct (max_value_total _ _ Hs) as [top ->]. simpl. eauto.
Qed.

Lemma use_old_o :
  first_char (moon (opt g)) = Some "o"%char → use_old g = Some true.
Proof. unfold use_old. by intros ->. Qed.

Lemma use_old_n :
  first_char (moon (opt g)) = Some "n"%char → use_old g = Some false.
Proof. unfold use_old. by intros ->. Qed.

Lemma use_old_a top :
  first_char (moon (opt g)) = Some "a"%char →
  max_value (scores g) = Some top →
  use_old g = Some (bool_decide (top + moon_value (opt g) < end_ (opt g))).
Proof. unfold use_old. by intros -> ->. Qed.
End MoonPolicy.

(** ** Shooting the moon *)

(** C4 (as the code has it).  When [score_players] names a shooter, a
    player whose points equal the maximum score and who took the bonus
    card if one is configured: under the policy old the shooter's round
    score becomes 0 and every other player's round score increases by the
    moon value; under new the shooter's round score becomes the negative
    moon value and the others keep theirs; under auto the old way is used
    when the highest cumulative score plus the moon value is below the end
    threshold, and the new way is used when the old way would bring some
    cumulative score to the end threshold or past it (no other player
    having points of their own). *)
Theorem C4_moon_policies (g : Hearts) (rp : gmap string Z) (shooter : string) :
  scored g = true →
  score_players g = Some (rp, shooter) →
  shooter ≠ "" →
  (shooter ∈ players g
   ∧ ∃ pile n, taken g !! shooter = Some pile
       ∧ count_cards (opt g) no_count pile = Some n
       ∧ points_of_count (opt g) n = max_score (opt g)
       ∧ (is_Some (bonus (opt g)) → is_Some (got_bonus n)))
  ∧ ∃ rs, round_scores g = Some rs
    ∧ (first_char (moon (opt g)) = Some "o"%char →
       old_way shooter (moon_value (opt g)) rp rs)
    ∧ (first_char (moon (opt g)) = Some "n"%char →
       new_way shooter (moon_value (opt g)) rp rs)
    ∧ (first_char (moon (opt g)) = Some "a"%char →
       ∃ top, max_value (scores g) = Some top
         ∧ (top + moon_value (opt g) < end_ (opt g) →
            old_way shooter (moon_value (opt g)) rp rs)
         ∧ (0 ≤ moon_value (opt g) → 0 < end_ (opt g) →
            (∀ other p, other ≠ shooter → rp !! other = Some p → p ≤ 0) →
            (∃ name v p, scores g !! name = Some v
               ∧ moon_old shooter (moon_value (opt g)) rp !! name = Some p
               ∧ end_ (opt g) ≤ Z.max (v + p) 0) →
            new_way shooter (moon_value (opt g)) rp rs)).
Proof.
  intros Hg Hs Hne.
  destruct (score_loop_shooter g _ _ _ _ Hs) as [?|(Hin & pile & n & Hp & Hn & Hsh)];
    [done|].
  destruct (score_loop_lookup g _ _ _ _ _ Hs Hin) as (pile' & n' & _ & _ & Hrp).
  split.
  { split; [done|]. exists pile, n. repeat split; try done.
    - unfold shoots in Hsh. apply andb_prop in Hsh as [Hsh _].
      by apply bool_decide_eq_true in Hsh.
    - intros Hb. unfold shoots in Hsh. apply andb_prop in Hsh as [_ Hsh].
      apply orb_prop in Hsh as [Hsh|Hsh].
      + by apply bool_decide_eq_true in Hsh.
      + by rewrite bool_decide_eq_true_2 in Hsh. }
  destruct (use_old_total g Hg) as [old Ho].
  unfold round_scores. rewrite Hs. simpl. unfold moon_adjust.
  rewrite (bool_decide_eq_false_2 _ Hne), Ho. simpl.
  assert (is_Some (rp !! shooter)) as Hsome by (rewrite Hrp; eauto).
  exists (if old then moon_old shooter (moon_value (opt g)) rp
          else <[shooter := - moon_value (opt g)]> rp).
  split; [by destruct old|]. split; [|split].
  - intros Hm. rewrite (use_old_o g Hm) in Ho. inversion Ho; subst old.
    by apply moon_old_old_way.
  - intros Hm. rewrite (use_old_n g Hm) in Ho. inversion Ho; subst old.
    apply insert_new_way.
  - intros Hm.
    assert (is_Some (max_value (scores g))) as [top Ht].
    { unfold use_old in Ho. rewrite Hm in Ho. simpl in Ho.
      destruct (max_value (scores g)); [eauto|done]. }
    exists top. split; [done|].
    rewrite (use_old_a g top Hm Ht) in Ho. inversion Ho; subst old; clear Ho.
    split.
    + intros Hlt. rewrite (bool_decide_eq_true_2 _ Hlt).
      by apply moon_old_old_way.
    + intros Hv He Hothers (name & v & p & Hsc & Hp' & Hend).
      assert (v ≤ top) by (by apply (max_value_ge (scores g) top name)).
      rewrite moon_old_lookup in Hp'.
      destruct (rp !! name) as [p0|] eqn:Hp0; [|done]. simpl in Hp'.
      assert (¬ top + moon_value (opt g) < end_ (opt g)) as Hge.
      { case_bool_decide as Hn'; inversion Hp'; subst p.
        - lia.
        - specialize (Hothers name p0 Hn' Hp0). lia. }
      rewrite (bool_decide_eq_false_2 _ Hge). apply insert_new_way.
Qed.

Lemma C4_moon_policies_witness :
  moon_value (opt (Moon.shot "old" 0 [0; 0; 0; 0])) = 26
  ∧ ∃ rs, round_scores (Moon.shot "old" 0 [0; 0; 0; 0]) = Some rs
      ∧ old_way "Ann" (moon_value (opt (Moon.shot "old" 0 [0; 0; 0; 0]))) Moon.raw rs.
Proof.
  split; [vm_compute; reflexivity|].
  destruct (C4_moon_policies (Moon.shot "old" 0 [0; 0; 0; 0]) Moon.raw "Ann")
    as (_ & rs & Hrs & Hold & _).
  - vm_compute. reflexivity.
  - vm_compute. reflexivity.
  - discriminate.
  - exists rs. split; [exact Hrs|]. apply Hold. vm_compute. reflexivity.
Defined.

(** C4 as it is worded fails under auto.  With Bob at 74 of 100 points
    the old way would bring him to 100 and no score past the threshold,
    and with the shooter at 90 points the old way would leave every score
    below it; in both rounds the new way is used. *)
Lemma C4_auto_counterexample :
  score_players Moon.at_the_end = Some (Moon.raw, "Ann")
  ∧ round_scores Moon.at_the_end
    = Some (list_to_map [("Ann", -26); ("Bob", 0); ("Cat", 0); ("Dan", 0)])
  ∧ add_scores (moon_old "Ann" 26 Moon.raw) (scores Moon.at_the_end) Table.names
    = Some (list_to_map [("Ann", 10); ("Bob", 100); ("Cat", 56); ("Dan", 46)])
  ∧ score_players Moon.shooter_ahead = Some (Moon.raw, "Ann")
  ∧ round_scores Moon.shooter_ahead
    = Some (list_to_map [("Ann", -26); ("Bob", 0); ("Cat", 0); ("Dan", 0)])
  ∧ add_scores (moon_old "Ann" 26 Moon.raw) (scores Moon.shooter_ahead) Table.names
    = Some (list_to_map [("Ann", 90); ("Bob", 36); ("Cat", 56); ("Dan", 46)])
  ∧ end_ (opt Moon.at_the_end) = 100
  ∧ end_ (opt Moon.shooter_ahead) = 100.
Proof. repeat split; vm_compute; reflexivity. Qed.

(** ** Winning no trick *)

Section NoTricks.
Context (g : Hearts) (k : Z).

(** The count of a pile does not look at the no-tricks value. *)
Lemma count_cards_ext (s s' : Settings) n pile :
  (∀ n card, count_card s n card = count_card s' n card) →
  count_cards s n pile = count_cards s' n pile.
Proof.
  intros Hc. revert n. induction pile as [|card pile IH]; intros n; simpl; [done|].
  rewrite Hc. destruct (count_card s' n card); simpl; [apply IH|done].
Qed.

Lemma count_cards_with_no_tricks n pile :
  count_cards (opt (with_no_tricks k g)) n pile = count_cards (opt g) n pile.
Proof. by apply count_cards_ext. Qed.

(** Nor does the shooter. *)
Lemma score_loop_with_no_tricks names acc acc' rp sh :
  score_loop g acc names = Some (rp, sh) → acc'.2 = acc.2 →
  ∃ rp', score_loop (with_no_tricks k g) acc' names = Some (rp', sh).
Proof.
  revert acc acc'. induction names as [|name names IH]; intros acc acc'; simpl.
  - intros [= ->] Heq. exists acc'.1. destruct acc'. simpl in *. by subst.
  - intros Hl Heq.
    destruct (score_player g acc name) as [acc1|] eqn:Hs; [|done]. simpl in Hl.
    destruct (score_player_inv g _ _ _ Hs) as (pile & n & Hp & Hn & _ & H2).
    unfold score_player at 1. simpl. rewrite Hp. simpl.
    rewrite count_cards_with_no_tricks, Hn. simpl.
    eapply IH; [done|]. simpl. rewrite H2, Heq. done.
Qed.

(** The raw points of a player that took cards are the same. *)
Lemma score_players_with_no_tricks rp sh :
  score_players g = Some (rp, sh) →
  ∃ rp', score_players (with_no_tricks k g) = Some (rp', sh)
    ∧ ∀ other pile, other ∈ players g → taken g !! other = Some pile →
        pile ≠ [] → rp' !! other = rp !! other.
Proof.
  intros Hs.
  destruct (score_loop_with_no_tricks (players g) (∅, "") (∅, "") rp sh Hs eq_refl)
    as [rp' Hs'].
  exists rp'. split; [done|]. intros other pile Hin Hp Hne.
  destruct (score_loop_lookup g _ _ _ _ _ Hs Hin) as (pile1 & n1 & Hp1 & Hn1 & ->).
  destruct (score_loop_lookup (with_no_tricks k g) _ _ _ _ _ Hs' Hin)
    as (pile2 & n2 & Hp2 & Hn2 & ->).
  simpl in Hp2. rewrite count_cards_with_no_tricks in Hn2.
  rewrite Hp in Hp1, Hp2. inversion Hp1; subst pile1. inversion Hp2; subst pile2.
  rewrite Hn1 in Hn2. inversion Hn2; subst n2.
  unfold round_entry. by rewrite !(bool_decide_eq_false_2 _ Hne).
Qed.

(** The adjustment for the moon goes player by player. *)
Lemma moon_adjust_with_no_tricks rp rp' sh rs other :
  moon_adjust g rp sh = Some rs → rp' !! other = rp !! other →
  moon_adjust (with_no_tricks k g) rp' sh ≫= (λ rs', rs' !! other) = rs !! other.
Proof.
  unfold moon_adjust. intros Hm Heq.
  case_bool_decide as Hsh.
  - inversion Hm; subst rs. simpl. done.
  - change (use_old (with_no_tricks k g)) with (use_old g).
    change (moon_value (opt (with_no_tricks k g))) with (moon_value (opt g)).
    destruct (use_old g) as [[|]|]; simpl in *; inversion Hm; subst rs; clear Hm.
    + by rewrite !moon_old_lookup, Heq.
    + destruct (decide (sh = other)) as [->|Hne].
      * by rewrite !lookup_insert_eq.
      * by rewrite !lookup_insert_ne.
Qed.
End NoTricks.

(** C8 (as the code has it).  For a player whose taken pile is empty at
    the end of the round, with a no-tricks value that is not 0: the raw
    points of the player are exactly the negative of that value, in place
    of the points of the cards; this is the round score of the player if
    nobody shot the moon or the new way is used, and the old way adds the
    moon value to it.  The round scores of the players that took cards do
    not depend on the no-tricks value. *)
Theorem C8_no_tricks (g : Hearts) (name : string) :
  scorable g = true →
  scored g = true →
  name ∈ players g →
  taken g !! name = Some [] →
  no_tricks (opt g) ≠ 0 →
  ∃ rp sh rs,
    score_players g = Some (rp, sh)
    ∧ round_scores g = Some rs
    ∧ rp !! name = Some (- no_tricks (opt g))
    ∧ (sh = "" → rs !! name = Some (- no_tricks (opt g)))
    ∧ (sh ≠ "" → sh ≠ name → use_old g = Some false →
       rs !! name = Some (- no_tricks (opt g)))
    ∧ (sh ≠ "" → sh ≠ name → use_old g = Some true →
       rs !! name = Some (- no_tricks (opt g) + moon_value (opt g)))
    ∧ (∀ k other pile, other ∈ players g → taken g !! other = Some pile →
         pile ≠ [] →
         round_scores (with_no_tricks k g) ≫= (λ rs', rs' !! other) = rs !! other).
Proof.
  intros Hg Hsc Hin Hp Hnt.
  destruct (score_players_total g Hg) as [[rp sh] Hs].
  destruct (score_loop_lookup g _ _ _ _ _ Hs Hin) as (pile & n & Hp' & Hn & Hrp).
  rewrite Hp in Hp'. inversion Hp'; subst pile; clear Hp'.
  unfold round_entry in Hrp. rewrite bool_decide_eq_true_2 in Hrp by done.
  rewrite (bool_decide_eq_false_2 _ Hnt) in Hrp. simpl in Hrp.
  destruct (use_old_total g Hsc) as [old Ho].
  assert (∃ rs, moon_adjust g rp sh = Some rs) as [rs Hrs].
  { unfold moon_adjust. rewrite Ho. simpl. repeat case_match; eauto. }
  exists rp, sh, rs. split; [done|]. split.
  { unfold round_scores. rewrite Hs. done. }
  split; [done|]. unfold moon_adjust in Hrs. rewrite Ho in Hrs. simpl in Hrs.
  split; [|split; [|split]].
  - intros ->. simpl in Hrs. by inversion Hrs; subst rs.
  - intros Hsh Hne Hf. rewrite Hf in Ho. inversion Ho; subst old.
    rewrite (bool_decide_eq_false_2 _ Hsh) in Hrs. inversion Hrs; subst rs.
    by rewrite lookup_insert_ne.
  - intros Hsh Hne Hf. rewrite Hf in Ho. inversion Ho; subst old.
    rewrite (bool_decide_eq_false_2 _ Hsh) in Hrs. inversion Hrs; subst rs.
    rewrite moon_old_lookup, Hrp. simpl.
    rewrite bool_decide_eq_false_2; [done|]. by intros ->.
  - intros k other pile Hother Hpile Hne.
    destruct (score_players_with_no_tricks g k rp sh Hs) as (rp' & Hs' & Hsame).
    unfold round_scores at 1. rewrite Hs'. simpl.
    apply (moon_adjust_with_no_tricks g k rp rp' sh rs other).
    + unfold moon_adjust. rewrite Ho. simpl. done.
    + by apply (Hsame other pile).
Qed.

Lemma C8_no_tricks_witness :
  ∃ rp sh rs,
    score_players (Moon.shot "new" 5 [0; 0; 0; 0]) = Some (rp, sh)
    ∧ round_scores (Moon.shot "new" 5 [0; 0; 0; 0]) = Some rs
    ∧ rp !! "Cat" = Some (- 5)
    ∧ rs !! "Cat" = Some (- 5).
Proof.
  destruct (C8_no_tricks (Moon.shot "new" 5 [0; 0; 0; 0]) "Cat")
    as (rp & sh & rs & Hs & Hrs & Hrp & _ & Hnew & _).
  - vm_compute. reflexivity.
  - vm_compute. reflexivity.
  - right. right. left.
  - vm_compute. reflexivity.
  - vm_compute. discriminate.
  - exists rp, sh, rs. split; [exact Hs|]. split; [exact Hrs|].
    split; [exact Hrp|].
    assert (sh = "Ann") as ->.
    { assert (score_players (Moon.shot "new" 5 [0; 0; 0; 0])
              = Some (<["Cat" := -5]> (<["Dan" := -5]> Moon.raw), "Ann")) as Hc
        by (vm_compute; reflexivity).
      rewrite Hc in Hs. by inversion Hs. }
    apply Hnew; [discriminate|discriminate|vm_compute; reflexivity].
Defined.

(** C8 as it is worded fails when another player shoots the moon under
    the old way: Cat and Dan took no trick, 5 points are to be taken off,
    and their round scores are 21. *)
Lemma C8_no_tricks_counterexample :
  taken (Moon.shot "old" 5 [0; 0; 0; 0]) !! "Cat" = Some []
  ∧ no_tricks (opt (Moon.shot "old" 5 [0; 0; 0; 0])) = 5
  ∧ round_scores (Moon.shot "old" 5 [0; 0; 0; 0])
    = Some (list_to_map [("Ann", 0); ("Bob", 26); ("Cat", 21); ("Dan", 21)])
  ∧ (score_round (Moon.shot "old" 5 [0; 0; 0; 0]) ≫= λ g, scores g !! "Cat") = Some 21.
Proof. repeat split; vm_compute; reflexivity. Qed.

(** ** Cards and their texts *)

Lemma up_text_inj (c c' : Card) : up_text c = up_text c' → c = c'.
Proof. destruct c, c'. unfold up_text. simpl. by intros [= -> ->]. Qed.

Lemma card_eqb_text (c c' : Card) : card_eqb c (up_text c') = card_eqb c c'.
Proof.
  unfold card_eqb, CardKey_text, CardKey_Card.
  apply bool_decide_ext. split; [apply up_text_inj|by intros ->].
Qed.

Lemma card_eqb_refl (c : Card) : card_eqb c c = true.
Proof. by apply bool_decide_eq_true_2. Qed.

Lemma card_eqb_eq (c c' : Card) : card_eqb c c' = true → c = c'.
Proof. apply bool_decide_eq_true_1. Qed.

Section Keys.
Context (c : Card).

Lemma contains_text hand : contains (up_text c) hand = contains c hand.
Proof.
  unfold contains. induction hand as [|c' hand IH]; simpl; [done|].
  by rewrite card_eqb_text, IH.
Qed.

Lemma contains_elem_of hand : contains c hand = true ↔ c ∈ hand.
Proof.
  unfold contains. induction hand as [|c' hand IH]; simpl.
  - split; [done|]. by inversion 1.
  - rewrite orb_true_iff, IH, elem_of_cons. split.
    + intros [->%card_eqb_eq|?]; auto.
    + intros [->|?]; [left; apply card_eqb_refl|by right].
Qed.

Lemma index_text hand : index (up_text c) hand = index c hand.
Proof.
  induction hand as [|c' hand IH]; simpl; [done|].
  by rewrite card_eqb_text, IH.
Qed.

Lemma remove_text hand : remove (up_text c) hand = remove c hand.
Proof.
  induction hand as [|c' hand IH]; simpl; [done|].
  by rewrite card_eqb_text, IH.
Qed.

(** The card found in the hand by the key is the card. *)
Lemma index_elem_of hand :
  c ∈ hand → ∃ i, index c hand = Some i ∧ hand !! i = Some c.
Proof.
  induction hand as [|c' hand IH]; [by inversion 1|]. simpl.
  destruct (card_eqb c' c) eqn:He.
  - intros _. exists 0%nat. by rewrite (card_eqb_eq _ _ He).
  - intros [->|Hin]%elem_of_cons; [by rewrite card_eqb_refl in He|].
    destruct (IH Hin) as (i & -> & Hi). by exists (S i).
Qed.

Lemma shift_card hand other :
  c ∈ hand → shift c hand other = Some (remove c hand, other ++ [c]).
Proof.
  intros (i & Hi & Hc)%index_elem_of. unfold shift. rewrite Hi. simpl.
  by rewrite Hc.
Qed.

Lemma shift_text hand other :
  c ∈ hand → shift (up_text c) hand other = Some (remove c hand, other ++ [c]).
Proof.
  intros Hin. unfold shift. rewrite index_text, remove_text.
  by apply shift_card.
Qed.
End Keys.

(** ** Leading a trick *)

Lemma filter_empty {A} (P : A → Prop) `{∀ x, Decision (P x)} (l : list A) :
  filter P l = [] ↔ ∀ x, x ∈ l → ¬ P x.
Proof.
  split.
  - intros Hf x Hin HP. by apply (filter_nil_not_elem_of P l x).
  - induction l as [|y l IH]; intros Hl; [done|].
    rewrite filter_cons_False by (apply Hl; left).
    apply IH. intros x Hin. apply Hl. by right.
Qed.

(** No card can be led when every card of the hand is a heart that may
    not lead yet or a joker that may not lead. *)
Lemma playable_nil (g : Hearts) (hand : list Card) :
  playable g hand = [] ↔
  ∀ card, card ∈ hand →
    (jokers_follow (opt g) = true ∧ is_joker card = true)
    ∨ (hearts_broken g = false ∧ is_heart card = true).
Proof.
  unfold playable.
  destruct (jokers_follow (opt g)), (hearts_broken g); simpl;
    rewrite ?filter_empty; try setoid_rewrite list_elem_of_filter.
  - split.
    + intros H card Hin. left. split; [done|].
      specialize (H card Hin). by destruct (is_joker card).
    + intros H card Hin. destruct (H card Hin) as [[_ ->]|[? _]]; done.
  - split.
    + intros H card Hin.
      destruct (is_joker card) eqn:Hj; [by left|]. right. split; [done|].
      destruct (is_heart card) eqn:Hh; [done|]. exfalso. by apply (H card).
    + intros H card [Hj Hin] Hh. destruct (H card Hin) as [[_ ?]|[_ ?]]; congruence.
  - split.
    + intros -> card Hin. by inversion Hin.
    + intros H. destruct hand as [|card ?]; [done|].
      destruct (H card) as [[? _]|[? _]]; [left|done|done].
  - split.
    + intros H card Hin. right. split; [done|].
      specialize (H card Hin). by destruct (is_heart card).
    + intros H card Hin. destruct (H card Hin) as [[? _]|[_ ->]]; done.
Qed.

Section Held.
Context (g : Hearts) (player : string) (hand : list Card) (c : Card)
        (arguments : string).
Hypothesis Hplayer : py_nth (players g) (player_index g) = Some player.
Hypothesis Hhand : hands g !! player = Some hand.
Hypothesis Hmatch : card_re_match arguments = true.
Hypothesis Hupper : upper arguments = up_text c.
Hypothesis Hphase : phase g = "trick".
Hypothesis Hheld : c ∈ hand.

(** [do_play] down to the card to play. *)
Lemma do_play_held :
  do_play arguments g
  = match trick g with
    | led :: _ =>
        if negb (bool_decide (suit c = suit led))
           && existsb (λ card, bool_decide (suit card = suit led)) hand
        then Some (g, Some FollowSuit)
        else Some (played player hand c g, None)
    | [] =>
        if is_joker c && jokers_follow (opt g)
           && negb (bool_decide (playable g hand = []))
        then Some (g, Some JokerLead)
        else if is_heart c && negb (hearts_broken g)
                && negb (bool_decide (playable g hand = []))
        then Some (g, Some HeartLead)
        else Some (played player hand c g, None)
    end.
Proof.
  unfold do_play. rewrite Hplayer. simpl. rewrite Hhand. simpl.
  rewrite Hmatch, Hupper, Hphase. simpl.
  rewrite contains_text.
  rewrite (proj2 (contains_elem_of c hand) Hheld). simpl.
  rewrite index_text.
  destruct (index_elem_of c hand Hheld) as (i & -> & Hi). simpl.
  rewrite Hi. simpl.
  unfold shift_to_trick, played.
  rewrite (shift_text c hand (trick g) Hheld), (shift_card c hand (trick g) Hheld).
  simpl. destruct (trick g); repeat case_match; done.
Qed.

End Held.

(** C6 (as the code has it).  For a play submitted while the trick is
    empty, of a card the leader holds: if the card is a heart, hearts are
    not broken and the leader holds a card that may lead, one that is no
    heart and, under jokers-follow, no joker, the play is rejected with an
    error and the game is as it was; if hearts are broken, or every other
    card of the hand is a heart or a joker that may not lead, the heart is
    accepted: it goes from the hand to the trick.  A card that is neither
    a heart nor a joker is accepted as a lead. *)
Theorem C6_heart_lead (g : Hearts) (player : string) (hand : list Card)
    (c : Card) (arguments : string) :
  py_nth (players g) (player_index g) = Some player →
  hands g !! player = Some hand →
  card_re_match arguments = true →
  upper arguments = up_text c →
  phase g = "trick" →
  c ∈ hand →
  trick g = [] →
  is_joker c = false →
  (is_heart c = true → hearts_broken g = false →
   (∃ card, card ∈ hand ∧ is_heart card = false
            ∧ (jokers_follow (opt g) = true → is_joker card = false)) →
   do_play arguments g = Some (g, Some HeartLead))
  ∧ (is_heart c = true →
     hearts_broken g = true
     ∨ (∀ card, card ∈ hand →
          is_heart card = true
          ∨ (jokers_follow (opt g) = true ∧ is_joker card = true)) →
     do_play arguments g = Some (played player hand c g, None))
  ∧ (is_heart c = false →
     do_play arguments g = Some (played player hand c g, None))
  ∧ trick (played player hand c g) = [c]
  ∧ hands (played player hand c g) !! player = Some (remove c hand).
Proof.
  intros Hplayer Hhand Hmatch Hupper Hphase Hheld Htrick Hj.
  rewrite (do_play_held g player hand c arguments Hplayer Hhand Hmatch Hupper
             Hphase Hheld).
  rewrite Htrick, Hj. simpl. repeat split.
  - intros -> -> (card & Hin & Hh & Hjoker). simpl.
    rewrite bool_decide_eq_false_2; [done|].
    rewrite playable_nil. intros Hall.
    destruct (Hall card Hin) as [[Hjf Hjc]|[_ Hhc]]; [|congruence].
    specialize (Hjoker Hjf). congruence.
  - intros -> [->|Hall]; simpl; [done|].
    destruct (hearts_broken g) eqn:Hb; simpl; [done|].
    rewrite bool_decide_eq_true_2; [done|].
    apply playable_nil. intros card Hin. rewrite Hb.
    destruct (Hall card Hin) as [?|?]; auto.
  - by intros ->.
  - unfold played. simpl. by rewrite Htrick.
  - unfold played. simpl. apply lookup_insert_eq.
Qed.

Lemma C6_heart_lead_witness :
  do_play "ah" Lead.unbroken = Some (Lead.unbroken, Some HeartLead)
  ∧ do_play "2c" Lead.unbroken
    = Some (played "Ann" [Lead.AH; Lead.C2] Lead.C2 Lead.unbroken, None)
  ∧ trick (played "Ann" [Lead.AH; Lead.C2] Lead.C2 Lead.unbroken) = [Lead.C2].
Proof.
  split; [|split].
  - apply (C6_heart_lead Lead.unbroken "Ann" [Lead.AH; Lead.C2] Lead.AH "ah");
      try (vm_compute; reflexivity).
    + left.
    + exists Lead.C2. split; [right; left|]. split; reflexivity.
  - apply (C6_heart_lead Lead.unbroken "Ann" [Lead.AH; Lead.C2] Lead.C2 "2c");
      try (vm_compute; reflexivity).
    right; left.
  - apply (C6_heart_lead Lead.unbroken "Ann" [Lead.AH; Lead.C2] Lead.C2 "2c");
      try (vm_compute; reflexivity).
    right; left.
Defined.

(** C6 as it is worded fails under jokers-follow: hearts are not broken
    and Ann holds a card that is no heart, the joker, yet her lead of the
    ace of hearts is accepted. *)
Lemma C6_heart_lead_counterexample :
  hearts_broken Lead.heart_and_joker = false
  ∧ hands Lead.heart_and_joker !! "Ann" = Some [Lead.AH; Lead.XC]
  ∧ is_heart Lead.XC = false
  ∧ (do_play "AH" Lead.heart_and_joker ≫= λ r, Some (trick r.1, hands r.1 !! "Ann", r.2))
    = Some ([Lead.AH], Some [Lead.XC], None).
Proof. repeat split; vm_compute; reflexivity. Qed.

(** C10.  With the option jokers-follow, hearts not broken and a hand of
    the leader in which every card is a heart or a joker, the cards that
    may lead, the hand without its jokers and its hearts, are none, and
    [do_play] accepts the lead of any card of the hand, heart or joker. *)
Theorem C10_hearts_and_jokers (g : Hearts) (player : string) (hand : list Card)
    (c : Card) (arguments : string) :
  py_nth (players g) (player_index g) = Some player →
  hands g !! player = Some hand →
  card_re_match arguments = true →
  upper arguments = up_text c →
  phase g = "trick" →
  c ∈ hand →
  trick g = [] →
  jokers_follow (opt g) = true →
  hearts_broken g = false →
  (∀ card, card ∈ hand → is_heart card = true ∨ is_joker card = true) →
  playable g hand = []
  ∧ do_play arguments g = Some (played player hand c g, None)
  ∧ trick (played player hand c g) = [c]
  ∧ hands (played player hand c g) !! player = Some (remove c hand).
Proof.
  intros Hplayer Hhand Hmatch Hupper Hphase Hheld Htrick Hjf Hb Hall.
  assert (playable g hand = []) as Hnil.
  { apply playable_nil. intros card Hin. rewrite Hjf, Hb.
    destruct (Hall card Hin); auto. }
  split; [done|].
  rewrite (do_play_held g player hand c arguments Hplayer Hhand Hmatch Hupper
             Hphase Hheld).
  rewrite Htrick, Hnil. simpl. rewrite !andb_false_r. repeat split.
  - unfold played. simpl. by rewrite Htrick.
  - unfold played. simpl. apply lookup_insert_eq.
Qed.

Lemma C10_hearts_and_jokers_witness :
  do_play "xc" Lead.heart_and_joker
  = Some (played "Ann" [Lead.AH; Lead.XC] Lead.XC Lead.heart_and_joker, None)
  ∧ do_play "ah" Lead.heart_and_joker
    = Some (played "Ann" [Lead.AH; Lead.XC] Lead.AH Lead.heart_and_joker, None).
Proof.
  split.
  - apply (C10_hearts_and_jokers Lead.heart_and_joker "Ann" [Lead.AH; Lead.XC]
             Lead.XC "xc"); try (vm_compute; reflexivity).
    + right; left.
    + intros card [->|[->|[]%elem_of_nil]%elem_of_cons]%elem_of_cons;
        [left|right]; reflexivity.
  - apply (C10_hearts_and_jokers Lead.heart_and_joker "Ann" [Lead.AH; Lead.XC]
             Lead.AH "ah"); try (vm_compute; reflexivity).
    + left.
    + intros card [->|[->|[]%elem_of_nil]%elem_of_cons]%elem_of_cons;
        [left|right]; reflexivity.
Defined.

(** ** Sorting by a key *)

Section Sorting.
Context {A : Type} (key : A → Z).

Let le_key (a b : A) : Prop := key a ≤ key b.

Lemma insert_by_elem_of {K} (ltb : K → K → bool) (k : A → K) x y l :
  y ∈ insert_by ltb k x l ↔ y = x ∨ y ∈ l.
Proof.
  induction l as [|z l IH]; simpl.
  - rewrite list_elem_of_singleton, elem_of_nil. tauto.
  - case_match; rewrite !elem_of_cons; [rewrite IH|]; tauto.
Qed.

Lemma sorted_by_elem_of {K} (ltb : K → K → bool) (k : A → K) y l :
  y ∈ sorted_by ltb k l ↔ y ∈ l.
Proof.
  unfold sorted_by. induction l as [|z l IH]; simpl; [done|].
  rewrite insert_by_elem_of, IH, elem_of_cons. tauto.
Qed.

Lemma insert_by_sorted x l :
  StronglySorted le_key l → StronglySorted le_key (insert_by Z.ltb key x l).
Proof.
  induction 1 as [|y l Hs IH Hy]; simpl.
  - repeat constructor.
  - destruct (Z.ltb_spec (key y) (key x)) as [Hlt|Hge].
    + constructor; [done|]. apply Forall_forall. intros z Hz.
      apply insert_by_elem_of in Hz as [->|Hz]; [unfold le_key; lia|].
      rewrite Forall_forall in Hy. by apply Hy.
    + constructor; [by constructor|]. constructor; [done|].
      apply Forall_forall. intros z Hz. rewrite Forall_forall in Hy.
      specialize (Hy z Hz). unfold le_key in *. lia.
Qed.

Lemma sorted_by_sorted l : StronglySorted le_key (sorted_by Z.ltb key l).
Proof.
  unfold sorted_by. induction l as [|x l IH]; simpl; [constructor|].
  by apply insert_by_sorted.
Qed.

Lemma last_elem_of (l : list A) w : last l = Some w → w ∈ l.
Proof.
  induction l as [|x [|y l] IH]; simpl; [done| |].
  - intros [= ->]. left.
  - intros Hl. right. by apply IH.
Qed.

Lemma sorted_last_max l w :
  StronglySorted le_key l → last l = Some w → ∀ x, x ∈ l → key x ≤ key w.
Proof.
  induction 1 as [|y l Hs IH Hy]; [done|]. intros Hl x Hx.
  destruct l as [|z l]; simpl in Hl.
  - inversion Hl; subst. apply list_elem_of_singleton in Hx as ->. lia.
  - apply elem_of_cons in Hx as [->|Hx]; [|by apply IH].
    rewrite Forall_forall in Hy. apply (Hy w). by apply last_elem_of.
Qed.

(** The last of the sorted list is a greatest element of the list. *)
Lemma sorted_by_last l w :
  last (sorted_by Z.ltb key l) = Some w →
  w ∈ l ∧ ∀ x, x ∈ l → key x ≤ key w.
Proof.
  intros Hl. split.
  - apply (sorted_by_elem_of Z.ltb key). by apply last_elem_of.
  - intros x Hx. apply (sorted_last_max _ _ (sorted_by_sorted l) Hl).
    by apply sorted_by_elem_of.
Qed.

Lemma sorted_by_last_total l x :
  x ∈ l → is_Some (last (sorted_by Z.ltb key l)).
Proof.
  intros Hx. apply (sorted_by_elem_of Z.ltb key) in Hx.
  destruct (sorted_by Z.ltb key l) as [|y l']; [by inversion Hx|].
  rewrite last_cons. destruct (last l'); eauto.
Qed.
End Sorting.

(** ** The winner of a trick *)

(** The winning card is a card of the trick, of the suit led, and no card
    of the suit led has a higher rank. *)
Lemma winning_card_spec (led : Card) (rest : list Card) (w : Card) :
  winning_card (led :: rest) = Some w →
  w ∈ led :: rest ∧ suit w = suit led
  ∧ ∀ card, card ∈ led :: rest → suit card = suit led → rank_num card ≤ rank_num w.
Proof.
  unfold winning_card, py_last. simpl.
  intros [Hw Hmax]%sorted_by_last.
  apply list_elem_of_filter in Hw as [Hs Hw]. repeat split; try done.
  intros card Hin Hsuit. apply Hmax. by apply list_elem_of_filter.
Qed.

Lemma winning_card_total (led : Card) (rest : list Card) :
  is_Some (winning_card (led :: rest)).
Proof.
  unfold winning_card, py_last. simpl.
  apply (sorted_by_last_total rank_num _ led).
  apply list_elem_of_filter. split; [done|left].
Qed.

Lemma py_nth_seat {A} (l : list A) (i : Z) :
  0 ≤ i < Z.of_nat (length l) → py_nth l i = l !! Z.to_nat i ∧ is_Some (l !! Z.to_nat i).
Proof.
  intros Hi. unfold py_nth. rewrite bool_decide_eq_true_2 by lia.
  split; [done|]. apply lookup_lt_is_Some. lia.
Qed.

Lemma piled_lookup (g : Hearts) (name : string) :
  piled g = true → name ∈ players g → is_Some (taken g !! name).
Proof.
  unfold piled. rewrite forallb_forall. intros Hall Hin.
  eapply bool_decide_eq_true_1, Hall. by apply list_elem_of_In.
Qed.

(** The blocks of the kitty and of the breaking of hearts, and the trick
    cleared. *)
Lemma take_trick_body (seat : Z) (winner : string) (pile : list Card) (g : Hearts) :
  (g' ← handle_kitty winner (with_taken (<[winner := pile ++ trick g]> (taken g)) g);
   Some (seat, with_trick [] (check_breaking g')))
  = Some (seat, taken_by winner pile g).
Proof.
  destruct g as [o ps h d pi dc hs tk tr hb ph tks sc tp pt].
  unfold handle_kitty, taken_by, awarded, check_breaking, has_breaker, kitty_win,
    with_taken, with_trick, with_deck_cards, with_hearts_broken.
  cbn [opt players human dealer player_index deck_cards hands taken trick
       hearts_broken phase tricks scores this_pass pass_to].
  destruct (negb (bool_decide (dc = [])) && _).
  - rewrite lookup_insert_eq. cbn [mbind option_bind].
    cbn [opt players human dealer player_index deck_cards hands taken trick
         hearts_broken phase tricks scores this_pass pass_to].
    rewrite insert_insert_eq, <- app_assoc.
    destruct hb, (bool_decide (breakers o ∩ list_to_set tr = ∅)); reflexivity.
  - cbn [mbind option_bind].
    cbn [opt players human dealer player_index deck_cards hands taken trick
         hearts_broken phase tricks scores this_pass pass_to].
    rewrite app_nil_r.
    destruct hb, (bool_decide (breakers o ∩ list_to_set tr = ∅)); reflexivity.
Qed.

(** What [take_trick] does to a game with a trick. *)
Lemma take_trick_spec (g : Hearts) (led : Card) (rest : list Card) :
  trick g = led :: rest → players g ≠ [] → piled g = true →
  ∃ w i winner pile,
    winning_card (trick g) = Some w
    ∧ index w (trick g) = Some i
    ∧ trick g !! i = Some w
    ∧ players g !! Z.to_nat ((player_index g + 1 + Z.of_nat i)
                             `mod` Z.of_nat (length (players g))) = Some winner
    ∧ taken g !! winner = Some pile
    ∧ take_trick g
      = Some ((player_index g + 1 + Z.of_nat i) `mod` Z.of_nat (length (players g)),
              taken_by winner pile g).
Proof.
  intros Htrick Hplayers Hpiled.
  destruct (winning_card_total led rest) as [w Hw]. rewrite <- Htrick in Hw.
  assert (w ∈ trick g) as Hin.
  { rewrite Htrick in Hw |- *. by apply winning_card_spec in Hw as [? _]. }
  destruct (index_elem_of w (trick g) Hin) as (i & Hi & Hti).
  set (seat := (player_index g + 1 + Z.of_nat i) `mod` Z.of_nat (length (players g))).
  assert (0 ≤ seat < Z.of_nat (length (players g))) as Hseat.
  { apply Z.mod_pos_bound. destruct (players g); [done|]. simpl. lia. }
  destruct (py_nth_seat (players g) seat Hseat) as [Hnth [winner Hwinner]].
  assert (winner ∈ players g) as Hwin by (by eapply list_elem_of_lookup_2).
  destruct (piled_lookup g winner Hpiled Hwin) as [pile Hpile].
  exists w, i, winner, pile. repeat split; try done.
  unfold take_trick, winner_index. rewrite Hw. simpl. rewrite Hi. simpl.
  rewrite (bool_decide_eq_false_2 _ Hplayers). simpl.
  fold seat. rewrite Hnth, Hwinner. simpl. rewrite Hpile.
  exact (take_trick_body seat winner pile g).
Qed.

(** ** What the steps of a round change *)


Lemma take_trick_inv (g g' : Hearts) (seat : Z) :
  take_trick g = Some (seat, g') →
  ∃ winner pile, taken g !! winner = Some pile ∧ g' = taken_by winner pile g.
Proof.
  unfold take_trick. intros Ht.
  destruct (winner_index g) as [seat'|]; [|done]. simpl in Ht.
  destruct (py_nth (players g) seat') as [winner|]; [|done]. simpl in Ht.
  destruct (taken g !! winner) as [pile|] eqn:Hp; [|done].
  exists winner, pile. split; [done|].
  assert (Some (seat, g') = Some (seat', taken_by winner pile g)) as Heq.
  { rewrite <- Ht. exact (take_trick_body seat' winner pile g). }
  by injection Heq as _ ->.
Qed.


Lemma set_pass_inv (next_dir : string) (g g' : Hearts) :
  set_pass next_dir g = Some g' →
  ∃ phase' pass_to',
    g' = with_pass_to pass_to' (with_this_pass next_dir (with_phase phase' g)).
Proof.
  unfold set_pass. intros Hs.
  repeat (case_match; simplify_option_eq); eauto.
  exists "trick", (pass_to g). by destruct g.
Qed.

Lemma pass_cards_inv (shuffle : list Card → list Card) (t t' : Passing) :
  pass_cards shuffle t = Some t' →
  ∃ hands' passes',
    t' = mkPassing (with_hands hands' (base t)) (keep_spades t) (low_club t)
           (num_pass t) passes'.
Proof.
  unfold pass_cards. intros Hp.
  destruct (if bool_decide (this_pass (base t) = "center") then _ else _)
    as [[hands' passes']|]; [|done].
  simpl in Hp. destruct (hands' !! human (base t)); [|done]. simpl in Hp.
  inversion Hp. eauto.
Qed.



(** A round in which cards are passed is such a course: the pass is set
    to the left, the last of the players to pass names a card, and the
    cards are passed. *)
Lemma round_with_a_pass :
  ∃ g t',
    set_pass "left" g = Some (base (Pass.asked false None Pass.last))
    ∧ do_pass id "ah" (Pass.asked false None Pass.last) = Some (t', [])
    ∧ phase (base t') = "trick"
    ∧ chain round_step g [base (Pass.asked false None Pass.last); base t'].
Proof.
  set (g := with_hands (list_to_map (zip Table.names Pass.last.1)) seats4).
  assert (∃ g', set_pass "left" g = Some g') as [g' Hs]
    by (vm_compute; eexists; reflexivity).
  assert (base (Pass.asked false None Pass.last) = g') as Hb.
  { change (base (Pass.asked false None Pass.last))
      with (default seats4 (set_pass "left" g)).
    by rewrite Hs. }
  assert (∃ t', do_pass id "ah" (Pass.asked false None Pass.last) = Some (t', []))
    as [t' Hd] by (vm_compute; eexists; reflexivity).
  assert (do_pass id "ah" (Pass.asked false None Pass.last)
          ≫= (λ r, Some (phase (base r.1))) = Some "trick") as Hphase
    by (vm_compute; reflexivity).
  rewrite Hd in Hphase. simpl in Hphase. injection Hphase as Hphase.
  exists g, t'. split; [by rewrite Hb|]. split; [exact Hd|]. split; [exact Hphase|].
  split; [rewrite Hb; by apply (step_pass "left")|]. split; [|exact I].
  by apply (step_do_pass id "ah" _ _ []).
Qed.



Lemma deal_inv (shuffled : list Card) (g g' : Hearts) :
  deal shuffled g = Some g' →
  hearts_broken g' = negb (break_hearts (opt g) || all_break (opt g))
  ∧ opt g' = opt g ∧ players g' = players g ∧ trick g' = trick g.
Proof.
  unfold deal. intros Hd.
  destruct (list_index (dealer g) (players g)); [|done]. simpl in Hd.
  case_bool_decide; [done|].
  destruct (deal_cycle _ _ _ _ _ _) as [[pile hands']|]; [|done]. simpl in Hd.
  destruct (players g !! _); [|done]. simpl in Hd.
  by inversion Hd.
Qed.

(** ** The deal gives every player a hand *)

Lemma mod_succ (k n : nat) :
  n ≠ 0%nat →
  (S k mod n = if decide (k mod n = n - 1) then 0 else S (k mod n))%nat.
Proof.
  intros Hn. pose proof (Nat.mod_upper_bound k n Hn) as Hlt.
  pose proof (Nat.div_mod_eq k n) as Hk.
  case_decide as He.
  - symmetry. apply (Nat.mod_unique (S k) n (S (k / n)) 0); lia.
  - symmetry. apply (Nat.mod_unique (S k) n (k / n) (S (k mod n))); lia.
Qed.

Lemma index_from_lookup {A} `{EqDecision A} (m : nat) (x : A) (l : list A) (i : nat) :
  index_from m x l = Some i → (m ≤ i)%nat ∧ l !! (i - m)%nat = Some x.
Proof.
  revert m. induction l as [|y l IH]; intros m; simpl; [done|].
  case_decide as He.
  - intros [= <-]. subst. split; [lia|]. by rewrite Nat.sub_diag.
  - intros [Hle Hl]%IH. split; [lia|].
    replace (i - m)%nat with (S (i - S m)) by lia. done.
Qed.

Lemma index_from_total {A} `{EqDecision A} (m : nat) (x : A) (l : list A) :
  x ∈ l → is_Some (index_from m x l).
Proof.
  revert m. induction l as [|y l IH]; intros m; [by inversion 1|]. simpl.
  case_decide; [eauto|]. intros [?|?]%elem_of_cons; [done|by apply IH].
Qed.

(** The loop of the deal ends well when the deck has a card for every
    player that is still to draw before the dealer, the last of the
    cycle. *)
Lemma deal_cycle_total (dealer : string) (cycle : list string) (pile : list Card) :
  cycle !! (length cycle - 1)%nat = Some dealer →
  ∀ (k : nat) (hands : gmap string (list Card)),
    (∀ player, player ∈ cycle → is_Some (hands !! player)) →
    (length cycle - k mod length cycle ≤ length pile)%nat →
    is_Some (deal_cycle dealer (length cycle) cycle k pile hands).
Proof.
  intros Hdealer.
  assert (length cycle ≠ 0%nat) as Hn by (destruct cycle; done).
  induction pile as [|card pile IH]; intros k hands Hhands Hlen; simpl.
  - pose proof (Nat.mod_upper_bound k _ Hn). simpl in Hlen. lia.
  - pose proof (Nat.mod_upper_bound k _ Hn) as Hk.
    destruct (lookup_lt_is_Some_2 cycle (k mod length cycle) Hk) as [player Hp].
    rewrite Hp. simpl.
    destruct (Hhands player) as [hand Hh]; [by eapply list_elem_of_lookup_2|].
    rewrite Hh. simpl.
    destruct (bool_decide (player = dealer) && bool_decide (length pile < length cycle)%nat)
      eqn:Hstop; [eauto|].
    apply IH.
    + intros player' Hin. destruct (decide (player' = player)) as [->|Hne].
      * rewrite lookup_insert_eq. eauto.
      * rewrite lookup_insert_ne by done. by apply Hhands.
    + rewrite (mod_succ k _ Hn). simpl in Hlen.
      destruct (decide (k mod length cycle = length cycle - 1)%nat) as [He|He];
        [|lia].
      rewrite He, Hdealer in Hp. inversion Hp; subst player.
      rewrite bool_decide_eq_true_2 in Hstop by done. simpl in Hstop.
      apply bool_decide_eq_false in Hstop. lia.
Qed.

Lemma rotate_left_last {A} (l : list A) (i : nat) (x : A) :
  l !! i = Some x →
  rotate_left ((i + 1) mod length l) l !! (length l - 1)%nat = Some x
  ∧ length (rotate_left ((i + 1) mod length l) l) = length l.
Proof.
  intros Hi. pose proof (lookup_lt_Some _ _ _ Hi) as Hlt.
  unfold rotate_left. split.
  - destruct (decide (i + 1 = length l)%nat) as [He|Hne].
    + rewrite He, Nat.Div0.mod_same. simpl. rewrite app_nil_r.
      rewrite <- Hi. f_equal. lia.
    + rewrite Nat.mod_small by lia.
      rewrite lookup_app_r by (rewrite length_drop; lia).
      rewrite length_drop, lookup_take_lt by lia.
      rewrite <- Hi. f_equal. lia.
  - rewrite length_app, length_drop, length_take.
    pose proof (Nat.mod_upper_bound (i + 1) (length l)). lia.
Qed.

(** The deal gives a game when the dealer is a player, every player has a
    hand and the deck has a card for each of them. *)
Lemma deal_total (shuffled : list Card) (g : Hearts) :
  dealer g ∈ players g →
  (∀ player, player ∈ players g → is_Some (hands g !! player)) →
  (length (players g) ≤ length shuffled)%nat →
  is_Some (deal shuffled g).
Proof.
  intros Hd Hh Hlen. unfold deal, list_index.
  destruct (index_from_total 0 (dealer g) (players g) Hd) as [i Hi].
  rewrite Hi. simpl.
  apply index_from_lookup in Hi as [_ Hi]. rewrite Nat.sub_0_r in Hi.
  pose proof (lookup_lt_Some _ _ _ Hi) as Hlt.
  rewrite bool_decide_eq_false_2 by lia.
  destruct (rotate_left_last (players g) i (dealer g) Hi) as [Hlast Hl].
  set (cycle := rotate_left ((i + 1) mod length (players g)) (players g)) in *.
  destruct (deal_cycle_total (dealer g) cycle (reverse shuffled)) with (k := 0%nat)
    (hands := hands g) as [[pile hands'] Hc].
  - by rewrite Hl.
  - intros player Hin. apply Hh. unfold cycle, rotate_left in Hin.
    apply elem_of_app in Hin as [Hin|Hin].
    + by apply (subseteq_drop _ _ _ Hin).
    + by apply (subseteq_take _ _ _ Hin).
  - rewrite length_reverse, Hl, Nat.Div0.mod_0_l. lia.
  - rewrite Hl in Hc. rewrite Hc. simpl.
    destruct (lookup_lt_is_Some_2 (players g) ((i + 1) mod length (players g)))
      as [dealer' ->]; [apply Nat.mod_upper_bound; lia|]. simpl. eauto.
Qed.

(** ** The flag of the broken hearts *)




(** ** The kitty *)





(** ** Breaking hearts *)

Lemma has_breaker_spec (g : Hearts) :
  has_breaker g = true ↔ ∃ card, card ∈ trick g ∧ card ∈ breakers (opt g).
Proof.
  unfold has_breaker. rewrite negb_true_iff, bool_decide_eq_false. split.
  - intros Hne. apply set_choose_L in Hne as [card Hc].
    apply elem_of_intersection in Hc as [Hb Ht].
    apply elem_of_list_to_set in Ht. eauto.
  - intros (card & Ht & Hb) He.
    assert (card ∈ breakers (opt g) ∩ list_to_set (trick g)) as Hin.
    { apply elem_of_intersection. split; [done|]. by apply elem_of_list_to_set. }
    rewrite He in Hin. by apply not_elem_of_empty in Hin.
Qed.

(** The breakers that [handle_opt_score] sets: the hearts of the deck,
    the queen of spades under all-break, and the jokers of the deck under
    all-break if jokers score. *)
Lemma handle_opt_score_breakers (heart_score bonus_text : string)
    (deck : list Card) (s s' : Settings) (card : Card) :
  handle_opt_score heart_score bonus_text deck s = Some s' →
  card ∈ breakers s' ↔
    (card ∈ deck ∧ is_heart card = true)
    ∨ (all_break s = true ∧ card = QS)
    ∨ (all_break s = true ∧ joker_points s = true
       ∧ card ∈ deck ∧ is_joker card = true).
Proof.
  unfold handle_opt_score. intros Hs.
  destruct (heart_points_for heart_score) as [points|]; [|done]. simpl in Hs.
  destruct (if bool_decide (bonus_text = "") then _ else _) as [[bonus' max2]|];
    [|done].
  inversion Hs; subst s'; clear Hs. simpl.
  destruct (all_break s), (joker_points s); simpl;
    rewrite ?elem_of_union, ?elem_of_list_to_set, ?list_elem_of_filter,
      ?elem_of_singleton; intuition congruence.
Qed.

(** C9.  When a trick is taken, [hearts_broken], if it was false, becomes
    true exactly when a card of the trick is among the breakers, and if it
    was true it stays true.  The breakers are the hearts of the deck, with
    the queen of spades under all-break and, if jokers score, the jokers
    of the deck under all-break. *)
Theorem C9_breaking_hearts (heart_score bonus_text : string) (deck : list Card)
    (s : Settings) (g : Hearts) (led : Card) (rest : list Card) :
  handle_opt_score heart_score bonus_text deck s = Some (opt g) →
  trick g = led :: rest →
  players g ≠ [] →
  piled g = true →
  (∀ card, card ∈ breakers (opt g) ↔
     (card ∈ deck ∧ is_heart card = true)
     ∨ (all_break s = true ∧ card = QS)
     ∨ (all_break s = true ∧ joker_points s = true
        ∧ card ∈ deck ∧ is_joker card = true))
  ∧ ∃ seat g',
      take_trick g = Some (seat, g')
      ∧ (hearts_broken g = false →
         (hearts_broken g' = true
          ↔ ∃ card, card ∈ trick g ∧ card ∈ breakers (opt g)))
      ∧ (hearts_broken g = true → hearts_broken g' = true).
Proof.
  intros Hs Htrick Hplayers Hpiled. split.
  { intros card. by apply (handle_opt_score_breakers heart_score bonus_text). }
  destruct (take_trick_spec g led rest Htrick Hplayers Hpiled)
    as (w & i & winner & pile & _ & _ & _ & _ & _ & Htake).
  eexists _, _. split; [exact Htake|]. unfold taken_by. simpl. split.
  - intros ->. simpl. apply has_breaker_spec.
  - by intros ->.
Qed.

Lemma C9_breaking_hearts_witness :
  ∃ seat g',
    take_trick Round.middle = Some (seat, g')
    ∧ hearts_broken Round.middle = false
    ∧ hearts_broken g' = true.
Proof.
  destruct (C9_breaking_hearts "one" "" standard_deck
              (mkSettings false true false false None 100 "" ∅ 13 0 "old" 0 ∅)
              Round.middle (mkCard "5" "H") (Table.cards_of ["KH"; "2H"; "QS"]))
    as (Hb & seat & g' & Htake & Hrise & _).
  - vm_compute. reflexivity.
  - vm_compute. reflexivity.
  - discriminate.
  - vm_compute. reflexivity.
  - exists seat, g'. split; [exact Htake|]. split; [reflexivity|].
    apply Hrise; [reflexivity|].
    exists (mkCard "5" "H"). split; [left|].
    apply Hb. left. split; [|reflexivity].
    apply (bool_decide_unpack _). vm_compute. exact I.
Defined.

(** ** The plays of a trick *)

Lemma index_inv `{CardKey K} (k : K) (hand : list Card) (i : nat) :
  index k hand = Some i → ∃ c, hand !! i = Some c ∧ card_eqb c k = true.
Proof.
  revert i. induction hand as [|c hand IH]; intros i; simpl; [done|].
  destruct (card_eqb c k) eqn:He.
  - intros [= <-]. eauto.
  - destruct (index k hand) as [j|]; [|done]. simpl. intros [= <-].
    by apply IH.
Qed.

(** A play that [do_play] accepts moves a card of the hand of the player
    whose turn it is to the end of the trick. *)
Lemma do_play_accepted (move : string) (g g1 : Hearts) :
  do_play move g = Some (g1, None) →
  ∃ player hand c,
    py_nth (players g) (player_index g) = Some player
    ∧ hands g !! player = Some hand
    ∧ c ∈ hand
    ∧ up_text c = upper move
    ∧ g1 = played player hand c g.
Proof.
  unfold do_play. intros Hd.
  destruct (py_nth (players g) (player_index g)) as [player|] eqn:Hplayer;
    [|done].
  simpl in Hd. destruct (hands g !! player) as [hand|] eqn:Hhand; [|done].
  simpl in Hd. destruct (card_re_match move); [|done]. simpl in Hd.
  destruct (bool_decide (phase g = "trick")); [|done]. simpl in Hd.
  destruct (contains (upper move) hand); [|done]. simpl in Hd.
  destruct (index (upper move) hand) as [i|] eqn:Hi; [|done]. simpl in Hd.
  destruct (index_inv _ _ _ Hi) as (c & Hc & He). rewrite Hc in Hd. simpl in Hd.
  apply bool_decide_eq_true_1 in He.
  assert (c ∈ hand) as Hin by (by eapply list_elem_of_lookup_2).
  exists player, hand, c. repeat split; try done.
  unfold shift_to_trick in Hd. rewrite <- He in Hd.
  rewrite (shift_text c hand (trick g) Hin), (shift_card c hand (trick g) Hin) in Hd.
  simpl in Hd. unfold played.
  destruct (trick g) eqn:Ht; repeat case_match; by inversion Hd.
Qed.

(** The trick, once full, is resolved by [trick_winner] on the game as it
    is after the play. *)
Lemma play_card_full (shuffles : Z → list Card) (dirs : Z → string)
    (move : string) (g g1 : Hearts) :
  do_play move g = Some (g1, None) →
  length (trick g1) = length (players g1) →
  play_card shuffles dirs move g
  = (λ g', (g', false)) <$>
      trick_winner (shuffles (tricks g1 + 1)) (dirs (tricks g1 + 1))
                   (with_tricks (tricks g1 + 1) g1).
Proof.
  intros Hd Hl. unfold play_card. rewrite Hd. simpl.
  rewrite (bool_decide_eq_true_2 _ Hl). simpl.
  by destruct (trick_winner _ _ _).
Qed.

Section PlayTrick.
Let seats (g : Hearts) : Z := Z.of_nat (length (players g)).

(** The plays of a trick are made by the seats in their order from the
    seat of the first play, each adds its card to the trick, and
    nothing else changes but the hands. *)
Lemma play_trick_spec (moves : list string) (g g1 : Hearts) (plays : list (Z * Card)) :
  play_trick moves g = Some (g1, plays) →
  0 ≤ player_index g < seats g →
  trick g1 = trick g ++ plays.*2
  ∧ length plays = length moves
  ∧ opt g1 = opt g ∧ players g1 = players g ∧ human g1 = human g
  ∧ taken g1 = taken g ∧ deck_cards g1 = deck_cards g
  ∧ hearts_broken g1 = hearts_broken g ∧ scores g1 = scores g
  ∧ (∀ i seat c, plays !! i = Some (seat, c) →
       seat = (player_index g + Z.of_nat i) `mod` seats g)
  ∧ (moves ≠ [] →
     player_index g1
     = (player_index g + Z.of_nat (length moves) - 1) `mod` seats g).
Proof.
  revert g plays. induction moves as [|move moves IH]; intros g plays; simpl.
  - intros [= <- <-] Hpi. simpl. rewrite app_nil_r.
    repeat split; try done; intros i seat c Hi; by rewrite lookup_nil in Hi.
  - intros Hp Hpi.
    destruct (do_play move g) as [[g' err]|] eqn:Hd; [|done]. simpl in Hp.
    destruct err as [e|]; [by rewrite bool_decide_eq_true_2 in Hp by eauto|].
    rewrite bool_decide_eq_false_2 in Hp by (by intros [? ?]).
    destruct (do_play_accepted _ _ _ Hd) as (player & hand & c & _ & _ & _ & _ & ->).
    unfold played in Hp. simpl in Hp. rewrite last_snoc in Hp. simpl in Hp.
    fold (played player hand c g) in Hp.
    destruct moves as [|move' moves].
    + inversion Hp; subst g1 plays; clear Hp. simpl.
      repeat split; try done.
      * intros [|i] seat c' Hi; simpl in Hi; [|by rewrite lookup_nil in Hi].
        inversion Hi; subst. rewrite Z.add_0_r, Z.mod_small; [done|].
        exact Hpi.
      * intros _. rewrite Z.mod_small; [lia|]. unfold seats in *. lia.
    + destruct (play_trick (move' :: moves) (next_player (played player hand c g)))
        as [[g2 plays']|] eqn:Hrest; [|done].
      simpl in Hp. inversion Hp; subst g1 plays; clear Hp.
      assert (0 < seats g) as Hn by lia.
      apply IH in Hrest as (Ht & Hl & Ho & Hpl & Hh & Hta & Hde & Hb & Hsc & Hseat & Hlast).
      2:{ unfold next_player, seats. simpl. apply Z.mod_pos_bound.
          unfold seats in Hn. lia. }
      unfold next_player, played, seats in *. simpl in *.
      repeat split; try done.
      * by rewrite Ht, <- app_assoc.
      * by rewrite Hl.
      * intros [|i] seat c' Hi; simpl in Hi.
        { inversion Hi; subst. rewrite Z.add_0_r, Z.mod_small; [done|lia]. }
        rewrite (Hseat i seat c' Hi). rewrite Zplus_mod_idemp_l. f_equal. lia.
      * intros _. rewrite Hlast by done.
        rewrite <- Z.add_sub_assoc, Zplus_mod_idemp_l. f_equal. lia.
Qed.
End PlayTrick.

(** While the human holds a card the round goes on, and [trick_winner]
    gives the lead to the winner. *)
Lemma trick_winner_goes_on (shuffled : list Card) (next_dir : string)
    (g g2 : Hearts) (seat : Z) (hand : list Card) :
  take_trick g = Some (seat, g2) →
  hands g2 !! human g2 = Some hand → hand ≠ [] →
  trick_winner shuffled next_dir g = Some (with_player_index (seat - 1) g2).
Proof.
  intros Ht Hh Hne. unfold trick_winner. rewrite Ht. simpl. rewrite Hh. simpl.
  by rewrite (bool_decide_eq_false_2 _ Hne).
Qed.

(** [trick_winner] is made of the steps of a round, and at the end of a
    round that does not end the game, of the deal and the pass of the
    next one. *)
Lemma trick_winner_steps (shuffled : list Card) (next_dir : string) (g g' : Hearts) :
  trick_winner shuffled next_dir g = Some g' →
  ∃ seat g1,
    take_trick g = Some (seat, g1)
    ∧ (chain round_step g [g1; g']
       ∨ ∃ g2, chain round_step g [g1; g2]
               ∧ (g' = g2
                  ∨ ∃ g3, deal shuffled (discard_taken g2) = Some g3
                          ∧ chain round_step g3 [g'])).
Proof.
  unfold trick_winner. intros Ht.
  destruct (take_trick g) as [[seat g1]|] eqn:Htake; [|done]. simpl in Ht.
  exists seat, g1. split; [done|].
  destruct (hands g1 !! human g1) as [hand|]; [|done]. simpl in Ht.
  case_bool_decide.
  - right. destruct (score_round g1) as [g2|] eqn:Hs; [|done]. simpl in Ht.
    exists g2. split.
    { repeat split; [by eapply step_take|by apply step_score]. }
    destruct (max_value (scores g2)); [|done]. simpl in Ht.
    case_bool_decide; [|left; by inversion Ht].
    right. destruct (deal shuffled (discard_taken g2)) as [g3|]; [|done].
    simpl in Ht. exists g3. split; [done|]. split; [|done].
    by apply (step_pass next_dir).
  - left. inversion Ht; subst g'.
    repeat split; [by eapply step_take|apply step_lead].
Qed.

(** ** The winner of a trick and the next lead *)

(** C5 (as the code has it).  For a trick completed by the plays of all
    the players in their order: the winning card is a card of the suit
    led than which no card of the suit led ranks higher (a card of
    another suit never wins); the winner is the seat that played it, and
    all the cards of the trick go to the end of the winner's taken pile
    (followed by the kitty, if it is won); and while the round goes on,
    the human still holding a card, that seat is the next to play: it
    leads the next trick. *)
Theorem C5_trick_winner (g g1 : Hearts) (moves : list string)
    (plays : list (Z * Card)) :
  trick g = [] →
  players g ≠ [] →
  0 ≤ player_index g < Z.of_nat (length (players g)) →
  piled g = true →
  length moves = length (players g) →
  play_trick moves g = Some (g1, plays) →
  ∃ led rest w i seat winner pile g2,
    trick g1 = plays.*2
    ∧ trick g1 = led :: rest
    ∧ winning_card (trick g1) = Some w
    ∧ suit w = suit led
    ∧ (∀ card, card ∈ trick g1 → suit card = suit led →
         rank_num card ≤ rank_num w)
    ∧ plays !! i = Some (seat, w)
    ∧ players g !! Z.to_nat seat = Some winner
    ∧ taken g !! winner = Some pile
    ∧ take_trick g1 = Some (seat, g2)
    ∧ taken g2 !! winner
      = Some (pile ++ trick g1 ++ (if awarded g1 then deck_cards g1 else []))
    ∧ trick g2 = []
    ∧ (∀ hand shuffled next_dir,
         hands g2 !! human g2 = Some hand → hand ≠ [] →
         ∃ g3, trick_winner shuffled next_dir g1 = Some g3
               ∧ player_index (next_player g3) = seat
               ∧ taken g3 = taken g2).
Proof.
  intros Htrick Hplayers Hpi Hpiled Hlen Hplay.
  destruct (play_trick_spec moves g g1 plays Hplay Hpi)
    as (Ht & Hl & Ho & Hpl & Hh & Hta & Hde & Hb & Hsc & Hseat & Hlast).
  rewrite Htrick in Ht. simpl in Ht.
  assert (moves ≠ []) as Hmoves.
  { intros ->. simpl in Hlen. destruct (players g); done. }
  specialize (Hlast Hmoves).
  destruct (trick g1) as [|led rest] eqn:Ht1.
  { destruct plays; [|done]. simpl in Hl. destruct moves; done. }
  assert (piled g1 = true) as Hpiled1.
  { unfold piled. by rewrite Hta, Hpl. }
  assert (players g1 ≠ []) as Hplayers1 by (by rewrite Hpl).
  destruct (take_trick_spec g1 led rest Ht1 Hplayers1 Hpiled1)
    as (w & i & winner & pile & Hw & Hi & Hti & Hwinner & Hpile & Htake).
  rewrite Ht1 in Hw, Hti.
  destruct (winning_card_spec led rest w Hw) as (_ & Hsuit & Hmax).
  set (n := Z.of_nat (length (players g))) in *.
  assert (0 < n) as Hn by lia.
  set (seat := (player_index g1 + 1 + Z.of_nat i) `mod` Z.of_nat (length (players g1))).
  assert (seat = (player_index g + Z.of_nat i) `mod` n) as Hseat_eq.
  { unfold seat. rewrite Hpl, Hlast, Hlen. fold n.
    rewrite <- Z.add_assoc, Zplus_mod_idemp_l.
    replace (player_index g + n - 1 + (1 + Z.of_nat i))
      with (player_index g + Z.of_nat i + 1 * n) by lia.
    apply Z.mod_add. lia. }
  assert (plays !! i = Some (seat, w)) as Hplayed.
  { assert (plays.*2 !! i = Some w) as Hiw by (by rewrite <- Ht).
    rewrite list_lookup_fmap in Hiw.
    destruct (plays !! i) as [[seat' c]|] eqn:Hpi'; [|done].
    simpl in Hiw. inversion Hiw; subst c.
    by rewrite Hseat_eq, (Hseat i seat' w Hpi'). }
  exists led, rest, w, i, seat, winner, pile, (taken_by winner pile g1).
  rewrite Hpl in Hwinner. rewrite Hta in Hpile. fold n in Hwinner.
  repeat split; try done.
  - unfold seat. by rewrite Hpl.
  - unfold taken_by. simpl. rewrite lookup_insert_eq. by rewrite Ht1.
  - intros hand shuffled next_dir Hhand Hne.
    exists (with_player_index (seat - 1) (taken_by winner pile g1)).
    split; [|split; [|done]].
    + rewrite <- Ht1 in *. by apply (trick_winner_goes_on _ _ _ _ _ hand).
    + unfold next_player. simpl. rewrite Hpl. fold n.
      replace (seat - 1 + 1) with seat by lia.
      rewrite Hseat_eq. apply Z.mod_mod. lia.
Qed.

Lemma C5_trick_winner_witness :
  ∃ w seat g2 g3,
    winning_card Round.the_trick = Some w
    ∧ w = mkCard "K" "H"
    ∧ take_trick (Round.played_out Round.last_but_one) = Some (seat, g2)
    ∧ trick_winner standard_deck "not" (Round.played_out Round.last_but_one) = Some g3
    ∧ player_index (next_player g3) = seat
    ∧ seat = 1.
Proof.
  destruct (C5_trick_winner Round.last_but_one (Round.played_out Round.last_but_one)
              Round.the_moves
              [(0, mkCard "5" "H"); (1, mkCard "K" "H"); (2, mkCard "2" "H");
               (3, QS)])
    as (led & rest & w & i & seat & winner & pile & g2 & _ & _ & Hw & _ & _ & _
        & _ & _ & Htake & _ & _ & Hlead).
  - reflexivity.
  - discriminate.
  - vm_compute. split; [discriminate|reflexivity].
  - vm_compute. reflexivity.
  - reflexivity.
  - vm_compute. reflexivity.
  - destruct (take_trick_inv _ _ _ Htake) as (winner' & pile' & _ & Hg2).
    destruct (Hlead [mkCard "2" "C"] standard_deck "not") as (g3 & Hg3 & Hnext & _).
    + rewrite Hg2. vm_compute. reflexivity.
    + discriminate.
    + exists w, seat, g2, g3.
      assert (winning_card Round.the_trick = Some (mkCard "K" "H")) as Hk
        by (vm_compute; reflexivity).
      assert (trick (Round.played_out Round.last_but_one) = Round.the_trick) as Ht
        by (vm_compute; reflexivity).
      rewrite Ht, Hk in Hw.
      assert (take_trick (Round.played_out Round.last_but_one)
              ≫= (λ r, Some r.1) = Some 1) as Hs by (vm_compute; reflexivity).
      rewrite Htake in Hs. simpl in Hs.
      split; [congruence|]. split; [congruence|]. split; [exact Htake|].
      split; [exact Hg3|]. split; [exact Hnext|congruence].
Defined.

(** C5 as it is worded fails at the last trick of a round that does not
    end the game: Bob, at seat 1, wins the trick with the king of hearts,
    the cards are scored and dealt anew, and the next to play is seat 0. *)
Lemma C5_last_trick_counterexample :
  winner_index (Round.played_out Round.the_last) = Some 1
  ∧ (trick_winner standard_deck "not" (Round.played_out Round.the_last)
       ≫= λ g3, Some (player_index (next_player g3), phase g3, trick g3,
                      length <$> hands g3 !! "Ann"))
    = Some (0, "trick", [], Some 13%nat).
Proof. split; vm_compute; reflexivity. Qed.

(** ** Dealer's choice *)

(** With other than 4 or 6 players the generator raises NameError, for
    any answer of the dealer. *)
Lemma dealers_choice_fatal (g : Hearts) (answers : list string) :
  length (players g) ≠ 4%nat → length (players g) ≠ 6%nat →
  dealers_choice g answers = NameError "valid".
Proof.
  intros H4 H6. unfold dealers_choice, valid_dirs.
  rewrite bool_decide_eq_true_2; [done|].
  intros [?|[?|[]%elem_of_nil]%elem_of_cons]%elem_of_cons; done.
Qed.

(** The loop asks the same dealer until a valid direction is given: an
    answer that is not valid is added to the rejected ones. *)
Lemma ask_direction_rejects (dealer : string) (valid_dirs rejected answers : list string)
    (answer : string) :
  default answer (pass_aliases !! answer) ∉ valid_dirs →
  ask_direction dealer valid_dirs rejected (answer :: answers)
  = ask_direction dealer valid_dirs
      (rejected ++ [default answer (pass_aliases !! answer)]) answers.
Proof. intros Hn. simpl. by rewrite (bool_decide_eq_false_2 _ Hn). Qed.

Lemma ask_direction_dealer (dealer : string) (valid_dirs rejected answers : list string) :
  (∃ rejected', ask_direction dealer valid_dirs rejected answers
                = Asking dealer rejected')
  ∨ (∃ rejected' pass_dir,
       ask_direction dealer valid_dirs rejected answers
       = Yield dealer rejected' pass_dir ∧ pass_dir ∈ valid_dirs).
Proof.
  revert rejected. induction answers as [|answer answers IH]; intros rejected; simpl.
  - left. eauto.
  - case_bool_decide; [right; eauto|apply IH].
Qed.

(** C7 (the code at a failing input).  With three players, the dealer's
    choice of a direction, here the answer ['across'], is not rejected
    with an error that lets the dealer answer again: the generator raises
    NameError for the name [valid]. *)
Theorem C7_dealers_choice_three_players :
  length (players Round.three_players) = 3%nat
  ∧ dealers_choice Round.three_players ["across"] = NameError "valid".
Proof. split; vm_compute; reflexivity. Qed.

(** * More of the engine *)

(** ** What a play changes *)

Lemma remove_Permutation (c : Card) (hand : list Card) :
  c ∈ hand → c :: remove c hand ≡ₚ hand.
Proof.
  induction hand as [|c' hand IH]; [by inversion 1|]. simpl.
  destruct (card_eqb c' c) eqn:He.
  - intros _. by rewrite (card_eqb_eq _ _ He).
  - intros [->|Hin]%elem_of_cons; [by rewrite card_eqb_refl in He|].
    rewrite Permutation_swap. by rewrite (IH Hin).
Qed.

(** A play that is rejected leaves the game as it is. *)
Lemma do_play_error (arguments : string) (g g' : Hearts) (e : PlayError) :
  do_play arguments g = Some (g', Some e) → g' = g.
Proof.
  unfold do_play, shift_to_trick. intros Hd.
  repeat (case_match; simplify_option_eq); done.
Qed.

(** X1.  A call of [do_play] that returns moves one card or nothing: if
    it reports an error the game is as it was; if not, one card of the
    hand of the player whose turn it is, the first that has the text
    given, has gone from that hand to the end of the trick, the other
    cards of the hand are kept, and the other hands, the piles, the deck,
    the scores, the flag of the broken hearts and the turn are as they
    were. *)
Theorem X1_do_play_moves_one_card (arguments : string) (g g' : Hearts)
    (err : option PlayError) :
  do_play arguments g = Some (g', err) →
  (is_Some err → g' = g)
  ∧ (err = None →
     ∃ player hand c,
       py_nth (players g) (player_index g) = Some player
       ∧ hands g !! player = Some hand
       ∧ c ∈ hand
       ∧ up_text c = upper arguments
       ∧ hands g' = <[player := remove c hand]> (hands g)
       ∧ c :: remove c hand ≡ₚ hand
       ∧ trick g' = trick g ++ [c]
       ∧ taken g' = taken g ∧ deck_cards g' = deck_cards g
       ∧ scores g' = scores g ∧ hearts_broken g' = hearts_broken g
       ∧ player_index g' = player_index g ∧ phase g' = phase g).
Proof.
  intros Hd. split.
  - intros [e ->]. by apply do_play_error in Hd.
  - intros ->.
    destruct (do_play_accepted _ _ _ Hd) as (player & hand & c & Hp & Hh & Hin & Ht & ->).
    exists player, hand, c. repeat split; try done.
    by apply remove_Permutation.
Qed.

Lemma X1_do_play_moves_one_card_witness :
  ∃ player hand c,
    py_nth (players Lead.unbroken) (player_index Lead.unbroken) = Some player
    ∧ hands Lead.unbroken !! player = Some hand
    ∧ c ∈ hand
    ∧ up_text c = upper "2c"
    ∧ hands (played "Ann" [Lead.AH; Lead.C2] Lead.C2 Lead.unbroken)
      = <[player := remove c hand]> (hands Lead.unbroken)
    ∧ c :: remove c hand ≡ₚ hand
    ∧ trick (played "Ann" [Lead.AH; Lead.C2] Lead.C2 Lead.unbroken)
      = trick Lead.unbroken ++ [c].
Proof.
  destruct (X1_do_play_moves_one_card "2c" Lead.unbroken
              (played "Ann" [Lead.AH; Lead.C2] Lead.C2 Lead.unbroken) None)
    as [_ H]; [vm_compute; reflexivity|].
  destruct (H eq_refl) as (player & hand & c & H1 & H2 & H3 & H4 & H5 & H6 & H7 & _).
  exists player, hand, c. repeat split; assumption.
Defined.

(** X2.  The rule of following suit.  When the trick has a card and the
    player whose turn it is plays a card of the hand: a card of another
    suit than the one led is rejected, the game staying as it was, if the
    hand holds a card of the suit led; a card of the suit led, or any card
    of a hand that is void in the suit led, is accepted, whether or not it
    is a heart or a joker and whether or not hearts are broken. *)
Theorem X2_follow_suit (g : Hearts) (player : string) (hand : list Card)
    (c led : Card) (rest : list Card) (arguments : string) :
  py_nth (players g) (player_index g) = Some player →
  hands g !! player = Some hand →
  card_re_match arguments = true →
  upper arguments = up_text c →
  phase g = "trick" →
  c ∈ hand →
  trick g = led :: rest →
  (suit c ≠ suit led → (∃ card, card ∈ hand ∧ suit card = suit led) →
   do_play arguments g = Some (g, Some FollowSuit))
  ∧ (suit c = suit led ∨ (∀ card, card ∈ hand → suit card ≠ suit led) →
     do_play arguments g = Some (played player hand c g, None)).
Proof.
  intros Hplayer Hhand Hmatch Hupper Hphase Hheld Htrick.
  rewrite (do_play_held g player hand c arguments Hplayer Hhand Hmatch Hupper
             Hphase Hheld).
  rewrite Htrick. split.
  - intros Hne (card & Hin & Hs).
    rewrite (bool_decide_eq_false_2 _ Hne). simpl.
    assert (existsb (λ card, bool_decide (suit card = suit led)) hand = true) as ->; [|done].
    apply existsb_exists. exists card. split; [by apply list_elem_of_In|].
    by apply bool_decide_eq_true_2.
  - intros [He|Hvoid].
    + by rewrite (bool_decide_eq_true_2 _ He).
    + assert (existsb (λ card, bool_decide (suit card = suit led)) hand = false) as ->.
      { apply not_true_is_false. intros (card & Hin & Hs)%existsb_exists.
        apply bool_decide_eq_true_1 in Hs. apply list_elem_of_In in Hin.
        by apply (Hvoid card). }
      by rewrite andb_false_r.
Qed.

Lemma X2_follow_suit_witness :
  let g := next_player (played "Ann" [Lead.AH; Lead.C2] Lead.C2 Lead.unbroken) in
  do_play "kh" g = Some (g, Some FollowSuit)
  ∧ do_play "3c" g
    = Some (played "Bob" [mkCard "3" "C"; mkCard "K" "H"] (mkCard "3" "C") g, None).
Proof.
  intros g. split.
  - apply (X2_follow_suit g "Bob" [mkCard "3" "C"; mkCard "K" "H"] (mkCard "K" "H")
             Lead.C2 [] "kh"); try (vm_compute; reflexivity).
    + right; left.
    + discriminate.
    + exists (mkCard "3" "C"). split; [left|reflexivity].
  - apply (X2_follow_suit g "Bob" [mkCard "3" "C"; mkCard "K" "H"] (mkCard "3" "C")
             Lead.C2 [] "3c"); try (vm_compute; reflexivity).
    + left.
    + left. reflexivity.
Defined.

(** X3.  The lead of a joker.  When the trick is empty and the leader
    plays a joker of the hand that is no heart: under jokers-follow the
    joker is rejected, the game staying as it was, if the hand holds a
    card that may lead, one that is no joker and, while hearts are not
    broken, no heart; the joker is accepted if the option is off, or if
    every card of the hand is a joker or a heart that may not lead yet. *)
Theorem X3_joker_lead (g : Hearts) (player : string) (hand : list Card)
    (c : Card) (arguments : string) :
  py_nth (players g) (player_index g) = Some player →
  hands g !! player = Some hand →
  card_re_match arguments = true →
  upper arguments = up_text c →
  phase g = "trick" →
  c ∈ hand →
  trick g = [] →
  is_joker c = true →
  is_heart c = false →
  (jokers_follow (opt g) = true →
   (∃ card, card ∈ hand ∧ is_joker card = false
            ∧ (hearts_broken g = false → is_heart card = false)) →
   do_play arguments g = Some (g, Some JokerLead))
  ∧ (jokers_follow (opt g) = false
     ∨ (∀ card, card ∈ hand →
          is_joker card = true
          ∨ (hearts_broken g = false ∧ is_heart card = true)) →
     do_play arguments g = Some (played player hand c g, None)).
Proof.
  intros Hplayer Hhand Hmatch Hupper Hphase Hheld Htrick Hj Hh.
  rewrite (do_play_held g player hand c arguments Hplayer Hhand Hmatch Hupper
             Hphase Hheld).
  rewrite Htrick, Hj, Hh. simpl. split.
  - intros Hjf (card & Hin & Hjc & Hhc). rewrite Hjf. simpl.
    rewrite bool_decide_eq_false_2; [done|].
    rewrite playable_nil. intros Hall.
    destruct (Hall card Hin) as [[_ ?]|[Hb ?]]; [congruence|].
    specialize (Hhc Hb). congruence.
  - intros [Hjf|Hall].
    + by rewrite Hjf.
    + destruct (jokers_follow (opt g)) eqn:Hjf; [|done]. simpl.
      rewrite bool_decide_eq_true_2; [done|].
      apply playable_nil. intros card Hin. rewrite Hjf.
      destruct (Hall card Hin) as [?|[? ?]]; auto.
Qed.

Lemma X3_joker_lead_witness :
  do_play "xc" (with_hearts_broken true Lead.heart_and_joker)
  = Some (with_hearts_broken true Lead.heart_and_joker, Some JokerLead)
  ∧ do_play "xc" Lead.heart_and_joker
    = Some (played "Ann" [Lead.AH; Lead.XC] Lead.XC Lead.heart_and_joker, None).
Proof.
  split.
  - apply (X3_joker_lead (with_hearts_broken true Lead.heart_and_joker) "Ann"
             [Lead.AH; Lead.XC] Lead.XC "xc"); try (vm_compute; reflexivity).
    + right; left.
    + exists Lead.AH. split; [left|]. split; [reflexivity|discriminate].
  - apply (X3_joker_lead Lead.heart_and_joker "Ann" [Lead.AH; Lead.XC] Lead.XC "xc");
      try (vm_compute; reflexivity).
    + right; left.
    + right.
      intros card [->|[->|[]%elem_of_nil]%elem_of_cons]%elem_of_cons;
        [right|left]; split; reflexivity.
Defined.

(** ** The deal, round by round *)

Lemma insert_by_Permutation {A K} (ltb : K → K → bool) (key : A → K) (x : A)
    (l : list A) :
  insert_by ltb key x l ≡ₚ x :: l.
Proof.
  induction l as [|y l IH]; simpl; [done|].
  case_match; [|done]. by rewrite IH, Permutation_swap.
Qed.

(** Sorting keeps the cards. *)
Lemma sorted_by_Permutation {A K} (ltb : K → K → bool) (key : A → K) (l : list A) :
  sorted_by ltb key l ≡ₚ l.
Proof.
  unfold sorted_by. induction l as [|x l IH]; simpl; [done|].
  by rewrite insert_by_Permutation, IH.
Qed.

Lemma sorted_by_length {A K} (ltb : K → K → bool) (key : A → K) (l : list A) :
  length (sorted_by ltb key l) = length l.
Proof. by rewrite sorted_by_Permutation. Qed.

Lemma seated_lookup (g : Hearts) (name : string) :
  seated g = true → name ∈ players g → is_Some (hands g !! name).
Proof.
  unfold seated. rewrite andb_true_iff, forallb_forall. intros [_ Hall] Hin.
  eapply bool_decide_eq_true_1, Hall. by apply list_elem_of_In.
Qed.

Lemma seated_NoDup (g : Hearts) : seated g = true → NoDup (players g).
Proof.
  unfold seated. rewrite andb_true_iff. intros [Hn _].
  by apply bool_decide_eq_true_1 in Hn.
Qed.

Lemma rotate_left_lookup {A} (k j : nat) (l : list A) :
  (k ≤ length l)%nat → (j < length l)%nat →
  rotate_left k l !! j = l !! ((k + j) mod length l)%nat.
Proof.
  intros Hk Hj. unfold rotate_left.
  destruct (decide (j < length l - k)%nat) as [Hlt|Hge].
  - rewrite lookup_app_l by (rewrite length_drop; lia).
    rewrite lookup_drop, Nat.mod_small by lia. done.
  - rewrite lookup_app_r by (rewrite length_drop; lia).
    rewrite length_drop, lookup_take_lt by lia. f_equal.
    apply (Nat.mod_unique _ _ 1); lia.
Qed.

Lemma rotate_left_Permutation {A} (k : nat) (l : list A) : rotate_left k l ≡ₚ l.
Proof.
  unfold rotate_left. rewrite Permutation_app_comm. by rewrite take_drop.
Qed.

Lemma rotate_left_length {A} (k : nat) (l : list A) :
  length (rotate_left k l) = length l.
Proof. by rewrite rotate_left_Permutation. Qed.

Lemma deal_round_lookup (cycle : list string) :
  ∀ (cards : list Card) (hands : gmap string (list Card)),
    NoDup cycle →
    (∀ j p c, cycle !! j = Some p → cards !! j = Some c →
       deal_round cycle cards hands !! p = Some (default [] (hands !! p) ++ [c]))
    ∧ (∀ p, p ∉ cycle → deal_round cycle cards hands !! p = hands !! p).
Proof.
  unfold deal_round.
  induction cycle as [|p0 cycle IH]; intros cards hands Hnd; simpl.
  - split; [intros j p c Hj; by rewrite lookup_nil in Hj|done].
  - destruct cards as [|c0 cards]; simpl.
    { split; [intros j p c _ Hc; by rewrite lookup_nil in Hc|done]. }
    apply NoDup_cons in Hnd as [Hp0 Hnd].
    destruct (IH cards (draw_card hands (p0, c0)) Hnd) as [IH1 IH2].
    split.
    + intros [|j] p c Hj Hc; simpl in *.
      * inversion Hj; inversion Hc; subst. rewrite IH2 by done.
        unfold draw_card. simpl. apply lookup_insert_eq.
      * rewrite (IH1 j p c Hj Hc). unfold draw_card. simpl.
        rewrite lookup_insert_ne; [done|].
        intros ->. apply Hp0. by eapply list_elem_of_lookup_2.
    + intros p Hp. apply not_elem_of_cons in Hp as [Hne Hp].
      rewrite IH2 by done. unfold draw_card. simpl.
      by rewrite lookup_insert_ne.
Qed.

Lemma deal_round_total (cycle : list string) (cards : list Card)
    (hands : gmap string (list Card)) (p : string) :
  is_Some (hands !! p) → is_Some (deal_round cycle cards hands !! p).
Proof.
  unfold deal_round. revert hands.
  generalize (zip cycle cards). intros draws.
  induction draws as [|[p0 c0] draws IH]; intros hands Hp; simpl; [done|].
  apply IH. unfold draw_card. simpl.
  destruct (decide (p0 = p)) as [->|Hne].
  - rewrite lookup_insert_eq. eauto.
  - by rewrite lookup_insert_ne.
Qed.

Section Deal.
Context (dealer : string) (cycle : list string).
Hypothesis Hnodup : NoDup cycle.
Hypothesis Hdealer : last cycle = Some dealer.

(** One round of the loop of the deal, or what is left of it: the
    players still to draw are the end [suffix] of the cycle. *)
Lemma deal_cycle_round (suffix : list string) :
  ∀ (pre : list string) (cards rest : list Card) (hands : gmap string (list Card))
    (k : nat),
    cycle = pre ++ suffix → suffix ≠ [] → length cards = length suffix →
    (k mod length cycle = length pre)%nat →
    (∀ p, p ∈ suffix → is_Some (hands !! p)) →
    deal_cycle dealer (length cycle) cycle k (cards ++ rest) hands
    = if bool_decide (length rest < length cycle)%nat
      then Some (rest, deal_round suffix cards hands)
      else deal_cycle dealer (length cycle) cycle (k + length suffix) rest
             (deal_round suffix cards hands).
Proof.
  induction suffix as [|p suffix IH]; intros pre cards rest hands k Hc Hne Hl Hk Hh;
    [done|].
  destruct cards as [|c cards]; [done|]. simpl.
  assert (cycle !! (k mod length cycle)%nat = Some p) as ->.
  { rewrite Hk, Hc. by apply list_lookup_middle. }
  simpl. destruct (Hh p) as [hand Hhand]; [left|]. rewrite Hhand. simpl.
  assert (deal_round (p :: suffix) (c :: cards) hands
          = deal_round suffix cards (<[p := hand ++ [c]]> hands)) as Hround.
  { unfold deal_round. simpl. unfold draw_card at 2. simpl. by rewrite Hhand. }
  rewrite Hround.
  destruct suffix as [|p' suffix].
  - destruct cards; [|done]. simpl.
    assert (p = dealer) as ->.
    { rewrite Hc, last_snoc in Hdealer. by inversion Hdealer. }
    rewrite bool_decide_eq_true_2 by done. simpl.
    unfold deal_round. simpl. by rewrite Nat.add_1_r.
  - assert (p ≠ dealer) as Hp.
    { intros ->. rewrite Hc in Hnodup.
      apply NoDup_app in Hnodup as (_ & _ & Hnd).
      apply NoDup_cons in Hnd as [Hnotin _]. apply Hnotin.
      pose proof Hdealer as Hd. rewrite Hc, last_app, last_cons in Hd.
      destruct (last (p' :: suffix)) as [d|] eqn:Hlast.
      - inversion Hd; subst d. by apply last_elem_of in Hlast.
      - by apply last_None in Hlast. }
    rewrite (bool_decide_eq_false_2 _ Hp). simpl.
    rewrite (IH (pre ++ [p]) cards rest (<[p := hand ++ [c]]> hands) (S k)).
    + by rewrite Nat.add_succ_r.
    + by rewrite <- app_assoc.
    + done.
    + simpl in Hl |- *. lia.
    + assert (length cycle ≠ 0%nat) as Hn by (rewrite Hc, length_app; simpl; lia).
      rewrite (mod_succ k _ Hn), Hk.
      rewrite decide_False; [rewrite length_app; simpl; lia|].
      rewrite Hc, !length_app. simpl. lia.
    + intros q Hq. destruct (decide (q = p)) as [->|Hqp].
      * rewrite lookup_insert_eq. eauto.
      * rewrite lookup_insert_ne by done. apply Hh. by right.
Qed.

(** The loop of the deal from the start of a round, for a deck of [S q]
    rounds and fewer cards over than there are players. *)
Lemma deal_cycle_rounds (q : nat) :
  ∀ (pile : list Card) (hands : gmap string (list Card)) (k : nat),
    (k mod length cycle = 0)%nat →
    (S q * length cycle ≤ length pile < (S q + 1) * length cycle)%nat →
    (∀ p, p ∈ cycle → is_Some (hands !! p)) →
    ∃ hands',
      deal_cycle dealer (length cycle) cycle k pile hands
      = Some (drop (S q * length cycle) pile, hands')
      ∧ (∀ p, p ∉ cycle → hands' !! p = hands !! p)
      ∧ ∀ j p hand, cycle !! j = Some p → hands !! p = Some hand →
          ∃ got, hands' !! p = Some (hand ++ got) ∧ length got = S q
                 ∧ ∀ r, (r < S q)%nat → got !! r = pile !! (r * length cycle + j)%nat.
Proof.
  assert (cycle ≠ []) as Hne by (intros He; by rewrite He in Hdealer).
  set (n := length cycle).
  assert (n ≠ 0%nat) as Hn by (unfold n; destruct cycle; done).
  induction q as [|q IH]; intros pile hands k Hk Hlen Hh.
  -
    pose proof (deal_cycle_round cycle [] (take n pile) (drop n pile) hands k
                  eq_refl Hne) as Hstep.
    rewrite take_drop in Hstep. fold n in Hstep.
    rewrite Hstep; try done; [|rewrite length_take; lia].
    rewrite bool_decide_eq_true_2 by (rewrite length_drop; lia).
    exists (deal_round cycle (take n pile) hands).
    destruct (deal_round_lookup cycle (take n pile) hands Hnodup) as [H1 H2].
    split; [by rewrite Nat.mul_1_l|]. split; [done|].
    intros j p hand Hj Hp.
    pose proof (lookup_lt_Some _ _ _ Hj) as Hjn. fold n in Hjn.
    destruct (lookup_lt_is_Some_2 pile j) as [c Hc]; [lia|].
    exists [c]. split; [|split; [done|]].
    + rewrite (H1 j p c Hj); [by rewrite Hp|]. by rewrite lookup_take_lt.
    + intros [|r] Hr; [|lia]. simpl. by rewrite Hc.
  -
    pose proof (deal_cycle_round cycle [] (take n pile) (drop n pile) hands k
                  eq_refl Hne) as Hstep.
    rewrite take_drop in Hstep. fold n in Hstep.
    rewrite Hstep; try done; [|rewrite length_take; lia].
    rewrite bool_decide_eq_false_2 by (rewrite length_drop; lia).
    destruct (deal_round_lookup cycle (take n pile) hands Hnodup) as [H1 H2].
    destruct (IH (drop n pile) (deal_round cycle (take n pile) hands) (k + n)%nat)
      as (hands' & Hd & Hout & Hin).
    + rewrite <- Nat.Div0.add_mod_idemp_l, Hk. simpl. apply Nat.Div0.mod_same.
    + rewrite length_drop. fold n in Hlen |- *. lia.
    + intros p Hp. apply deal_round_total. by apply Hh.
    + exists hands'. fold n in Hd. split; [|split].
      * rewrite Hd, drop_drop. repeat f_equal; lia.
      * intros p Hp. by rewrite Hout, H2.
      * intros j p hand Hj Hp.
        pose proof (lookup_lt_Some _ _ _ Hj) as Hjn. fold n in Hjn.
        destruct (lookup_lt_is_Some_2 pile j) as [c Hc]; [lia|].
        destruct (Hin j p (hand ++ [c]) Hj) as (got & Hgot & Hgl & Hgr).
        { rewrite (H1 j p c Hj); [by rewrite Hp|]. by rewrite lookup_take_lt. }
        exists (c :: got). split; [|split].
        -- by rewrite Hgot, <- app_assoc.
        -- simpl. by rewrite Hgl.
        -- intros [|r] Hr; simpl; [by rewrite Hc|].
           rewrite Hgr by lia. rewrite lookup_drop. f_equal. fold n. lia.
Qed.

End Deal.

Lemma reverse_drop_reverse {A} (k : nat) (l : list A) :
  reverse (drop k (reverse l)) = take (length l - k) l.
Proof.
  rewrite <- (take_drop (length l - k) l) at 1.
  rewrite reverse_app.
  destruct (decide (k ≤ length l)%nat) as [Hle|Hgt].
  - rewrite drop_app_length'; [by rewrite reverse_involutive|].
    rewrite length_reverse, length_drop. lia.
  - replace (length l - k)%nat with 0%nat by lia. simpl.
    rewrite drop_0, app_nil_r, drop_ge; [done|].
    rewrite length_reverse. lia.
Qed.

(** What the deal comes to for a deck with a card for every player. *)
Lemma deal_spec (shuffled : list Card) (g : Hearts) (i : nat) :
  seated g = true →
  players g !! i = Some (dealer g) →
  (length (players g) ≤ length shuffled)%nat →
  ∃ hands' next,
    players g !! ((i + 1) mod length (players g))%nat = Some next
    ∧ deal shuffled g
      = Some (with_hearts_broken (negb (break_hearts (opt g) || all_break (opt g)))
               (with_dealer next
                 (with_hands hands'
                   (with_deck_cards
                      (take (length shuffled mod length (players g)) shuffled) g))))
    ∧ (∀ p, p ∉ players g → hands' !! p
         = sorted_by suit_rank_ltb (λ card, (suit card, rank_num card)) <$> hands g !! p)
    ∧ ∀ j p hand,
        (j < length (players g))%nat →
        players g !! ((i + 1 + j) mod length (players g))%nat = Some p →
        hands g !! p = Some hand →
        ∃ got,
          hands' !! p
          = Some (sorted_by suit_rank_ltb (λ card, (suit card, rank_num card))
                    (hand ++ got))
          ∧ length got = (length shuffled / length (players g))%nat
          ∧ ∀ r, (r < length shuffled / length (players g))%nat →
                 got !! r = reverse shuffled !! (r * length (players g) + j)%nat.
Proof.
  intros Hseated Hi Hlen.
  pose proof (seated_NoDup g Hseated) as Hnd.
  pose proof (lookup_lt_Some _ _ _ Hi) as Hlt.
  set (n := length (players g)) in *.
  assert (n ≠ 0%nat) as Hn by lia.
  set (idx := ((i + 1) mod n)%nat).
  assert (idx < n)%nat as Hidx by (by apply Nat.mod_upper_bound).
  destruct (lookup_lt_is_Some_2 (players g) idx Hidx) as [next Hnext].
  set (cycle := rotate_left idx (players g)).
  assert (length cycle = n) as Hcl by apply rotate_left_length.
  assert (NoDup cycle) as Hcnd by (unfold cycle; by rewrite rotate_left_Permutation).
  assert (last cycle = Some (dealer g)) as Hlast.
  { rewrite last_lookup, Hcl.
    destruct (rotate_left_last (players g) i (dealer g) Hi) as [Hl _].
    fold n in Hl. fold idx in Hl. fold cycle in Hl.
    rewrite <- Hl. f_equal. lia. }
  set (q := (length shuffled / n)%nat).
  assert (q ≠ 0%nat) as Hq.
  { unfold q. intros H0. apply Nat.div_small_iff in H0; lia. }
  pose proof (Nat.div_mod_eq (length shuffled) n) as Hdm. fold q in Hdm.
  pose proof (Nat.mod_upper_bound (length shuffled) n Hn) as Hmod.
  destruct (deal_cycle_rounds (dealer g) cycle Hcnd Hlast (q - 1) (reverse shuffled)
              (hands g) 0%nat) as (hands' & Hd & Hout & Hin).
  - by rewrite Nat.Div0.mod_0_l.
  - rewrite Hcl, length_reverse. nia.
  - intros p Hp. apply (seated_lookup g p Hseated).
    unfold cycle in Hp. by rewrite rotate_left_Permutation in Hp.
  - exists (sorted_by suit_rank_ltb (λ card, (suit card, rank_num card)) <$> hands'), next.
    split; [done|]. split; [|split].
    + unfold deal, list_index.
      destruct (index_from_total 0 (dealer g) (players g)) as [i' Hi'];
        [by eapply list_elem_of_lookup_2|].
      rewrite Hi'. simpl.
      apply index_from_lookup in Hi' as [_ Hi']. rewrite Nat.sub_0_r in Hi'.
      assert (i' = i) as -> by exact (NoDup_lookup _ _ _ _ Hnd Hi' Hi).
      fold n. rewrite bool_decide_eq_false_2 by done. fold idx. fold cycle.
      rewrite Hcl in Hd. rewrite Hd. simpl. rewrite Hnext. simpl.
      do 5 f_equal. rewrite reverse_drop_reverse. f_equal.
      clear Hd Hin. clearbody q. destruct q as [|q']; [done|].
      simpl. rewrite Nat.sub_0_r. nia.
    + intros p Hp. rewrite lookup_fmap, Hout; [done|].
      unfold cycle. by rewrite rotate_left_Permutation.
    + intros j p hand Hj Hp Hhand.
      destruct (Hin j p hand) as (got & Hgot & Hgl & Hgr); [|done|].
      { unfold cycle. rewrite rotate_left_lookup by lia. fold n.
        unfold idx. by rewrite Nat.Div0.add_mod_idemp_l. }
      exists got. rewrite lookup_fmap, Hgot. split; [done|].
      rewrite Hcl in Hgr. split; [lia|]. intros r Hr. apply Hgr. lia.
Qed.

(** X4.  The deal goes round the table from the top of the deck.  When
    the players have distinct names and a hand each, the dealer sits at
    seat [i] and the deck has a card for every player, the deal gives a
    game in which the [j]-th player after the dealer has got, for each of
    the [q] rounds, [q] being the quotient of the cards by the players,
    the card that was at place [r * n + j] from the top of the shuffled
    deck; the hand is then sorted.  The cards over, fewer than the
    players, stay in the deck, and the next dealer is the player after
    the dealer. *)
Theorem X4_deal_round_robin (shuffled : list Card) (g : Hearts) (i : nat) :
  seated g = true →
  players g !! i = Some (dealer g) →
  (length (players g) ≤ length shuffled)%nat →
  ∃ g',
    deal shuffled g = Some g'
    ∧ deck_cards g' = take (length shuffled mod length (players g)) shuffled
    ∧ players g !! ((i + 1) mod length (players g))%nat = Some (dealer g')
    ∧ ∀ j p hand,
        (j < length (players g))%nat →
        players g !! ((i + 1 + j) mod length (players g))%nat = Some p →
        hands g !! p = Some hand →
        ∃ got,
          hands g' !! p
          = Some (sorted_by suit_rank_ltb (λ card, (suit card, rank_num card))
                    (hand ++ got))
          ∧ length got = (length shuffled / length (players g))%nat
          ∧ ∀ r, (r < length shuffled / length (players g))%nat →
                 got !! r = reverse shuffled !! (r * length (players g) + j)%nat.
Proof.
  intros Hseated Hi Hlen.
  destruct (deal_spec shuffled g i Hseated Hi Hlen)
    as (hands' & next & Hnext & Hd & _ & Hin).
  eexists. split; [exact Hd|]. simpl. repeat split; done.
Qed.

Lemma X4_deal_round_robin_witness :
  ∃ g',
    deal Table.deck_of_three seats3
    = Some g'
    ∧ deck_cards g' = []
    ∧ dealer g' = "Ann"
    ∧ length <$> hands g' !! "Bob" = Some 18%nat.
Proof.
  destruct (X4_deal_round_robin Table.deck_of_three
              seats3 2)
    as (g' & Hd & Hdeck & Hnext & Hin);
    [vm_compute; reflexivity|vm_compute; reflexivity|vm_compute; lia|].
  exists g'. split; [exact Hd|]. split; [exact Hdeck|]. split.
  - vm_compute in Hnext. by inversion Hnext.
  - destruct (Hin 1%nat "Bob" []) as (got & -> & Hl & _);
      [vm_compute; lia|vm_compute; reflexivity|vm_compute; reflexivity|].
    simpl. f_equal. rewrite sorted_by_length. exact Hl.
Defined.

(** ** The deal needs a card for each player *)

Section DealShort.
Context (dealer : string) (cycle : list string).
Hypothesis Hnodup : NoDup cycle.
Hypothesis Hdealer : last cycle = Some dealer.

Lemma deal_cycle_short (suffix : list string) :
  ∀ (pre : list string) (pile : list Card) (hands : gmap string (list Card)) (k : nat),
    cycle = pre ++ suffix →
    (k mod length cycle = length pre)%nat →
    (length pile < length suffix)%nat →
    deal_cycle dealer (length cycle) cycle k pile hands = None.
Proof.
  induction suffix as [|p suffix IH]; intros pre pile hands k Hc Hk Hl;
    [simpl in Hl; lia|].
  destruct pile as [|c pile]; [done|]. simpl.
  assert (cycle !! (k mod length cycle)%nat = Some p) as ->.
  { rewrite Hk, Hc. by apply list_lookup_middle. }
  simpl. destruct (hands !! p) as [hand|]; [|done]. simpl.
  destruct suffix as [|p' suffix]; [simpl in Hl; lia|].
  assert (p ≠ dealer) as Hp.
  { intros ->. rewrite Hc in Hnodup.
    apply NoDup_app in Hnodup as (_ & _ & Hnd).
    apply NoDup_cons in Hnd as [Hnotin _]. apply Hnotin.
    pose proof Hdealer as Hd. rewrite Hc, last_app, last_cons in Hd.
    destruct (last (p' :: suffix)) as [d|] eqn:Hlast.
    - inversion Hd; subst d. by apply last_elem_of in Hlast.
    - by apply last_None in Hlast. }
  rewrite (bool_decide_eq_false_2 _ Hp). simpl.
  apply (IH (pre ++ [p])).
  - by rewrite <- app_assoc.
  - assert (length cycle ≠ 0%nat) as Hn by (rewrite Hc, length_app; simpl; lia).
    rewrite (mod_succ k _ Hn), Hk.
    rewrite decide_False; [rewrite length_app; simpl; lia|].
    rewrite Hc, !length_app. simpl. lia.
  - simpl in Hl |- *. lia.
Qed.
End DealShort.

(** X5.  The deal needs a card for each player.  When the players have
    distinct names and a hand each and the dealer is one of them, the
    deal gives a game if and only if the deck has at least as many cards
    as there are players; with fewer cards the loop of the deal draws
    from an empty deck before it comes to the dealer, which raises an
    exception. *)
Theorem X5_deal_needs_a_card_each (shuffled : list Card) (g : Hearts) :
  seated g = true →
  dealer g ∈ players g →
  (is_Some (deal shuffled g) ↔ (length (players g) ≤ length shuffled)%nat)
  ∧ ((length shuffled < length (players g))%nat → deal shuffled g = None).
Proof.
  intros Hseated Hd.
  assert ((length shuffled < length (players g))%nat → deal shuffled g = None) as Hshort.
  { intros Hlt. unfold deal, list_index.
    destruct (index_from_total 0 (dealer g) (players g) Hd) as [i Hi].
    rewrite Hi. simpl.
    apply index_from_lookup in Hi as [_ Hi]. rewrite Nat.sub_0_r in Hi.
    case_bool_decide; [done|].
    set (idx := ((i + 1) mod length (players g))%nat).
    destruct (rotate_left_last (players g) i (dealer g) Hi) as [Hl Hcl].
    fold idx in Hl, Hcl.
    rewrite <- Hcl at 1.
    rewrite (deal_cycle_short (dealer g) (rotate_left idx (players g))) with
      (suffix := rotate_left idx (players g)) (pre := []); try done.
    - rewrite rotate_left_Permutation. by apply seated_NoDup.
    - rewrite last_lookup, Hcl. rewrite <- Hl. f_equal. lia.
    - by rewrite Hcl, Nat.Div0.mod_0_l.
    - by rewrite length_reverse, Hcl. }
  split; [|done]. split.
  - intros Hsome. destruct (decide (length (players g) ≤ length shuffled)%nat); [done|].
    rewrite Hshort in Hsome by lia. by destruct Hsome.
  - intros Hlen. apply deal_total; [done| |done].
    intros player Hin. by apply seated_lookup.
Qed.

Lemma X5_deal_needs_a_card_each_witness :
  is_Some (deal standard_deck seats4)
  ∧ deal (take 3 standard_deck) seats4 = None.
Proof.
  destruct (X5_deal_needs_a_card_each standard_deck seats4) as [H1 _];
    [vm_compute; reflexivity|vm_compute; repeat constructor|].
  destruct (X5_deal_needs_a_card_each (take 3 standard_deck) seats4)
    as [_ H2]; [vm_compute; reflexivity|vm_compute; repeat constructor|].
  split; [apply H1; vm_compute; lia|apply H2; vm_compute; lia].
Defined.

(** ** The deal keeps the cards *)

Lemma held_insert (names : list string) (hands : gmap string (list Card))
    (p : string) (hand : list Card) (c : Card) :
  NoDup names → p ∈ names → hands !! p = Some hand →
  held names (<[p := hand ++ [c]]> hands) ≡ₚ c :: held names hands.
Proof.
  unfold held. intros Hnd Hin Hp.
  induction names as [|q names IH]; [by inversion Hin|].
  apply NoDup_cons in Hnd as [Hq Hnd]. rewrite !bind_cons.
  destruct (decide (q = p)) as [->|Hne].
  - rewrite lookup_insert_eq, Hp. simpl.
    assert (names ≫= (λ name, default [] (<[p := hand ++ [c]]> hands !! name))
            = names ≫= (λ name, default [] (hands !! name))) as ->.
    { clear IH Hin Hnd. induction names as [|r names IH]; [done|].
      apply not_elem_of_cons in Hq as [Hr Hq]. rewrite !bind_cons.
      rewrite lookup_insert_ne by done. by rewrite IH. }
    rewrite <- app_assoc. simpl.
    by rewrite <- Permutation_middle.
  - rewrite lookup_insert_ne by done.
    apply elem_of_cons in Hin as [->|Hin]; [done|].
    rewrite (IH Hnd Hin). by rewrite <- Permutation_middle.
Qed.

Lemma held_sorted (names : list string) (hands : gmap string (list Card))
    {K} (ltb : K → K → bool) (key : Card → K) :
  held names (sorted_by ltb key <$> hands) ≡ₚ held names hands.
Proof.
  unfold held. induction names as [|q names IH]; [done|].
  rewrite !bind_cons, IH, lookup_fmap.
  destruct (hands !! q); simpl; [|done].
  by rewrite sorted_by_Permutation.
Qed.

Lemma held_rotate (k : nat) (names : list string) (hands : gmap string (list Card)) :
  held (rotate_left k names) hands ≡ₚ held names hands.
Proof.
  unfold held, rotate_left. rewrite bind_app, Permutation_app_comm, <- bind_app.
  by rewrite take_drop.
Qed.

Lemma deal_cycle_conserves (dealer : string) (n : nat) (cycle : list string) :
  NoDup cycle →
  ∀ (pile : list Card) (k : nat) (hands : gmap string (list Card)) pile' hands',
    deal_cycle dealer n cycle k pile hands = Some (pile', hands') →
    held cycle hands' ++ pile' ≡ₚ held cycle hands ++ pile.
Proof.
  intros Hnd. induction pile as [|c pile IH]; intros k hands pile' hands'; [done|].
  simpl. destruct (cycle !! _) as [p|] eqn:Hp; [|done]. simpl.
  destruct (hands !! p) as [hand|] eqn:Hh; [|done]. simpl.
  assert (p ∈ cycle) as Hin by (by eapply list_elem_of_lookup_2).
  pose proof (held_insert cycle hands p hand c Hnd Hin Hh) as Hins.
  case_match.
  - intros [= <- <-]. rewrite Hins. by rewrite <- Permutation_middle.
  - intros Hd. rewrite (IH _ _ _ _ Hd), Hins. by rewrite <- Permutation_middle.
Qed.

(** ** The order of a hand *)

(** The key of the sort as one number: the suit, then the rank. *)
Lemma suit_rank_ltb_code (a b : Card) :
  suit_rank_ltb (suit a, rank_num a) (suit b, rank_num b)
  = (Z.of_nat (nat_of_ascii (suit a)) * 15 + rank_num a
     <? Z.of_nat (nat_of_ascii (suit b)) * 15 + rank_num b).
Proof.
  assert (∀ c, 0 ≤ rank_num c ≤ 14) as Hr.
  { intros c. unfold rank_num. case_decide; [lia|].
    destruct (index_from 0 (rank c) ranks) as [i|] eqn:Hi; [|lia].
    apply index_from_lookup in Hi as [_ Hi]. apply lookup_lt_Some in Hi.
    simpl in Hi. lia. }
  pose proof (Hr a). pose proof (Hr b).
  unfold suit_rank_ltb. simpl.
  destruct (Z.ltb_spec (Z.of_nat (nat_of_ascii (suit a)) * 15 + rank_num a)
              (Z.of_nat (nat_of_ascii (suit b)) * 15 + rank_num b)) as [Hlt|Hge].
  - destruct (decide (nat_of_ascii (suit a) < nat_of_ascii (suit b))%nat) as [Hs|Hs].
    + by rewrite (bool_decide_eq_true_2 _ Hs).
    + rewrite (bool_decide_eq_false_2 _ Hs). simpl.
      assert (nat_of_ascii (suit a) = nat_of_ascii (suit b)) as He by lia.
      rewrite bool_decide_eq_true_2.
      * simpl. apply bool_decide_eq_true_2. lia.
      * rewrite <- (ascii_nat_embedding (suit a)), <- (ascii_nat_embedding (suit b)).
        by rewrite He.
  - rewrite bool_decide_eq_false_2 by lia. simpl.
    destruct (decide (suit a = suit b)) as [He|Hne].
    + rewrite (bool_decide_eq_true_2 _ He). simpl.
      apply bool_decide_eq_false_2. rewrite He in Hge. lia.
    + by rewrite (bool_decide_eq_false_2 _ Hne).
Qed.

Lemma sorted_by_ext {A K K'} (ltb : K → K → bool) (key : A → K)
    (ltb' : K' → K' → bool) (key' : A → K') (l : list A) :
  (∀ x y, ltb (key x) (key y) = ltb' (key' x) (key' y)) →
  sorted_by ltb key l = sorted_by ltb' key' l.
Proof.
  intros He. unfold sorted_by. induction l as [|x l IH]; simpl; [done|].
  rewrite IH. generalize (foldr (insert_by ltb' key') [] l). intros s.
  induction s as [|y s IHs]; simpl; [done|]. by rewrite He, IHs.
Qed.

Lemma StronglySorted_weaken {A} (R R' : A → A → Prop) (l : list A) :
  (∀ a b, R a b → R' a b) → StronglySorted R l → StronglySorted R' l.
Proof.
  intros HR. induction 1 as [|x l Hs IH Hx]; constructor; [done|].
  eapply Forall_impl; [exact Hx|]. intros y. apply HR.
Qed.

(** A hand sorted by [(card.suit, card.rank_num)] is in that order. *)
Lemma sorted_by_suit_rank (hand : list Card) :
  StronglySorted suit_rank_le
    (sorted_by suit_rank_ltb (λ card, (suit card, rank_num card)) hand).
Proof.
  rewrite (sorted_by_ext _ _ Z.ltb
             (λ card, Z.of_nat (nat_of_ascii (suit card)) * 15 + rank_num card))
    by apply suit_rank_ltb_code.
  eapply StronglySorted_weaken; [|apply sorted_by_sorted].
  intros a b Hab. unfold suit_rank_le. rewrite suit_rank_ltb_code.
  apply Z.ltb_ge. exact Hab.
Qed.

(** X6.  The deal keeps the cards and sorts the hands.  When the players
    have distinct names and the deal gives a game, the cards that the
    players hold after it, with the cards left in the deck, are the cards
    they held before with the cards of the shuffled deck, each as often;
    and every hand is in the order of the suits and, within a suit, of
    the ranks, the ace high. *)
Theorem X6_deal_keeps_the_cards (shuffled : list Card) (g g' : Hearts) :
  NoDup (players g) →
  deal shuffled g = Some g' →
  held (players g') (hands g') ++ deck_cards g'
  ≡ₚ held (players g) (hands g) ++ shuffled
  ∧ ∀ name hand, hands g' !! name = Some hand → StronglySorted suit_rank_le hand.
Proof.
  intros Hnd. unfold deal. intros Hd.
  destruct (list_index (dealer g) (players g)) as [i|]; [|done]. simpl in Hd.
  case_bool_decide; [done|].
  destruct (deal_cycle _ _ _ _ _ _) as [[pile hands']|] eqn:Hc; [|done].
  simpl in Hd. destruct (players g !! _); [|done]. simpl in Hd.
  inversion Hd; subst g'; clear Hd. simpl. split.
  - apply deal_cycle_conserves in Hc; [|by rewrite rotate_left_Permutation].
    rewrite !held_rotate in Hc.
    rewrite held_sorted.
    rewrite <- (reverse_Permutation pile) in Hc.
    rewrite Hc. by rewrite reverse_Permutation.
  - intros name hand. rewrite lookup_fmap.
    destruct (hands' !! name); [|done]. simpl. intros [= <-].
    apply sorted_by_suit_rank.
Qed.

Lemma X6_deal_keeps_the_cards_witness :
  ∃ g', deal standard_deck seats4 = Some g'
        ∧ held (players g') (hands g') ++ deck_cards g' ≡ₚ standard_deck.
Proof.
  assert (∃ g', deal standard_deck seats4 = Some g') as [g' Hd]
    by (vm_compute; eexists; reflexivity).
  exists g'. split; [done|].
  destruct (X6_deal_keeps_the_cards standard_deck seats4 g') as [H _];
    [apply (bool_decide_unpack _); vm_compute; exact I|exact Hd|].
  exact H.
Defined.

(** ** The scores of the game *)

Lemma add_scores_spec (rp : gmap string Z) (names : list string) :
  ∀ scores scores',
    add_scores rp scores names = Some scores' →
    (∀ p, p ∉ names → scores' !! p = scores !! p)
    ∧ (∀ p, p ∈ names → ∃ v, scores' !! p = Some v ∧ 0 ≤ v)
    ∧ (NoDup names → ∀ p, p ∈ names →
         ∃ old r, scores !! p = Some old ∧ rp !! p = Some r
                  ∧ scores' !! p = Some (Z.max (old + r) 0)).
Proof.
  induction names as [|q names IH]; intros scores scores'; simpl.
  - intros [= <-]. split; [done|]. split.
    + intros p Hp. by apply elem_of_nil in Hp.
    + intros _ p Hp. by apply elem_of_nil in Hp.
  - intros Ha.
    destruct (scores !! q) as [old|] eqn:Hq; [|done]. simpl in Ha.
    destruct (rp !! q) as [r|] eqn:Hr; [|done]. simpl in Ha.
    destruct (IH _ _ Ha) as (Hout & Hin & Hval). repeat split.
    + intros p [Hne Hp]%not_elem_of_cons.
      by rewrite Hout, lookup_insert_ne.
    + intros p Hp. destruct (decide (p ∈ names)) as [Hpn|Hpn]; [by apply Hin|].
      apply elem_of_cons in Hp as [->|Hp]; [|done].
      rewrite Hout, lookup_insert_eq by done. eexists. split; [done|lia].
    + intros [Hqn Hnd]%NoDup_cons p [->|Hp]%elem_of_cons.
      * exists old, r. by rewrite Hout, lookup_insert_eq.
      * destruct (Hval Hnd p Hp) as (old' & r' & Ho & Hr' & Hs).
        exists old', r'. rewrite lookup_insert_ne in Ho; [done|].
        by intros ->.
Qed.

(** What [score_round] does to the scores. *)
Lemma score_round_spec (g g' : Hearts) :
  score_round g = Some g' →
  (∀ p, p ∈ players g → ∃ v, scores g' !! p = Some v ∧ 0 ≤ v)
  ∧ (∀ p, p ∉ players g → scores g' !! p = scores g !! p)
  ∧ (NoDup (players g) → ∀ p, p ∈ players g →
       ∃ old rp r, scores g !! p = Some old ∧ round_scores g = Some rp
                   ∧ rp !! p = Some r ∧ scores g' !! p = Some (Z.max (old + r) 0))
  ∧ g' = with_scores (scores g') g.
Proof.
  unfold score_round. intros Hs.
  destruct (round_scores g) as [rp|]; [|done]. simpl in Hs.
  destruct (add_scores rp (scores g) (players g)) as [scores'|] eqn:Ha; [|done].
  inversion Hs; subst g'; clear Hs. simpl.
  destruct (add_scores_spec _ _ _ _ Ha) as (Hout & Hin & Hval).
  repeat split; try done.
  intros Hnd p Hp. destruct (Hval Hnd p Hp) as (old & r & ? & ? & ?).
  by exists old, rp, r.
Qed.

(** X7.  The scores never fall below 0.  After [score_round] every
    player has a score of 0 or more, whatever was taken off for a shot
    moon, a bonus card or a round without a trick; with distinct names
    the new score is the old score with the points of the round, or 0 if
    that is less; the scores of others than the players and the rest of
    the game are as they were. *)
Theorem X7_scores_never_negative (g g' : Hearts) :
  score_round g = Some g' →
  (∀ p, p ∈ players g → ∃ v, scores g' !! p = Some v ∧ 0 ≤ v)
  ∧ (∀ p, p ∉ players g → scores g' !! p = scores g !! p)
  ∧ (NoDup (players g) → ∀ p, p ∈ players g →
       ∃ old rp r, scores g !! p = Some old ∧ round_scores g = Some rp
                   ∧ rp !! p = Some r ∧ scores g' !! p = Some (Z.max (old + r) 0))
  ∧ g' = with_scores (scores g') g.
Proof. apply score_round_spec. Qed.

Lemma X7_scores_never_negative_witness :
  ∃ g', score_round (Moon.shot "new" 0 [0; 0; 0; 0]) = Some g'
        ∧ round_scores (Moon.shot "new" 0 [0; 0; 0; 0]) ≫= (.!! "Ann") = Some (-26)
        ∧ ∃ v, scores g' !! "Ann" = Some v ∧ 0 ≤ v.
Proof.
  assert (∃ g', score_round (Moon.shot "new" 0 [0; 0; 0; 0]) = Some g') as [g' Hs]
    by (vm_compute; eexists; reflexivity).
  exists g'. split; [done|]. split; [vm_compute; reflexivity|].
  destruct (X7_scores_never_negative _ _ Hs) as (H & _).
  apply H. vm_compute. left.
Defined.

(** ** The end of the game *)

Lemma count_scores_cons (P : Z → bool) (item : string * Z) (items : list (string * Z)) :
  count_scores P (item :: items)
  = (if P item.2 then 1 else 0) + count_scores P items.
Proof.
  unfold count_scores. destruct (P item.2) eqn:HP.
  - rewrite filter_cons_True by done. simpl length. lia.
  - rewrite filter_cons_False by (by rewrite HP). lia.
Qed.

Lemma count_scores_nonneg (P : Z → bool) (items : list (string * Z)) :
  0 ≤ count_scores P items.
Proof. unfold count_scores. lia. Qed.

Lemma tally_fold (h : Z) (items : list (string * Z)) :
  ∀ w l d,
    foldl (tally_step h) (w, l, d) items
    = (w + count_scores (λ v, h <? v) items,
       l + count_scores (λ v, v <? h) items,
       d + count_scores (λ v, v =? h) items).
Proof.
  induction items as [|[name v] items IH]; intros w l d; simpl.
  - unfold count_scores. simpl. by rewrite !Z.add_0_r.
  - rewrite !count_scores_cons. simpl.
    repeat case_bool_decide; rewrite IH;
      destruct (Z.ltb_spec h v), (Z.ltb_spec v h), (Z.eqb_spec v h); try lia;
      by rewrite ?Z.add_0_l, ?Z.add_assoc.
Qed.

Lemma count_scores_all (h : Z) (items : list (string * Z)) :
  count_scores (λ v, h <? v) items + count_scores (λ v, v <? h) items
  + count_scores (λ v, v =? h) items
  = Z.of_nat (length items).
Proof.
  induction items as [|[name v] items IH].
  - done.
  - rewrite !count_scores_cons. simpl length. simpl.
    destruct (Z.ltb_spec h v), (Z.ltb_spec v h), (Z.eqb_spec v h); lia.
Qed.

Lemma count_scores_elem (P : Z → bool) (items : list (string * Z)) (item : string * Z) :
  item ∈ items → P item.2 = true → 1 ≤ count_scores P items.
Proof.
  induction items as [|item' items IH]; [by inversion 1|].
  intros [->|Hin]%elem_of_cons HP; rewrite count_scores_cons.
  - rewrite HP. pose proof (count_scores_nonneg P items). lia.
  - specialize (IH Hin HP). destruct (P item'.2); lia.
Qed.

Lemma foldr_max_elem (v : Z) (vs : list Z) : foldr Z.max v vs ∈ v :: vs.
Proof.
  induction vs as [|w vs IH]; simpl; [left|].
  destruct (Z.max_spec w (foldr Z.max v vs)) as [[_ ->]|[_ ->]].
  - apply elem_of_cons in IH as [->|IH]; [left|right; by right].
  - right; left.
Qed.

(** The highest score is the score of someone. *)
Lemma max_value_elem (m : gmap string Z) (top : Z) :
  max_value m = Some top → ∃ k, m !! k = Some top.
Proof.
  unfold max_value. destruct ((map_to_list m).*2) as [|v vs] eqn:Hl; [done|].
  intros [= <-].
  pose proof (foldr_max_elem v vs) as Hin. rewrite <- Hl in Hin.
  apply list_elem_of_fmap in Hin as ([k x] & -> & Hin).
  exists k. by apply elem_of_map_to_list.
Qed.

(** X8.  The end of the game.  [game_over] says that the game is over if
    and only if some score has reached the points that end the game.  If
    not, nothing changes.  If so, the hands are discarded, the count of
    the turns is set to the count of the tricks, and the tally of the
    human grows by one for every score in the table: a win for each score
    above the score of the human, a loss for each score below it, and a
    draw for each score equal to it, the score of the human itself
    included, so that the draws grow by one at least. *)
Theorem X8_game_over (t t' : Played) (over : bool) (w l d : Z) :
  win_loss_draw t = (w, l, d) →
  game_over t = Some (over, t') →
  (over = true ↔ ∃ name v, scores (game t) !! name = Some v ∧ end_ (opt (game t)) ≤ v)
  ∧ (over = false → t' = t)
  ∧ (over = true →
     ∃ h, scores (game t) !! human (game t) = Some h
          ∧ win_loss_draw t'
            = (w + count_scores (λ v, h <? v) (map_to_list (scores (game t))),
               l + count_scores (λ v, v <? h) (map_to_list (scores (game t))),
               d + count_scores (λ v, v =? h) (map_to_list (scores (game t))))
          ∧ 1 ≤ count_scores (λ v, v =? h) (map_to_list (scores (game t)))
          ∧ count_scores (λ v, h <? v) (map_to_list (scores (game t)))
            + count_scores (λ v, v <? h) (map_to_list (scores (game t)))
            + count_scores (λ v, v =? h) (map_to_list (scores (game t)))
            = Z.of_nat (size (scores (game t)))
          ∧ turns t' = tricks (game t)
          ∧ game t' = discard_hands (game t)
          ∧ ∀ name hand, hands (game t') !! name = Some hand → hand = []).
Proof.
  intros Hwld. unfold game_over. intros Hg.
  destruct (max_value (scores (game t))) as [top|] eqn:Htop; [|done]. simpl in Hg.
  case_bool_decide as Hend.
  - destruct (scores (game t) !! human (game t)) as [h|] eqn:Hh; [|done].
    simpl in Hg. inversion Hg; subst over t'; clear Hg. simpl.
    split; [|split; [done|]].
    + split; [|done]. intros _.
      destruct (max_value_elem _ _ Htop) as [k Hk]. exists k, top. split; [done|lia].
    + intros _. exists h. rewrite Hwld, tally_fold. repeat split.
      * apply (count_scores_elem _ _ (human (game t), h)).
        -- by apply elem_of_map_to_list.
        -- simpl. apply Z.eqb_refl.
      * rewrite count_scores_all. by rewrite length_map_to_list.
      * intros name hand. rewrite lookup_fmap.
        destruct (hands (game t) !! name); [|done]. simpl. congruence.
  - inversion Hg; subst over t'; clear Hg. split; [|split; done].
    split; [done|]. intros (name & v & Hv & Hle).
    pose proof (max_value_ge _ _ _ _ Htop Hv). lia.
Qed.

Lemma X8_game_over_witness :
  ∃ t', game_over Over.lost = Some (true, t')
        ∧ win_loss_draw t' = (0, 2, 2).
Proof.
  assert (∃ over t', game_over Over.lost = Some (over, t')) as (over & t' & Hg)
    by (vm_compute; do 2 eexists; reflexivity).
  destruct (X8_game_over Over.lost t' over 0 0 0 eq_refl Hg) as (Hover & _ & Htrue).
  assert (over = true) as ->.
  { apply Hover. exists "Ann", 104. split; vm_compute; [reflexivity|discriminate]. }
  exists t'. split; [done|].
  destruct (Htrue eq_refl) as (h & Hh & -> & _).
  vm_compute in Hh. inversion Hh; subst h. vm_compute. reflexivity.
Defined.

(** ** A new round, or the end of the game *)

Lemma deal_scores (shuffled : list Card) (g g' : Hearts) :
  deal shuffled g = Some g' → scores g' = scores g ∧ human g' = human g.
Proof.
  unfold deal. intros Hd.
  destruct (list_index (dealer g) (players g)); [|done]. simpl in Hd.
  case_bool_decide; [done|].
  destruct (deal_cycle _ _ _ _ _ _) as [[pile hands']|]; [|done]. simpl in Hd.
  destruct (players g !! _); [|done]. simpl in Hd.
  by inversion Hd.
Qed.

(** X9.  A new round, or the end of the game.  When the trick that
    [trick_winner] resolves was the last of the round, the human holding
    no card after it, the round is scored, and then either a score has
    reached the points that end the game, the cards are not dealt again
    and [game_over] will say that the game is over; or no score has, the
    piles are discarded, the cards are dealt, the pass is set up and
    [game_over] will say that the game goes on. *)
Theorem X9_new_round_or_game_over (shuffled : list Card) (next_dir : string)
    (g g1 g' : Hearts) (seat : Z) (wld : Z * Z * Z) (n : Z) :
  take_trick g = Some (seat, g1) →
  hands g1 !! human g1 = Some [] →
  human g1 ∈ players g1 →
  trick_winner shuffled next_dir g = Some g' →
  ∃ g2 over t',
    score_round g1 = Some g2
    ∧ game_over (mkPlayed g' wld n) = Some (over, t')
    ∧ (over = true → g' = g2)
    ∧ (over = false →
       ∃ g3, deal shuffled (discard_taken g2) = Some g3
             ∧ set_pass next_dir g3 = Some g').
Proof.
  intros Ht Hh Hhuman. unfold trick_winner. rewrite Ht. simpl. rewrite Hh. simpl.
  destruct (score_round g1) as [g2|] eqn:Hs; [|done]. simpl.
  destruct (max_value (scores g2)) as [top|] eqn:Htop; [|done]. simpl.
  destruct (score_round_spec g1 g2 Hs) as (Hin & _ & _ & Hg2).
  destruct (Hin _ Hhuman) as (v & Hv & _).
  case_bool_decide as Hend.
  - destruct (deal shuffled (discard_taken g2)) as [g3|] eqn:Hd; [|done]. simpl.
    intros Hp. exists g2, false, (mkPlayed g' wld n).
    split; [done|]. split; [|split; [done|intros _; by exists g3]].
    unfold game_over. simpl.
    destruct (set_pass_inv _ _ _ Hp) as (phase' & pass_to' & Hg').
    destruct (deal_scores _ _ _ Hd) as [Hsc _].
    destruct (deal_inv _ _ _ Hd) as (_ & Hopt & _).
    rewrite Hg'. simpl. rewrite Hsc, Hopt. simpl. rewrite Htop. simpl.
    by rewrite bool_decide_eq_false_2 by lia.
  - intros [= <-]. exists g2. unfold game_over. simpl. rewrite Htop. simpl.
    rewrite bool_decide_eq_true_2 by lia.
    assert (human g2 = human g1) as -> by (by rewrite Hg2).
    rewrite Hv. simpl. eexists true, _. repeat split; done.
Qed.

Lemma X9_new_round_or_game_over_witness :
  ∃ g2 g3 g',
    trick_winner standard_deck "not" (Round.played_out Round.the_last) = Some g'
    ∧ (take_trick (Round.played_out Round.the_last) ≫= λ r, score_round r.2) = Some g2
    ∧ game_over (mkPlayed g' (0, 0, 0) 0) = Some (false, mkPlayed g' (0, 0, 0) 0)
    ∧ deal standard_deck (discard_taken g2) = Some g3
    ∧ set_pass "not" g3 = Some g'.
Proof.
  assert (∃ seat g1, take_trick (Round.played_out Round.the_last) = Some (seat, g1))
    as (seat & g1 & Ht) by (vm_compute; do 2 eexists; reflexivity).
  assert (∃ g', trick_winner standard_deck "not" (Round.played_out Round.the_last)
                = Some g') as [g' Hw] by (vm_compute; eexists; reflexivity).
  assert (take_trick (Round.played_out Round.the_last)
          ≫= (λ r, Some (hands r.2 !! human r.2, bool_decide (human r.2 ∈ players r.2)))
          = Some (Some [], true)) as Hg1 by (vm_compute; reflexivity).
  rewrite Ht in Hg1. simpl in Hg1. injection Hg1 as Hh Hp.
  apply bool_decide_eq_true_1 in Hp.
  destruct (X9_new_round_or_game_over standard_deck "not" _ g1 g' seat (0, 0, 0) 0
              Ht Hh Hp Hw) as (g2 & over & t' & Hs & Hg & _ & Hfalse).
  assert (game_over (mkPlayed g' (0, 0, 0) 0) = Some (false, mkPlayed g' (0, 0, 0) 0))
    as Hgo.
  { assert (trick_winner standard_deck "not" (Round.played_out Round.the_last)
            ≫= (λ g', fst <$> game_over (mkPlayed g' (0, 0, 0) 0)) = Some false) as Hf
      by (vm_compute; reflexivity).
    rewrite Hw in Hf. simpl in Hf. rewrite Hg in Hf. simpl in Hf.
    inversion Hf; subst over.
    unfold game_over in Hg |- *. simpl in Hg |- *.
    destruct (max_value (scores g')); [|done]. simpl in Hg |- *.
    case_bool_decide; [|done].
    destruct (scores g' !! human g'); done. }
  rewrite Hgo in Hg. inversion Hg; subst over t'.
  destruct (Hfalse eq_refl) as (g3 & Hd & Hp').
  exists g2, g3, g'.
  split; [exact Hw|]. split; [rewrite Ht; exact Hs|]. split; [exact Hgo|].
  split; [exact Hd|exact Hp'].
Defined.

(** ** The texts of the numbers *)

Lemma digits_from_uint (d : Decimal.uint) :
  ∀ acc : nat,
    digits_from (Z.of_nat acc) (DecimalString.NilEmpty.string_of_uint d)
    = Some (Z.of_nat (Nat.of_uint_acc d acc)).
Proof.
  induction d as [|d IH|d IH|d IH|d IH|d IH|d IH|d IH|d IH|d IH|d IH]; intros acc;
    cbn [DecimalString.NilEmpty.string_of_uint digits_from Nat.of_uint_acc];
    [done|..];
    match goal with
    | |- context [digit_of ?a] =>
        let v := eval vm_compute in (digit_of a) in change (digit_of a) with v
    end;
    cbn [mbind option_bind]; rewrite <- IH; f_equal;
    rewrite Nat.tail_mul_spec; lia.
Qed.

Lemma upto_dash_uint (d : Decimal.uint) :
  upto_dash (DecimalString.NilEmpty.string_of_uint d)
  = DecimalString.NilEmpty.string_of_uint d.
Proof.
  induction d as [|d IH|d IH|d IH|d IH|d IH|d IH|d IH|d IH|d IH|d IH];
    cbn [DecimalString.NilEmpty.string_of_uint upto_dash]; [done|..];
    rewrite bool_decide_eq_false_2 by discriminate; by rewrite IH.
Qed.

Lemma decimal_digits (n : nat) :
  decimal n = DecimalString.NilEmpty.string_of_uint (Nat.to_uint n)
  ∧ decimal n ≠ "".
Proof.
  unfold decimal.
  destruct (Nat.to_uint n) as [|d|d|d|d|d|d|d|d|d|d] eqn:Hd; try done.
  pose proof (DecimalNat.Unsigned.of_to n) as Hn. rewrite Hd in Hn.
  simpl in Hn. subst n. done.
Qed.

(** The number written by [decimal] is the number read by [int]. *)
Lemma int_of_decimal (n : nat) : int_of (decimal n) = Some (Z.of_nat n).
Proof.
  destruct (decimal_digits n) as [Hd Hne].
  unfold int_of. rewrite (bool_decide_eq_false_2 _ Hne), Hd.
  rewrite (digits_from_uint _ 0). f_equal. f_equal.
  apply DecimalNat.Unsigned.of_to.
Qed.

Lemma left_offset_decimal (k : nat) :
  left_offset ("left-" +:+ decimal k) = Some (Some (Z.of_nat k)).
Proof.
  destruct (decimal_digits k) as [Hd _].
  change (left_offset ("left-" +:+ decimal k))
    with (Some (int_of (upto_dash (decimal k)))).
  rewrite Hd, upto_dash_uint, <- Hd. by rewrite int_of_decimal.
Qed.

Lemma passees_decimal (k : nat) (names : list string) :
  passees ("left-" +:+ decimal k) names = Some (rotate_left k names).
Proof.
  unfold passees. rewrite !bool_decide_eq_false_2 by discriminate.
  rewrite left_offset_decimal. simpl. by rewrite Nat2Z.id.
Qed.

(** ** The seats of a pass *)

Lemma zip_map_lookup (l l' : list string) (i : nat) (p : string) :
  NoDup l → length l' = length l → l !! i = Some p →
  (list_to_map (reverse (zip l l')) : gmap string string) !! p = l' !! i.
Proof.
  intros Hnd Hlen Hi.
  destruct (lookup_lt_is_Some_2 l' i) as [q Hq].
  { rewrite Hlen. by eapply lookup_lt_Some. }
  rewrite Hq. apply elem_of_list_to_map_1.
  - rewrite fmap_reverse, fst_zip by lia. by rewrite reverse_Permutation.
  - apply elem_of_reverse. apply (list_elem_of_lookup_2 _ i).
    apply lookup_zip_Some. done.
Qed.

Lemma zip_map_inv (l l' : list string) (p q : string) :
  (list_to_map (reverse (zip l l')) : gmap string string) !! p = Some q →
  ∃ i, l !! i = Some p ∧ l' !! i = Some q.
Proof.
  intros Hp. apply elem_of_list_to_map_2 in Hp. rewrite elem_of_reverse in Hp.
  apply list_elem_of_lookup_1 in Hp as [i Hi].
  apply lookup_zip_Some in Hi. eauto.
Qed.

Lemma mod_add_cancel (i i' off n : nat) :
  (i < n)%nat → (i' < n)%nat →
  ((i + off) mod n = (i' + off) mod n)%nat → i = i'.
Proof.
  intros Hi Hi' He.
  assert (n ≠ 0%nat) as Hn by lia.
  pose proof (Nat.div_mod_eq (i + off) n) as H1.
  pose proof (Nat.div_mod_eq (i' + off) n) as H2.
  pose proof (Nat.mod_upper_bound (i + off) n Hn) as H3.
  rewrite He in H1.
  assert ((i + off) / n = (i' + off) / n)%nat; [nia|lia].
Qed.

Lemma set_pass_passees (dir : string) (g : Hearts) (to : list string) :
  dir ≠ "not" → dir ≠ "center" → dir ≠ "scatter" →
  passees dir (players g) = Some to →
  set_pass dir g
  = Some (with_pass_to (list_to_map (reverse (zip (players g) to)))
            (with_this_pass dir (with_phase "pass" g))).
Proof.
  intros Hn Hc Hs Hp. unfold set_pass. simpl.
  rewrite !bool_decide_eq_false_2 by done. by rewrite Hp.
Qed.

(** The pass of a direction that turns the table by [off] seats. *)
Lemma set_pass_rotate (dir : string) (off : nat) (g : Hearts) :
  NoDup (players g) →
  (off ≤ length (players g))%nat →
  dir ≠ "not" → dir ≠ "center" → dir ≠ "scatter" →
  passees dir (players g) = Some (rotate_left off (players g)) →
  ∃ g', set_pass dir g = Some g' ∧ this_pass g' = dir ∧ passes_by off g g'.
Proof.
  intros Hnd Hoff Hn Hc Hs Hp. unfold set_pass. simpl.
  rewrite !bool_decide_eq_false_2 by done. rewrite Hp. simpl.
  eexists. split; [done|]. split; [done|]. unfold passes_by. simpl.
  split; [done|]. split; [|split].
  - intros i p Hi. rewrite (zip_map_lookup _ _ i) by (by rewrite ?rotate_left_length).
    rewrite rotate_left_lookup; [by rewrite (Nat.add_comm off)|done|].
    by eapply lookup_lt_Some.
  - intros p p' q (i & Hi & Hq)%zip_map_inv (i' & Hi' & Hq')%zip_map_inv.
    pose proof (lookup_lt_Some _ _ _ Hi) as Hlt.
    pose proof (lookup_lt_Some _ _ _ Hi') as Hlt'.
    rewrite rotate_left_lookup in Hq, Hq' by done.
    rewrite (Nat.add_comm off) in Hq, Hq'.
    assert (i = i') as ->; [|congruence].
    apply (mod_add_cancel i i' off (length (players g))); [done|done|].
    eapply NoDup_lookup; [exact Hnd|exact Hq|exact Hq'].
  - intros p Hout. destruct (list_to_map _ !! p) as [q|] eqn:Hq; [|done].
    apply zip_map_inv in Hq as (i & Hi & _). exfalso. apply Hout.
    by eapply list_elem_of_lookup_2.
Qed.

(** X10.  The seats of a pass.  With distinct names at the table,
    [set_pass] makes every player pass to the player one seat further for
    the direction left, one seat back for right, half the table further
    for across, and [k] seats further for the label of the [k]-th offset;
    in each case no two players pass to the same player. *)
Theorem X10_set_pass_seats (g : Hearts) :
  NoDup (players g) →
  players g ≠ [] →
  (∃ g', set_pass "left" g = Some g' ∧ passes_by 1 g g')
  ∧ (∃ g', set_pass "right" g = Some g'
           ∧ passes_by (length (players g) - 1) g g')
  ∧ (∃ g', set_pass "across" g = Some g'
           ∧ passes_by (length (players g) / 2) g g')
  ∧ (∀ k, (k ≤ length (players g))%nat →
       ∃ g', set_pass ("left-" +:+ decimal k) g = Some g' ∧ passes_by k g g').
Proof.
  intros Hnd Hne.
  assert (length (players g) ≠ 0%nat) as Hn by (destruct (players g); done).
  split; [|split; [|split]].
  - destruct (set_pass_rotate "left" 1 g) as (g' & ? & _ & ?); try done; [lia|eauto].
  - destruct (set_pass_rotate "right" (length (players g) - 1) g)
      as (g' & ? & _ & ?); try done; [lia|eauto].
  - destruct (set_pass_rotate "across" (length (players g) / 2) g)
      as (g' & ? & _ & ?); try done; [|eauto].
    apply Nat.Div0.div_le_upper_bound. lia.
  - intros k Hk.
    destruct (set_pass_rotate ("left-" +:+ decimal k) k g)
      as (g' & ? & _ & ?); try done; [apply passees_decimal|eauto].
Qed.

Lemma X10_set_pass_seats_witness :
  ∃ g', set_pass "across" seats4 = Some g'
        ∧ pass_to g' !! "Ann" = Some "Cat"
        ∧ pass_to g' !! "Dan" = Some "Bob".
Proof.
  destruct (X10_set_pass_seats seats4) as (_ & _ & (g' & Hs & Hp) & _);
    [apply (bool_decide_unpack _); vm_compute; exact I|discriminate|].
  exists g'. split; [exact Hs|].
  destruct Hp as (_ & Hto & _). split.
  - apply (Hto 0%nat "Ann"). reflexivity.
  - apply (Hto 3%nat "Dan"). reflexivity.
Defined.

(** ** There and back *)

Lemma passes_by_inverse (off off' : nat) (g g1 g2 : Hearts) (p q : string) :
  NoDup (players g) →
  ((off + off') mod length (players g) = 0)%nat →
  passes_by off g g1 → passes_by off' g g2 →
  pass_to g1 !! p = Some q → pass_to g2 !! q = Some p.
Proof.
  intros Hnd Hoff (_ & H1 & _ & Hout1) (_ & H2 & _ & _) Hp.
  destruct (decide (p ∈ players g)) as [Hin|Hnin];
    [|by rewrite Hout1 in Hp].
  apply list_elem_of_lookup_1 in Hin as [i Hi].
  pose proof (lookup_lt_Some _ _ _ Hi) as Hlt.
  rewrite (H1 i p Hi) in Hp.
  rewrite (H2 _ q Hp), <- Hi. f_equal.
  rewrite Nat.Div0.add_mod_idemp_l, <- Nat.add_assoc.
  rewrite <- Nat.Div0.add_mod_idemp_r, Hoff, Nat.add_0_r.
  by apply Nat.mod_small.
Qed.

Lemma set_pass_no_players (dir : string) (g g' : Hearts) :
  players g = [] → set_pass dir g = Some g' →
  dir ≠ "not" → pass_to g' = ∅.
Proof.
  unfold set_pass. simpl. intros Hp Hs Hn.
  rewrite (bool_decide_eq_false_2 _ Hn), Hp in Hs. simpl in Hs.
  repeat case_bool_decide; simplify_option_eq; done.
Qed.

(** X11.  There and back.  With distinct names at the table, the pass
    to the right undoes the pass to the left: a player passes to the left
    to the very player who passes to them to the right.  And when the
    players are even in number, the pass across goes both ways: a player
    passes across to the player who passes across to them. *)
Theorem X11_left_and_right (g gl gr : Hearts) :
  NoDup (players g) →
  set_pass "left" g = Some gl →
  set_pass "right" g = Some gr →
  (∀ p q, pass_to gl !! p = Some q ↔ pass_to gr !! q = Some p)
  ∧ (∀ ga, Nat.Even (length (players g)) → set_pass "across" g = Some ga →
       ∀ p q, pass_to ga !! p = Some q → pass_to ga !! q = Some p).
Proof.
  intros Hnd Hl Hr.
  destruct (players g) as [|p0 names] eqn:Hplayers.
  { split.
    - intros p q. rewrite (set_pass_no_players _ _ _ Hplayers Hl) by done.
      rewrite (set_pass_no_players _ _ _ Hplayers Hr) by done.
      by rewrite !lookup_empty.
    - intros ga _ Ha p q.
      rewrite (set_pass_no_players _ _ _ Hplayers Ha) by done.
      by rewrite !lookup_empty. }
  rewrite <- Hplayers in *.
  assert (players g ≠ []) as Hne by (by rewrite Hplayers).
  assert (length (players g) ≠ 0%nat) as Hn by (by rewrite Hplayers).
  destruct (set_pass_rotate "left" 1 g) as (g1 & H1 & _ & Hby1); try done; [lia|].
  destruct (set_pass_rotate "right" (length (players g) - 1) g)
    as (g2 & H2 & _ & Hby2); try done; [lia|].
  rewrite Hl in H1. rewrite Hr in H2. inversion H1; inversion H2; subst g1 g2.
  split.
  - intros p q. split.
    + apply (passes_by_inverse 1 (length (players g) - 1) g); try done.
      replace (1 + (length (players g) - 1))%nat with (length (players g)) by lia.
      apply Nat.Div0.mod_same.
    + apply (passes_by_inverse (length (players g) - 1) 1 g); try done.
      replace (length (players g) - 1 + 1)%nat with (length (players g)) by lia.
      apply Nat.Div0.mod_same.
  - intros ga [m Hm] Ha p q.
    destruct (set_pass_rotate "across" (length (players g) / 2) g)
      as (g3 & H3 & _ & Hby3); try done.
    { apply Nat.Div0.div_le_upper_bound. lia. }
    rewrite Ha in H3. inversion H3; subst g3.
    apply (passes_by_inverse (length (players g) / 2) (length (players g) / 2) g);
      try done.
    rewrite Hm. rewrite (Nat.mul_comm 2 m), Nat.div_mul by done.
    replace (m + m)%nat with (m * 2)%nat by lia.
    rewrite Nat.mul_comm. apply Nat.Div0.mod_same.
Qed.

Lemma X11_left_and_right_witness :
  ∃ gl gr,
    set_pass "left" seats4 = Some gl
    ∧ set_pass "right" seats4 = Some gr
    ∧ pass_to gl !! "Ann" = Some "Bob"
    ∧ pass_to gr !! "Bob" = Some "Ann".
Proof.
  assert (∃ gl, set_pass "left" seats4 = Some gl) as [gl Hl]
    by (vm_compute; eexists; reflexivity).
  assert (∃ gr, set_pass "right" seats4 = Some gr) as [gr Hr]
    by (vm_compute; eexists; reflexivity).
  exists gl, gr. split; [done|]. split; [done|].
  assert (pass_to gl !! "Ann" = Some "Bob") as Hab.
  { assert (set_pass "left" seats4 ≫= (λ g, pass_to g !! "Ann") = Some "Bob")
      as H by (vm_compute; reflexivity).
    by rewrite Hl in H. }
  split; [exact Hab|].
  destruct (X11_left_and_right seats4 gl gr) as [H _];
    [apply (bool_decide_unpack _); vm_compute; exact I|exact Hl|exact Hr|].
  by apply H.
Defined.

(** ** The directions of the sequencer *)

Lemma inner_lookup {A} (l : list A) (j : nat) :
  (j + 2 < length l)%nat → inner l !! j = l !! (j + 1)%nat.
Proof.
  intros Hj. unfold inner. rewrite lookup_drop, lookup_take_lt by lia.
  f_equal. lia.
Qed.

Lemma inner_length {A} (l : list A) : length (inner l) = (length l - 2)%nat.
Proof. unfold inner. rewrite length_drop, length_take. lia. Qed.

Lemma handle_opt_pass_rot (setting : string) (num_pass : Z) (names : list string) :
  default setting (pass_aliases !! setting) = "rot-left" →
  ∃ np nw,
    handle_opt_pass setting num_pass names
    = Some (np, nw,
            Cycle (["left"]
                   ++ inner ((λ i, "left-" +:+ decimal i) <$> seq 1 (length names))
                   ++ ["not"])).
Proof.
  intros Hpd. unfold handle_opt_pass. cbv zeta. rewrite Hpd.
  rewrite (bool_decide_eq_true_2 ("rot-left" = "rot-left")) by done. eauto.
Qed.

Lemma handle_opt_pass_cycle (setting : string) (num_pass : Z) (names dirs : list string) :
  default setting (pass_aliases !! setting) ≠ "rot-left" →
  default setting (pass_aliases !! setting) ≠ "dealer" →
  pass_dirs !! default setting (pass_aliases !! setting) = Some dirs →
  ∃ np nw, handle_opt_pass setting num_pass names = Some (np, nw, Cycle dirs).
Proof.
  intros Hr Hd Hdirs. unfold handle_opt_pass. cbv zeta.
  rewrite (bool_decide_eq_false_2 _ Hr), (bool_decide_eq_false_2 _ Hd), Hdirs.
  simpl. eauto.
Qed.

(** The cycle of the setting rot-left, direction by direction. *)
Lemma rot_left_dirs (n k : nat) :
  (2 ≤ n)%nat → (k < n)%nat →
  let dirs := ["left"] ++ inner ((λ i, "left-" +:+ decimal i) <$> seq 1 n) ++ ["not"] in
  length dirs = n
  ∧ dirs !! k = Some (if decide (k = 0)%nat then "left"
                      else if decide (k = n - 1)%nat then "not"
                      else "left-" +:+ decimal (k + 1)).
Proof.
  intros Hn Hk dirs. unfold dirs.
  assert (length (inner ((λ i, "left-" +:+ decimal i) <$> seq 1 n)) = (n - 2)%nat) as Hl.
  { by rewrite inner_length, length_fmap, length_seq. }
  split.
  - simpl. rewrite length_app, Hl. simpl. lia.
  - destruct k as [|k]; [done|]. simpl.
    destruct (decide (S k = n - 1)%nat) as [He|Hne].
    + rewrite lookup_app_r by lia. rewrite Hl.
      replace (k - (n - 2))%nat with 0%nat by lia. done.
    + rewrite lookup_app_l by lia.
      rewrite inner_lookup by (rewrite length_fmap, length_seq; lia).
      rewrite list_lookup_fmap, lookup_seq_lt by lia. simpl.
      repeat f_equal; lia.
Qed.

(** X12.  The rounds of the setting rot-left.  With [n] players, two at
    least, of distinct names, the sequencer of the setting rot-left (or
    its alias) is a cycle of [n] directions, and [set_pass] understands
    each of them: in the round [r], counted from 0, the cards go
    [r mod n + 1] seats to the left, so that in the course of [n - 1]
    rounds every player passes once to each of the others; and in each
    [n]-th round, in which they would come back, no cards are passed and
    the phase is the play of the tricks. *)
Theorem X12_rot_left_rounds (setting : string) (num_pass : Z) (g : Hearts)
    (round : nat) :
  NoDup (players g) →
  (2 ≤ length (players g))%nat →
  setting = "rot-left" ∨ setting = "@" →
  ∃ np nw dirs dir g',
    handle_opt_pass setting num_pass (players g) = Some (np, nw, Cycle dirs)
    ∧ length dirs = length (players g)
    ∧ nth_dir dirs round = Some dir
    ∧ set_pass dir g = Some g'
    ∧ if decide (round mod length (players g) = length (players g) - 1)%nat
      then phase g' = "trick" ∧ pass_to g' = pass_to g
      else passes_by (round mod length (players g) + 1) g g'.
Proof.
  intros Hnd Hn Hsetting.
  set (n := length (players g)) in *.
  set (k := (round mod n)%nat).
  assert (k < n)%nat as Hk by (apply Nat.mod_upper_bound; lia).
  destruct (rot_left_dirs n k Hn Hk) as [Hlen Hdir].
  set (dirs := ["left"] ++ inner ((λ i, "left-" +:+ decimal i) <$> seq 1 n) ++ ["not"])
    in *.
  assert (∃ np nw, handle_opt_pass setting num_pass (players g)
                   = Some (np, nw, Cycle dirs)) as (np & nw & Hh).
  { apply handle_opt_pass_rot. by destruct Hsetting as [-> | ->]. }
  assert (nth_dir dirs round
          = Some (if decide (k = 0)%nat then "left"
                  else if decide (k = n - 1)%nat then "not"
                  else "left-" +:+ decimal (k + 1))) as Hnth.
  { unfold nth_dir. rewrite Hlen. exact Hdir. }
  destruct (decide (k = n - 1)%nat) as [Hlast|Hnl].
  - exists np, nw, dirs, "not", (with_phase "trick" (with_this_pass "not" (with_phase "pass" g))).
    rewrite decide_False in Hnth by lia. done.
  - destruct (decide (k = 0)%nat) as [H0|Hk0].
    + destruct (set_pass_rotate "left" 1 g) as (g' & Hs & _ & Hby);
        try done; [fold n; lia|].
      exists np, nw, dirs, "left", g'. rewrite H0. done.
    + destruct (set_pass_rotate ("left-" +:+ decimal (k + 1)) (k + 1) g)
        as (g' & Hs & _ & Hby); try done; [fold n; lia|apply passees_decimal|].
      by exists np, nw, dirs, ("left-" +:+ decimal (k + 1)), g'.
Qed.

Lemma X12_rot_left_rounds_witness :
  ∃ g', set_pass "left-3" seats4 = Some g'
        ∧ passes_by 3 seats4 g'.
Proof.
  destruct (X12_rot_left_rounds "@" 0 seats4 6)
    as (np & nw & dirs & dir & g' & Hh & _ & Hnth & Hs & Hby);
    [apply (bool_decide_unpack _); vm_compute; exact I|vm_compute; lia|by right|].
  vm_compute in Hh. inversion Hh; subst np nw dirs; clear Hh.
  vm_compute in Hnth. inversion Hnth; subst dir; clear Hnth.
  exists g'. split; [exact Hs|exact Hby].
Defined.

(** A direction of the six that [dealers_choice] knows is understood by
    [set_pass]. *)
Lemma set_pass_basic (dir : string) (g : Hearts) :
  dir ∈ ["left"; "right"; "across"; "not"; "center"; "scatter"] →
  is_Some (set_pass dir g).
Proof.
  intros Hin. repeat (apply elem_of_cons in Hin as [->|Hin]; [by eexists|]).
  by apply elem_of_nil in Hin.
Qed.

Lemma nth_dir_elem_of (dirs : list string) (round : nat) :
  dirs ≠ [] → ∃ dir, nth_dir dirs round = Some dir ∧ dir ∈ dirs.
Proof.
  intros Hne. unfold nth_dir.
  destruct (lookup_lt_is_Some_2 dirs (round mod length dirs)) as [dir Hd].
  - apply Nat.mod_upper_bound. by destruct dirs.
  - exists dir. split; [done|]. by eapply list_elem_of_lookup_2.
Qed.

(** X13.  The sequencer and [set_pass] agree.  For every value of the
    option pass-dir that [set_options] allows, but for the dealer's
    choice, [handle_opt_pass] finds a cycle of directions that is not
    empty, and in every round [set_pass] understands the direction that
    the cycle gives: it raises no exception, for any number of players. *)
Theorem X13_every_direction_understood (setting : string) (num_pass : Z)
    (g : Hearts) (round : nat) :
  setting ∈ pass_dir_values →
  ∃ np nw dirs dir g',
    handle_opt_pass setting num_pass (players g) = Some (np, nw, Cycle dirs)
    ∧ nth_dir dirs round = Some dir
    ∧ set_pass dir g = Some g'.
Proof.
  intros Hin.
  assert ((∃ dirs,
             default setting (pass_aliases !! setting) ≠ "rot-left"
             ∧ default setting (pass_aliases !! setting) ≠ "dealer"
             ∧ pass_dirs !! default setting (pass_aliases !! setting) = Some dirs
             ∧ dirs ≠ []
             ∧ forallb (λ dir, bool_decide
                          (dir ∈ ["left"; "right"; "across"; "not"; "center"; "scatter"]))
                       dirs = true)
          ∨ setting = "rot-left" ∨ setting = "@") as [Hbasic|Hrot].
  { unfold pass_dir_values in Hin.
    repeat (apply elem_of_cons in Hin as [->|Hin];
            [first [right; (by left) || (by right)
                   |left; eexists; vm_compute;
                    split; [discriminate|]; split; [discriminate|];
                    split; [reflexivity|]; split; [discriminate|reflexivity]]|]).
    by apply elem_of_nil in Hin. }
  - destruct Hbasic as (dirs & Hr & Hd & Hdirs & Hne & Hall).
    destruct (handle_opt_pass_cycle setting num_pass (players g) dirs Hr Hd Hdirs)
      as (np & nw & Hh).
    rewrite forallb_forall in Hall.
    destruct (nth_dir_elem_of dirs round Hne) as (dir & Hnth & Hdir).
    destruct (set_pass_basic dir g) as [g' Hs].
    { apply list_elem_of_In in Hdir. specialize (Hall dir Hdir).
      by apply bool_decide_eq_true_1 in Hall. }
    by exists np, nw, dirs, dir, g'.
  - set (n := length (players g)).
    set (dirs := ["left"] ++ inner ((λ i, "left-" +:+ decimal i) <$> seq 1 n) ++ ["not"]).
    assert (∃ np nw, handle_opt_pass setting num_pass (players g)
                     = Some (np, nw, Cycle dirs)) as (np & nw & Hh).
    { apply handle_opt_pass_rot. by destruct Hrot as [-> | ->]. }
    destruct (nth_dir_elem_of dirs round) as (dir & Hnth & Hd); [done|].
    assert (dir = "left" ∨ dir = "not" ∨ ∃ k, dir = "left-" +:+ decimal k) as Hcases.
    { unfold dirs in Hd. apply elem_of_app in Hd as [Hd|Hd].
      { apply list_elem_of_singleton in Hd. auto. }
      apply elem_of_app in Hd as [Hd|Hd].
      - right; right. unfold inner in Hd.
        apply (subseteq_drop _ _ _) in Hd. apply (subseteq_take _ _ _) in Hd.
        apply list_elem_of_fmap in Hd as (k & -> & _). eauto.
      - apply list_elem_of_singleton in Hd. auto. }
    destruct Hcases as [->|[->|[k ->]]].
    + destruct (set_pass_basic "left" g) as [g' Hs]; [left|].
      by exists np, nw, dirs, "left", g'.
    + destruct (set_pass_basic "not" g) as [g' Hs]; [do 3 right; left|].
      by exists np, nw, dirs, "not", g'.
    + exists np, nw, dirs, ("left-" +:+ decimal k).
      eexists. split; [done|]. split; [done|].
      apply set_pass_passees; try discriminate. apply passees_decimal.
Qed.

Lemma X13_every_direction_understood_witness :
  ∃ g', set_pass "across" seats4 = Some g'.
Proof.
  destruct (X13_every_direction_understood "lran" 0 seats4 2)
    as (np & nw & dirs & dir & g' & Hh & Hnth & Hs).
  - unfold pass_dir_values. do 8 right. left.
  - vm_compute in Hh. inversion Hh; subst np nw dirs; clear Hh.
    vm_compute in Hnth. inversion Hnth; subst dir; clear Hnth.
    by exists g'.
Defined.

(** * Passing cards *)

(** ** The cards that may be passed *)

Lemma pass_errors_nil (ks : bool) (hand : list Card) (cards : list string) :
  pass_errors ks hand cards = [] ↔
  ∀ card, card ∈ cards →
    contains card hand = true ∧ (ks = true → card ∉ ["QS"; "KS"; "AS"]).
Proof.
  unfold pass_errors. induction cards as [|c cards IH].
  - split; [|done]. intros _ card Hin. by apply elem_of_nil in Hin.
  - rewrite bind_cons. split.
    + intros [Hc Hrest]%app_eq_nil card Hin.
      apply elem_of_cons in Hin as [Heq|Hin]; [subst card|by apply IH].
      destruct (contains c hand); [|done]. split; [done|].
      intros ->. simpl in Hc. by case_bool_decide.
    + intros Hall.
      rewrite (proj2 IH), app_nil_r by (intros card Hin; apply Hall; by right).
      destruct (Hall c) as [-> Hks]; [left|]. simpl.
      destruct ks; [|done]. simpl.
      by rewrite bool_decide_eq_false_2 by auto.
Qed.

(** X14.  The cards that may be passed.  [do_pass] reports an error and
    leaves the game as it is, the player being asked again, if one of the
    cards named is not in the hand of the player or, under keep-spades,
    is the queen, the king or the ace of spades; and it reports no error
    if every card named is in the hand and none is such a spade. *)
Theorem X14_do_pass_rejects (shuffle : list Card → list Card) (arguments : string)
    (t : Passing) (player : string) (hand : list Card) :
  py_nth (players (base t)) (player_index (base t)) = Some player →
  hands (base t) !! player = Some hand →
  ((∃ card, card ∈ upper <$> card_re_findall arguments
            ∧ (contains card hand = false
               ∨ (keep_spades t = true ∧ card ∈ ["QS"; "KS"; "AS"]))) →
   ∃ errors, do_pass shuffle arguments t = Some (t, errors) ∧ errors ≠ [])
  ∧ ((∀ card, card ∈ upper <$> card_re_findall arguments →
        contains card hand = true
        ∧ (keep_spades t = true → card ∉ ["QS"; "KS"; "AS"])) →
     ∀ t' errors, do_pass shuffle arguments t = Some (t', errors) → errors = []).
Proof.
  intros Hplayer Hhand. unfold do_pass. rewrite Hplayer. simpl.
  rewrite Hhand. simpl. split.
  - intros (card & Hin & Hbad).
    assert (pass_errors (keep_spades t) hand (upper <$> card_re_findall arguments) ≠ [])
      as Hne.
    { rewrite pass_errors_nil. intros Hall. destruct (Hall card Hin) as [Hc Hks].
      destruct Hbad as [Hbad|[Hk Hbad]]; [congruence|by apply Hks]. }
    rewrite (bool_decide_eq_false_2 _ Hne). simpl. eauto.
  - intros Hall%pass_errors_nil t' errors. rewrite Hall. simpl.
    destruct (shift_all _ _ _ _) as [[hands' passes']|]; [|done]. simpl.
    destruct (all_passed passes'); [|by intros [= _ <-]].
    destruct (pass_cards _ _) as [t1|]; [|done]. simpl.
    destruct (first_player _ _); [|done]. simpl. by intros [= _ <-].
Qed.

Lemma X14_do_pass_rejects_witness :
  (∃ errors, do_pass id "qs" (Pass.asked true None Pass.first)
             = Some (Pass.asked true None Pass.first, errors) ∧ errors ≠ [])
  ∧ (∃ errors, do_pass id "3C" (Pass.asked false None Pass.first)
               = Some (Pass.asked false None Pass.first, errors) ∧ errors ≠ []).
Proof.
  split.
  - apply (X14_do_pass_rejects id "qs" (Pass.asked true None Pass.first) "Ann"
             (Table.cards_of ["2C"; "QS"; "AH"]));
      [vm_compute; reflexivity|vm_compute; reflexivity|].
    exists "QS". split; [vm_compute; left|]. right. split; [reflexivity|left].
  - apply (X14_do_pass_rejects id "3C" (Pass.asked false None Pass.first) "Ann"
             (Table.cards_of ["2C"; "QS"; "AH"]));
      [vm_compute; reflexivity|vm_compute; reflexivity|].
    exists "3C". split; [vm_compute; left|]. left. vm_compute. reflexivity.
Defined.

(** ** The cards put aside *)

Lemma index_remove `{CardKey K} (k : K) (hand : list Card) :
  ∀ i c, index k hand = Some i → hand !! i = Some c → c :: remove k hand ≡ₚ hand.
Proof.
  induction hand as [|c' hand IH]; intros i c; simpl; [done|].
  destruct (card_eqb c' k).
  - by intros [= <-] [= <-].
  - destruct (index k hand) as [j|]; [|done]. simpl. intros [= <-] Hc.
    rewrite Permutation_swap. by rewrite (IH j c).
Qed.

(** What [Hand.shift] moves. *)
Lemma shift_inv `{CardKey K} (k : K) (hand other hand' other' : list Card) :
  shift k hand other = Some (hand', other') →
  ∃ c, c ∈ hand ∧ card_eqb c k = true ∧ other' = other ++ [c]
       ∧ c :: hand' ≡ₚ hand.
Proof.
  unfold shift. intros Hs.
  destruct (index k hand) as [i|] eqn:Hi; [|done]. simpl in Hs.
  destruct (index_inv _ _ _ Hi) as (c & Hc & He). rewrite Hc in Hs. simpl in Hs.
  inversion Hs; subst hand' other'; clear Hs.
  exists c. repeat split; try done.
  - by eapply list_elem_of_lookup_2.
  - by apply (index_remove k hand i).
Qed.

Lemma shift_all_spec (cards : list string) (player : string) :
  ∀ hands passes hands' passes' hand stack,
    shift_all cards player hands passes = Some (hands', passes') →
    hands !! player = Some hand →
    passes !! player = Some stack →
    ∃ cs hand',
      up_text <$> cs = cards
      ∧ hands' = <[player := hand']> hands
      ∧ passes' = <[player := stack ++ cs]> passes
      ∧ cs ++ hand' ≡ₚ hand.
Proof.
  induction cards as [|card cards IH]; intros hands passes hands' passes' hand stack;
    simpl.
  - intros [= <- <-] Hh Hp. exists [], hand.
    by rewrite app_nil_r, !insert_id.
  - intros Hs Hh Hp. rewrite Hh, Hp in Hs. simpl in Hs.
    destruct (shift card hand stack) as [[hand1 stack1]|] eqn:Hshift; [|done].
    simpl in Hs.
    apply shift_inv in Hshift as (c & Hin & He & -> & Hperm).
    apply bool_decide_eq_true_1 in He.
    destruct (IH _ _ _ _ hand1 (stack ++ [c]) Hs) as (cs & hand' & Hcs & -> & -> & Hp');
      [apply lookup_insert_eq..|].
    exists (c :: cs), hand'. rewrite !insert_insert_eq, <- app_assoc. simpl.
    repeat split; try done.
    + rewrite He. f_equal. exact Hcs.
    + by rewrite Hp', Hperm.
Qed.

Lemma all_passed_false (passes : gmap string (list Card)) (name : string) :
  passes !! name = Some [] → all_passed passes = false.
Proof.
  intros Hn. unfold all_passed. apply not_true_is_false.
  rewrite forallb_forall. intros Hall.
  specialize (Hall []). rewrite bool_decide_eq_true_2 in Hall by done.
  simpl in Hall. assert (false = true) as Hf; [|done]. apply Hall.
  apply list_elem_of_In, list_elem_of_fmap. exists (name, []).
  split; [done|]. by apply elem_of_map_to_list.
Qed.

Lemma all_passed_true (passes : gmap string (list Card)) :
  (∀ name stack, passes !! name = Some stack → stack ≠ []) →
  all_passed passes = true.
Proof.
  intros Hall. unfold all_passed. apply forallb_forall. intros stack Hin.
  apply list_elem_of_In, list_elem_of_fmap in Hin as ([name s] & -> & Hin).
  apply elem_of_map_to_list in Hin. simpl.
  rewrite bool_decide_eq_false_2; [done|]. by eapply Hall.
Qed.

(** X15.  The cards put aside.  When [do_pass] accepts the cards named
    and another player has yet to pass, the cards named, each the first
    card of the hand with that text, go from the hand of the player to
    the end of the cards that the player has put aside, in the order in
    which they are named; the hand keeps its other cards, and nothing
    else changes: the game stays in the phase of the pass. *)
Theorem X15_do_pass_sets_aside (shuffle : list Card → list Card) (arguments : string)
    (t t' : Passing) (player other : string) (hand stack : list Card) :
  py_nth (players (base t)) (player_index (base t)) = Some player →
  hands (base t) !! player = Some hand →
  passes t !! player = Some stack →
  other ≠ player →
  passes t !! other = Some [] →
  do_pass shuffle arguments t = Some (t', []) →
  ∃ cs hand',
    up_text <$> cs = upper <$> card_re_findall arguments
    ∧ cs ++ hand' ≡ₚ hand
    ∧ passes t' = <[player := stack ++ cs]> (passes t)
    ∧ t' = mkPassing (with_hands (<[player := hand']> (hands (base t))) (base t))
             (keep_spades t) (low_club t) (num_pass t) (passes t').
Proof.
  intros Hplayer Hhand Hstack Hne Hother. unfold do_pass.
  rewrite Hplayer. simpl. rewrite Hhand. simpl.
  case_bool_decide as Herr; simpl; [|by intros [= _ He]].
  destruct (shift_all _ _ _ _) as [[hands' passes']|] eqn:Hs; [|done]. simpl.
  destruct (shift_all_spec _ _ _ _ _ _ hand stack Hs Hhand Hstack)
    as (cs & hand' & Hcs & -> & -> & Hperm).
  rewrite (all_passed_false _ other) by (by rewrite lookup_insert_ne).
  intros [= <-]. by exists cs, hand'.
Qed.

Lemma X15_do_pass_sets_aside_witness :
  ∃ t' cs hand',
    do_pass id "ah" (Pass.asked true None Pass.first) = Some (t', [])
    ∧ up_text <$> cs = ["AH"]
    ∧ cs ++ hand' ≡ₚ Table.cards_of ["2C"; "QS"; "AH"]
    ∧ passes t' !! "Ann" = Some cs.
Proof.
  assert (∃ t', do_pass id "ah" (Pass.asked true None Pass.first) = Some (t', []))
    as [t' Hd] by (vm_compute; eexists; reflexivity).
  destruct (X15_do_pass_sets_aside id "ah" (Pass.asked true None Pass.first) t'
              "Ann" "Bob" (Table.cards_of ["2C"; "QS"; "AH"]) [])
    as (cs & hand' & Hcs & Hp & Hst & Ht');
    [vm_compute; reflexivity|vm_compute; reflexivity|vm_compute; reflexivity
    |discriminate|vm_compute; reflexivity|exact Hd|].
  exists t', cs, hand'. split; [exact Hd|]. split; [exact Hcs|]. split; [exact Hp|].
  rewrite Hst. apply lookup_insert_eq.
Defined.

(** ** The pass from player to player *)

Lemma pass_ready_lookup (t : Passing) (name : string) :
  pass_ready t = true → name ∈ players (base t) →
  is_Some (hands (base t) !! name) ∧ is_Some (passes t !! name).
Proof.
  unfold pass_ready. rewrite !andb_true_iff, forallb_forall.
  intros [[Hs Hall] _] Hin. split; [by apply seated_lookup|].
  eapply bool_decide_eq_true_1, Hall. by apply list_elem_of_In.
Qed.

Lemma pass_ready_inv (t : Passing) :
  pass_ready t = true →
  NoDup (players (base t)) ∧ human (base t) ∈ players (base t).
Proof.
  unfold pass_ready. rewrite !andb_true_iff.
  intros [[Hs _] Hh]. split; [by apply seated_NoDup|].
  by apply bool_decide_eq_true_1 in Hh.
Qed.

Lemma one_to_one_inv (g : Hearts) :
  one_to_one g = true →
  (∀ p, p ∈ players g → ∃ q, q ∈ players g ∧ pass_to g !! p = Some q)
  ∧ (∀ p p' q, p ∈ players g → p' ∈ players g →
       pass_to g !! p = Some q → pass_to g !! p' = Some q → p = p').
Proof.
  unfold one_to_one. rewrite andb_true_iff, forallb_forall.
  intros [Hall Hnd%bool_decide_eq_true_1]. split.
  - intros p Hp. apply list_elem_of_In in Hp. specialize (Hall p Hp).
    destruct (pass_to g !! p) as [q|]; [|done].
    apply bool_decide_eq_true_1 in Hall. eauto.
  - intros p p' q [i Hi]%list_elem_of_lookup_1 [j Hj]%list_elem_of_lookup_1 Hp Hp'.
    assert (i = j) as ->; [|congruence].
    apply (NoDup_lookup _ i j (Some q) Hnd); rewrite list_lookup_fmap.
    + by rewrite Hi; simpl; rewrite Hp.
    + by rewrite Hj; simpl; rewrite Hp'.
Qed.

Lemma pass_direct_spec (pass_to : gmap string string) (names : list string) :
  ∀ hands passes,
    NoDup names →
    (∀ p, p ∈ names → ∃ q, pass_to !! p = Some q ∧ is_Some (hands !! q)) →
    (∀ p, p ∈ names → is_Some (passes !! p)) →
    (∀ p p' q, p ∈ names → p' ∈ names →
       pass_to !! p = Some q → pass_to !! p' = Some q → p = p') →
    ∃ hands' passes',
      pass_direct names pass_to hands passes = Some (hands', passes')
      ∧ (∀ p, p ∈ names → passes' !! p = Some [])
      ∧ (∀ p, p ∉ names → passes' !! p = passes !! p)
      ∧ (∀ p q, p ∈ names → pass_to !! p = Some q →
           hands' !! q = (λ hand, hand ++ default [] (passes !! p)) <$> hands !! q)
      ∧ (∀ q, (∀ p, p ∈ names → pass_to !! p ≠ Some q) → hands' !! q = hands !! q).
Proof.
  induction names as [|pass_from names IH]; intros hands passes Hnd Hto Hst Hinj.
  - exists hands, passes. split; [done|].
    split; [intros p Hp; by apply elem_of_nil in Hp|]. split; [done|].
    split; [intros p q Hp; by apply elem_of_nil in Hp|done].
  - apply NoDup_cons in Hnd as [Hfresh Hnd].
    destruct (Hto pass_from) as (to & Hpt & [hand Hhand]); [left|].
    destruct (Hst pass_from) as [stack Hstack]; [left|].
    destruct (IH (<[to := hand ++ stack]> hands) (<[pass_from := []]> passes))
      as (hands' & passes' & Hd & Hempty & Hkeep & Hgot & Hrest); [done|..].
    { intros p Hp. destruct (Hto p) as (q & Hq & Hh); [by right|].
      exists q. split; [done|]. destruct (decide (to = q)) as [->|Hne].
      - rewrite lookup_insert_eq. eauto.
      - by rewrite lookup_insert_ne. }
    { intros p Hp. rewrite lookup_insert_ne; [apply Hst; by right|].
      by intros ->. }
    { intros p p' q Hp Hp'. apply Hinj; by right. }
    assert (∀ p, p ∈ names → pass_to !! p ≠ Some to) as Hother.
    { intros p Hp Hq. assert (p = pass_from) as ->; [|done].
      apply (Hinj p pass_from to); [by right|left|done|done]. }
    exists hands', passes'. simpl. rewrite Hpt. simpl. rewrite Hhand. simpl.
    rewrite Hstack. simpl. split; [done|]. repeat split.
    + intros p [->|Hp]%elem_of_cons; [|by apply Hempty].
      rewrite Hkeep by done. apply lookup_insert_eq.
    + intros p [Hne Hp]%not_elem_of_cons. rewrite Hkeep by done.
      by rewrite lookup_insert_ne.
    + intros p q [->|Hp]%elem_of_cons Hq.
      * rewrite Hpt in Hq. inversion Hq; subst q.
        rewrite (Hrest to Hother), lookup_insert_eq, Hhand, Hstack. done.
      * rewrite (Hgot p q Hp Hq).
        assert (q ≠ to) as Hne by (intros ->; by apply (Hother p)).
        rewrite (lookup_insert_ne hands) by congruence.
        rewrite (lookup_insert_ne passes); [done|]. by intros ->.
    + intros q Hq. rewrite Hrest.
      * rewrite lookup_insert_ne; [done|]. intros ->. apply (Hq pass_from); [left|done].
      * intros p Hp. apply Hq. by right.
Qed.

Lemma pass_direct_keeps (pass_to : gmap string string) (names : list string) :
  ∀ hands passes hands' passes' name,
    pass_direct names pass_to hands passes = Some (hands', passes') →
    is_Some (hands !! name) → is_Some (hands' !! name).
Proof.
  induction names as [|pass_from names IH]; intros hands passes hands' passes' name;
    simpl.
  - by intros [= <- <-].
  - destruct (pass_to !! pass_from) as [to|]; [|done]. simpl.
    destruct (hands !! to) as [hand|]; [|done]. simpl.
    destruct (passes !! pass_from) as [stack|]; [|done]. simpl.
    intros Hd Hn. apply (IH _ _ _ _ _ Hd).
    destruct (decide (to = name)) as [->|Hne].
    + rewrite lookup_insert_eq. eauto.
    + by rewrite lookup_insert_ne.
Qed.

(** X16.  The pass from player to player.  In a pass that goes neither
    to the center nor to all, when every player passes to a player and no
    two to the same, [pass_cards] gives each passee the cards that the
    passer has put aside: the new hand is the old hand with these cards
    at its end, sorted; and every stack of cards put aside is left
    empty. *)
Theorem X16_pass_player_to_player (shuffle : list Card → list Card) (t : Passing) :
  this_pass (base t) ≠ "center" →
  this_pass (base t) ≠ "scatter" →
  pass_ready t = true →
  one_to_one (base t) = true →
  ∃ t',
    pass_cards shuffle t = Some t'
    ∧ (∀ p q hand stack,
         p ∈ players (base t) → pass_to (base t) !! p = Some q →
         hands (base t) !! q = Some hand → passes t !! p = Some stack →
         hands (base t') !! q = Some (sorted_hand (hand ++ stack))
         ∧ passes t' !! p = Some [])
    ∧ t' = mkPassing (with_hands (hands (base t')) (base t)) (keep_spades t)
             (low_club t) (num_pass t) (passes t').
Proof.
  intros Hc Hs Hready Hone.
  destruct (pass_ready_inv t Hready) as [Hnd Hhuman].
  destruct (one_to_one_inv _ Hone) as [Hto Hinj].
  destruct (pass_direct_spec (pass_to (base t)) (players (base t)) (hands (base t))
              (passes t)) as (hands' & passes' & Hd & Hempty & _ & Hgot & _);
    [done| | |done|].
  { intros p Hp. destruct (Hto p Hp) as (q & Hq & Hpq). exists q. split; [done|].
    by apply (pass_ready_lookup t q Hready). }
  { intros p Hp. by apply (pass_ready_lookup t p Hready). }
  assert (is_Some (hands' !! human (base t))) as [got Hhg].
  { apply (pass_direct_keeps _ _ _ _ _ _ _ Hd).
    by apply (pass_ready_lookup t _ Hready). }
  eexists. split.
  - unfold pass_cards.
    rewrite (bool_decide_eq_false_2 _ Hc), (bool_decide_eq_false_2 _ Hs).
    rewrite Hd. simpl. rewrite Hhg. simpl. reflexivity.
  - simpl. split; [|done].
    intros p q hand stack Hp Hpq Hhand Hstack. split; [|by apply Hempty].
    rewrite lookup_fmap, (Hgot p q Hp Hpq), Hhand, Hstack. done.
Qed.

Lemma X16_pass_player_to_player_witness :
  ∃ t', pass_cards id (Pass.asked false None Pass.last) = Some t'
        ∧ hands (base t') !! "Ann"
          = Some (sorted_hand (Table.cards_of ["2C"; "QS"; "AH"; "8S"]))
        ∧ passes t' !! "Dan" = Some [].
Proof.
  destruct (X16_pass_player_to_player id (Pass.asked false None Pass.last))
    as (t' & Hp & Hgot & _); [discriminate|discriminate|vm_compute; reflexivity..|].
  exists t'. split; [exact Hp|].
  apply (Hgot "Dan" "Ann" (Table.cards_of ["2C"; "QS"; "AH"]) (Table.cards_of ["8S"]));
    [vm_compute; do 3 right; left|vm_compute; reflexivity..].
Defined.

(** ** The pass keeps the cards *)

Lemma perm_count (l1 l2 : list Card) :
  l1 ≡ₚ l2 ↔ ∀ x, count_occ Card_eq_dec l1 x = count_occ Card_eq_dec l2 x.
Proof. apply Permutation_count_occ. Qed.

(** Two piles change and the cards taken from one are those added to
    the other. *)
Lemma perm_exchange (A A1 B B1 o1 n1 o2 n2 : list Card) :
  A1 ++ o1 ≡ₚ A ++ n1 → B1 ++ o2 ≡ₚ B ++ n2 → n1 ++ n2 ≡ₚ o1 ++ o2 →
  A1 ++ B1 ≡ₚ A ++ B.
Proof.
  rewrite !perm_count. intros H1 H2 H3 x.
  specialize (H1 x). specialize (H2 x). specialize (H3 x).
  rewrite !count_occ_app in *. lia.
Qed.

Lemma held_insert_notin (names : list string) (m : gmap string (list Card))
    (p : string) (new : list Card) :
  p ∉ names → held names (<[p := new]> m) = held names m.
Proof.
  unfold held. induction names as [|q names IH]; [done|].
  intros [Hne Hp]%not_elem_of_cons. rewrite !bind_cons.
  rewrite lookup_insert_ne by done. by rewrite IH.
Qed.

Lemma held_replace (names : list string) (m : gmap string (list Card))
    (p : string) (old new : list Card) :
  NoDup names → p ∈ names → m !! p = Some old →
  held names (<[p := new]> m) ++ old ≡ₚ held names m ++ new.
Proof.
  intros Hnd Hin Hp. induction names as [|q names IH]; [by inversion Hin|].
  apply NoDup_cons in Hnd as [Hq Hnd].
  change (held (q :: names) ?x) with (default [] (x !! q) ++ held names x).
  destruct (decide (q = p)) as [->|Hne].
  - rewrite lookup_insert_eq, Hp, held_insert_notin by done. simpl.
    apply perm_count. intros x. rewrite !count_occ_app. lia.
  - apply elem_of_cons in Hin as [->|Hin]; [done|].
    rewrite lookup_insert_ne by done. rewrite <- !app_assoc.
    by rewrite (IH Hnd Hin).
Qed.

Section Conserve.
Context (all : list string).
Hypothesis Hnd : NoDup all.

Lemma pass_direct_conserves (pass_to : gmap string string) (names : list string) :
  ∀ hands passes hands' passes',
    names ⊆ all →
    (∀ p q, p ∈ names → pass_to !! p = Some q → q ∈ all) →
    pass_direct names pass_to hands passes = Some (hands', passes') →
    held all hands' ++ held all passes' ≡ₚ held all hands ++ held all passes.
Proof.
  induction names as [|pass_from names IH]; intros hands passes hands' passes' Hsub Hto;
    simpl.
  - by intros [= <- <-].
  - destruct (pass_to !! pass_from) as [to|] eqn:Hpt; [|done]. simpl.
    destruct (hands !! to) as [hand|] eqn:Hhand; [|done]. simpl.
    destruct (passes !! pass_from) as [stack|] eqn:Hstack; [|done]. simpl.
    intros Hd.
    assert (names ⊆ all) as Hsub' by (intros p Hp; apply Hsub; by right).
    assert (∀ p q, p ∈ names → pass_to !! p = Some q → q ∈ all) as Hto'
      by (intros p q Hp; apply Hto; by right).
    rewrite (IH _ _ _ _ Hsub' Hto' Hd).
    apply (perm_exchange _ _ _ _ hand (hand ++ stack) stack []).
    + apply held_replace; [done| |done]. apply (Hto pass_from); [left|done].
    + apply held_replace; [done| |done]. apply Hsub. left.
    + by rewrite app_nil_r.
Qed.

Lemma scatter_from_conserves (pass_from : string) (names : list string) :
  ∀ hands passes hands' passes',
    pass_from ∈ all → names ⊆ all →
    scatter_from pass_from names hands passes = Some (hands', passes') →
    held all hands' ++ held all passes' ≡ₚ held all hands ++ held all passes.
Proof.
  induction names as [|to names IH]; intros hands passes hands' passes' Hfrom Hsub;
    simpl.
  - by intros [= <- <-].
  - assert (names ⊆ all) as Hsub' by (intros p Hp; apply Hsub; by right).
    case_bool_decide; [by apply IH|].
    destruct (hands !! to) as [hand|] eqn:Hhand; [|done]. simpl.
    destruct (passes !! pass_from) as [[|card stack]|] eqn:Hstack; [done| |done].
    simpl. intros Hd. rewrite (IH _ _ _ _ Hfrom Hsub' Hd).
    apply (perm_exchange _ _ _ _ hand (hand ++ [card]) (card :: stack) stack).
    + apply held_replace; [done| |done]. apply Hsub. left.
    + by apply held_replace.
    + apply perm_count. intros x. rewrite !count_occ_app. simpl.
      destruct (Card_eq_dec card x); lia.
Qed.

Lemma pass_scatter_conserves (froms names : list string) :
  ∀ hands passes hands' passes',
    froms ⊆ all → names ⊆ all →
    pass_scatter froms names hands passes = Some (hands', passes') →
    held all hands' ++ held all passes' ≡ₚ held all hands ++ held all passes.
Proof.
  induction froms as [|pass_from froms IH]; intros hands passes hands' passes' Hf Hsub;
    simpl.
  - by intros [= <- <-].
  - destruct (scatter_from pass_from names hands passes) as [[hands1 passes1]|] eqn:Hs;
      [|done]. simpl.
    intros Hd.
    assert (froms ⊆ all) as Hf' by (intros p Hp; apply Hf; by right).
    assert (pass_from ∈ all) as Hin by (apply Hf; left).
    rewrite (IH _ _ _ _ Hf' Hsub Hd).
    apply (scatter_from_conserves _ _ _ _ _ _ Hin Hsub Hs).
Qed.

Lemma gather_conserves (names : list string) :
  ∀ passes center center' passes',
    names ⊆ all →
    gather names passes center = Some (center', passes') →
    center' ++ held all passes' ≡ₚ center ++ held all passes.
Proof.
  induction names as [|name names IH]; intros passes center center' passes' Hsub;
    simpl.
  - by intros [= <- <-].
  - destruct (passes !! name) as [stack|] eqn:Hstack; [|done]. simpl.
    intros Hg.
    assert (names ⊆ all) as Hsub' by (intros p Hp; apply Hsub; by right).
    assert (name ∈ all) as Hin by (apply Hsub; left).
    rewrite (IH _ _ _ _ Hsub' Hg).
    pose proof (held_replace all passes name stack [] Hnd Hin Hstack) as Hr.
    rewrite app_nil_r in Hr. rewrite <- Hr, <- app_assoc.
    apply Permutation_app_head, Permutation_app_comm.
Qed.

Lemma deal_center_conserves (names : list string) :
  ∀ center k hands hands',
    names ⊆ all →
    deal_center names k center hands = Some hands' →
    held all hands' ≡ₚ held all hands ++ center.
Proof.
  induction center as [|card center IH]; intros k hands hands' Hsub; simpl; [done|].
  destruct (names !! _) as [name|] eqn:Hname; [|done]. simpl.
  destruct (hands !! name) as [hand|] eqn:Hhand; [|done]. simpl.
  assert (name ∈ all) as Hin by (apply Hsub; by eapply list_elem_of_lookup_2).
  pose proof (held_replace all hands name hand (hand ++ [card]) Hnd Hin Hhand) as Hr.
  assert (held all (<[name := hand ++ [card]]> hands) ≡ₚ held all hands ++ [card]) as Hone.
  { apply perm_count. rewrite perm_count in Hr. intros x. specialize (Hr x).
    rewrite !count_occ_app in *. lia. }
  case_bool_decide as Hc.
  - intros [= <-]. by rewrite Hc.
  - intros Hd. rewrite (IH _ _ _ Hsub Hd), Hone, <- app_assoc. done.
Qed.

End Conserve.

(** X17.  The pass keeps the cards.  Whatever the direction, a call of
    [pass_cards] that returns neither loses nor makes a card: with
    distinct names at the table, a shuffle that keeps the cards and, in a
    pass from player to player, passees that are players, the cards in
    the hands and in the stacks of the players after the call are those
    before it, each as often. *)
Theorem X17_pass_keeps_the_cards (shuffle : list Card → list Card) (t t' : Passing) :
  NoDup (players (base t)) →
  (∀ cards, shuffle cards ≡ₚ cards) →
  (this_pass (base t) = "center" ∨ this_pass (base t) = "scatter"
   ∨ ∀ p q, p ∈ players (base t) → pass_to (base t) !! p = Some q →
            q ∈ players (base t)) →
  pass_cards shuffle t = Some t' →
  held (players (base t')) (hands (base t')) ++ held (players (base t')) (passes t')
  ≡ₚ held (players (base t)) (hands (base t)) ++ held (players (base t)) (passes t).
Proof.
  intros Hnd Hshuffle Hto. unfold pass_cards.
  set (names := players (base t)).
  assert (∀ hands' passes',
            (if bool_decide (this_pass (base t) = "center") then
               '(center, passes') ← gather names (passes t) [];
               hands' ← (if bool_decide (names = []) then Some (hands (base t))
                         else deal_center names 0 (reverse (shuffle center))
                                (hands (base t)));
               Some (hands', passes')
             else if bool_decide (this_pass (base t) = "scatter") then
               pass_scatter names names (hands (base t)) (passes t)
             else pass_direct names (pass_to (base t)) (hands (base t)) (passes t))
            = Some (hands', passes') →
            held names hands' ++ held names passes'
            ≡ₚ held names (hands (base t)) ++ held names (passes t)) as Hmoves.
  { intros hands' passes'. case_bool_decide as Hc.
    - destruct (gather names (passes t) []) as [[center passes1]|] eqn:Hg; [|done].
      simpl. apply (gather_conserves names Hnd) in Hg; [|done]. simpl in Hg.
      case_bool_decide as Hn.
      + intros [= <- <-]. unfold names in *. rewrite Hn in Hg |- *.
        unfold held in *. simpl in *. by rewrite app_nil_r in Hg.
      + destruct (deal_center _ _ _ _) as [hands1|] eqn:Hd; [|done]. simpl.
        intros [= <- <-].
        apply (deal_center_conserves names Hnd) in Hd; [|done].
        rewrite Hd, reverse_Permutation, Hshuffle, <- app_assoc, Hg.
        done.
    - case_bool_decide as Hs.
      + by apply (pass_scatter_conserves names Hnd).
      + apply (pass_direct_conserves names Hnd); [done|].
        destruct Hto as [?|[?|Hto]]; done. }
  destruct (if bool_decide (this_pass (base t) = "center") then _ else _)
    as [[hands' passes']|]; [|done].
  simpl. destruct (hands' !! human (base t)); [|done]. simpl.
  intros [= <-]. simpl. fold names. rewrite held_sorted. by apply Hmoves.
Qed.

Lemma X17_pass_keeps_the_cards_witness :
  ∃ t', pass_cards id (Pass.asked false None Pass.last) = Some t'
        ∧ held Table.names (hands (base t')) ++ held Table.names (passes t')
          ≡ₚ Table.cards_of ["2C"; "QS"; "AH"; "3C"; "5D"; "7S"; "4C"; "6D"; "8S"].
Proof.
  assert (∃ t', pass_cards id (Pass.asked false None Pass.last) = Some t') as [t' Hp]
    by (vm_compute; eexists; reflexivity).
  exists t'. split; [exact Hp|].
  assert (players (base t') = Table.names) as Hn.
  { assert (pass_cards id (Pass.asked false None Pass.last) ≫= (λ t, Some (players (base t)))
            = Some Table.names) as H by (vm_compute; reflexivity).
    rewrite Hp in H. by inversion H. }
  rewrite <- Hn.
  rewrite (X17_pass_keeps_the_cards id (Pass.asked false None Pass.last) t').
  - vm_compute. reflexivity.
  - apply (bool_decide_unpack _). vm_compute. exact I.
  - done.
  - right; right. intros p q Hin.
    repeat (apply elem_of_cons in Hin as [->|Hin];
            [vm_compute; intros [= <-]; set_solver|]).
    by apply elem_of_nil in Hin.
  - exact Hp.
Defined.

(** ** The first to play *)

Lemma find_holder_spec (club : Card) (hands : gmap string (list Card))
    (names : list string) :
  ∀ prev holder,
    find_holder club names hands prev = Some holder →
    (∃ i hand,
       names !! i = Some holder ∧ hands !! holder = Some hand ∧ club ∈ hand
       ∧ ∀ j p h, (j < i)%nat → names !! j = Some p → hands !! p = Some h → club ∉ h)
    ∨ (holder = default prev (last names)
       ∧ ∀ p h, p ∈ names → hands !! p = Some h → club ∉ h).
Proof.
  induction names as [|name names IH]; intros prev holder; simpl.
  - intros [= <-]. right. split; [done|]. intros p h Hp. by apply elem_of_nil in Hp.
  - destruct (hands !! name) as [hand|] eqn:Hhand; [|done]. simpl.
    destruct (contains club hand) eqn:Hc.
    + intros [= <-]. left. exists 0%nat, hand.
      repeat split; try done; [by apply contains_elem_of|]. intros j; lia.
    + assert (club ∉ hand) as Hnot.
      { intros Hin%contains_elem_of. congruence. }
      intros [(i & hand' & Hi & Hh & Hin & Hfirst)|[-> Hnone]]%IH.
      * left. exists (S i), hand'. repeat split; try done.
        intros [|j] p h Hj; simpl.
        -- intros [= <-] Hp. congruence.
        -- apply Hfirst. lia.
      * right. split.
        -- rewrite last_cons. by destruct (last names).
        -- intros p h [->|Hp]%elem_of_cons Hh; [congruence|by eapply Hnone].
Qed.

(** X18.  The first to play.  When [do_pass] accepts the cards of the
    last player to pass, every other player having put cards aside, the
    cards named go from the hand of the player to the cards put aside,
    the cards are passed as [pass_cards] passes them, and the phase
    becomes the play of the tricks; but for the phase and the turn, the
    game is as [pass_cards] leaves it.  With the option low-club the turn
    is set so that the next to play is the first player, in the order of
    the seats, who holds the low club after the pass, or the last player
    if no player holds it; without the option it is the player that
    [dealer] names, who is to deal next. *)
Theorem X18_first_to_play (shuffle : list Card → list Card) (arguments : string)
    (t t' : Passing) (player : string) (hand stack : list Card) :
  NoDup (players (base t)) →
  py_nth (players (base t)) (player_index (base t)) = Some player →
  hands (base t) !! player = Some hand →
  passes t !! player = Some stack →
  card_re_findall arguments ≠ [] →
  (∀ other s, other ≠ player → passes t !! other = Some s → s ≠ []) →
  do_pass shuffle arguments t = Some (t', []) →
  ∃ cs hand' t1,
    up_text <$> cs = upper <$> card_re_findall arguments
    ∧ cs ++ hand' ≡ₚ hand
    ∧ pass_cards shuffle
        (mkPassing (with_hands (<[player := hand']> (hands (base t))) (base t))
           (keep_spades t) (low_club t) (num_pass t)
           (<[player := stack ++ cs]> (passes t))) = Some t1
    ∧ t' = with_base (with_player_index (player_index (base t'))
                        (with_phase "trick" (base t1))) t1
    ∧ phase (base t') = "trick"
    ∧ players (base t') = players (base t)
    ∧ match low_club t with
      | Some club =>
          (∀ i holder hand,
             players (base t) !! i = Some holder →
             hands (base t') !! holder = Some hand → club ∈ hand →
             (∀ j p h, (j < i)%nat → players (base t) !! j = Some p →
                       hands (base t') !! p = Some h → club ∉ h) →
             player_index (base t') = Z.of_nat i - 1)
          ∧ ((∀ p h, p ∈ players (base t) → hands (base t') !! p = Some h → club ∉ h) →
             player_index (base t') = Z.of_nat (length (players (base t))) - 2)
      | None =>
          ∀ i, players (base t) !! i = Some (dealer (base t)) →
               player_index (base t') = Z.of_nat i - 1
      end.
Proof.
  intros Hnd Hplayer Hhand Hstack Hcards Hothers. unfold do_pass.
  rewrite Hplayer. simpl. rewrite Hhand. simpl.
  case_bool_decide as Herr; simpl; [|by intros [= _ ?]].
  destruct (shift_all _ _ _ _) as [[hands1 passes1]|] eqn:Hs; [|done]. simpl.
  destruct (shift_all_spec _ _ _ _ _ _ hand stack Hs Hhand Hstack)
    as (cs & hand' & Hcs & -> & -> & Hperm).
  rewrite all_passed_true.
  2:{ intros name s. destruct (decide (name = player)) as [->|Hne].
      - rewrite lookup_insert_eq. intros [= <-] [_ ->]%app_eq_nil.
        apply Hcards. apply (fmap_nil_inv upper). by rewrite <- Hcs.
      - rewrite lookup_insert_ne by done. by apply Hothers. }
  destruct (pass_cards _ _) as [t1|] eqn:Hp; [|done]. simpl.
  destruct (pass_cards_inv _ _ _ Hp) as (hands2 & passes2 & Ht1).
  simpl in Ht1. subst t1. simpl.
  destruct (first_player _ _) as [index|] eqn:Hfp; [|done]. simpl.
  intros [= <-]. simpl. exists cs, hand'. eexists.
  split; [exact Hcs|]. split; [exact Hperm|]. split; [exact Hp|].
  split; [reflexivity|]. split; [reflexivity|]. split; [reflexivity|].
  unfold first_player in Hfp. simpl in Hfp.
  destruct (low_club t) as [club|].
  - destruct (find_holder club (players (base t)) hands2 player) as [holder|] eqn:Hf;
      [|done]. simpl in Hfp.
    destruct (list_index holder (players (base t))) as [i'|] eqn:Hi'; [|done].
    simpl in Hfp. injection Hfp as <-.
    apply index_from_lookup in Hi' as [_ Hi']. rewrite Nat.sub_0_r in Hi'.
    apply find_holder_spec in Hf as [(i & hand1 & Hi & Hh & Hin & Hfirst)|[-> Hnone]].
    + assert (i' = i) as -> by exact (NoDup_lookup _ _ _ _ Hnd Hi' Hi).
      split.
      * intros k holder' hand'' Hk Hh' Hin' Hfirst'.
        destruct (Nat.lt_trichotomy k i) as [Hlt|[->|Hgt]]; [|done|].
        -- exfalso. by apply (Hfirst k holder' hand'' Hlt Hk Hh').
        -- exfalso. by apply (Hfirst' i holder hand1 Hgt Hi Hh).
      * intros Hnone. exfalso. apply (Hnone holder hand1); [|done|done].
        by eapply list_elem_of_lookup_2.
    + assert (players (base t) ≠ []) as Hne.
      { intros Hnil. rewrite Hnil in Hi'. by rewrite lookup_nil in Hi'. }
      assert (i' = (length (players (base t)) - 1)%nat) as ->.
      { apply (NoDup_lookup _ _ _ _ Hnd Hi').
        replace (length (players (base t)) - 1)%nat
          with (pred (length (players (base t)))) by lia.
        rewrite <- last_lookup.
        destruct (last (players (base t))) as [p|] eqn:Hl; [done|].
        by apply last_None in Hl. }
      split.
      * intros k holder' hand'' Hk Hh' Hin' _. exfalso.
        apply (Hnone holder' hand''); [|done|done]. by eapply list_elem_of_lookup_2.
      * intros _. destruct (players (base t)); [done|]. simpl length. lia.
  - destruct (list_index (dealer (base t)) (players (base t))) as [i'|] eqn:Hi'; [|done].
    simpl in Hfp. injection Hfp as <-.
    intros i Hi.
    apply index_from_lookup in Hi' as [_ Hi']. rewrite Nat.sub_0_r in Hi'.
    by rewrite (NoDup_lookup _ _ _ _ Hnd Hi' Hi).
Qed.

Lemma X18_first_to_play_witness :
  ∃ t' t1,
    do_pass id "ah" (Pass.asked false (Some Lead.C2) Pass.last) = Some (t', [])
    ∧ t' = with_base (with_player_index (player_index (base t'))
                        (with_phase "trick" (base t1))) t1
    ∧ phase (base t') = "trick"
    ∧ player_index (next_player (base t')) = 0.
Proof.
  assert (∃ t', do_pass id "ah" (Pass.asked false (Some Lead.C2) Pass.last)
                = Some (t', [])) as [t' Hd] by (vm_compute; eexists; reflexivity).
  assert (do_pass id "ah" (Pass.asked false (Some Lead.C2) Pass.last)
          ≫= (λ r, Some (hands (base r.1) !! "Ann"))
          = Some (Some (sorted_hand (Table.cards_of ["2C"; "QS"; "8S"]))))
    as Hfacts by (vm_compute; reflexivity).
  rewrite Hd in Hfacts. simpl in Hfacts. injection Hfacts as Hann.
  destruct (X18_first_to_play id "ah" (Pass.asked false (Some Lead.C2) Pass.last) t'
              "Ann" (Table.cards_of ["2C"; "QS"; "AH"]) [])
    as (cs & hand' & t1 & _ & _ & _ & Ht' & Hphase & Hplayers & Hfirst & _);
    [apply (bool_decide_unpack _); vm_compute; exact I|vm_compute; reflexivity
    |vm_compute; reflexivity|vm_compute; reflexivity|vm_compute; discriminate
    |
    |exact Hd|].
  { intros other s Hne Hs Hnil. subst s. revert Hs.
    change (passes (Pass.asked false (Some Lead.C2) Pass.last))
      with (list_to_map (zip Table.names Pass.last.2) : gmap string (list Card)).
    intros Hs%elem_of_list_to_map_2. simpl in Hs.
    repeat (apply elem_of_cons in Hs as [Heq|Hs]; [inversion Heq; congruence|]).
    by apply elem_of_nil in Hs. }
  exists t', t1. split; [exact Hd|]. split; [exact Ht'|]. split; [exact Hphase|].
  unfold next_player. simpl. rewrite Hplayers.
  rewrite (Hfirst 0%nat "Ann" _ eq_refl Hann).
  - vm_compute. reflexivity.
  - vm_compute. left.
  - intros j p h Hj. lia.
Defined.

(** * The options of the deal and of the play *)

(** ** Jokers for the cards over *)

Lemma add_jokers_spec (n : nat) :
  n ≠ 0%nat →
  ∀ fuel k deck,
    ((n - length deck mod n) mod n ≤ fuel)%nat →
    add_jokers fuel k n deck
    = Some (deck ++ ((λ i, mkCard "X" (if Nat.even i then "C" else "D"))
                       <$> seq k ((n - length deck mod n) mod n))).
Proof.
  intros Hn. induction fuel as [|fuel IH]; intros k deck Hfuel.
  - assert (length deck mod n = 0)%nat as Hz.
    { pose proof (Nat.mod_upper_bound (length deck) n Hn).
      destruct (decide (length deck mod n = 0)%nat) as [?|Hnz]; [done|].
      rewrite Nat.mod_small in Hfuel by lia. lia. }
    simpl. rewrite bool_decide_eq_true_2 by done.
    rewrite Hz, Nat.sub_0_r, Nat.Div0.mod_same. simpl. by rewrite app_nil_r.
  - simpl. case_bool_decide as Hz.
    + rewrite Hz, Nat.sub_0_r, Nat.Div0.mod_same. simpl. by rewrite app_nil_r.
    + pose proof (Nat.mod_upper_bound (length deck) n Hn) as Hlt.
      set (r := (length deck mod n)%nat) in *.
      assert ((n - r) mod n = n - r)%nat as Hsmall by (apply Nat.mod_small; lia).
      rewrite Hsmall in Hfuel |- *.
      assert (length (deck ++ [mkCard "X" (if Nat.even k then "C" else "D")]) mod n
              = (S r) mod n)%nat as Hnext.
      { rewrite length_app. simpl. rewrite Nat.add_1_r.
        rewrite <- Nat.add_1_l, <- Nat.Div0.add_mod_idemp_r. fold r.
        by rewrite Nat.add_1_l. }
      rewrite IH; rewrite Hnext.
      * rewrite <- app_assoc. f_equal.
        destruct (decide (S r = n)) as [He|Hne].
        -- rewrite He, Nat.Div0.mod_same, Nat.sub_0_r, Nat.Div0.mod_same.
           replace (n - r)%nat with 1%nat by lia. done.
        -- rewrite (Nat.mod_small (S r)) by lia.
           rewrite (Nat.mod_small (n - S r)) by lia.
           replace (n - r)%nat with (S (n - S r)) by lia. done.
      * destruct (decide (S r = n)) as [He|Hne].
        -- rewrite He, Nat.Div0.mod_same, Nat.sub_0_r, Nat.Div0.mod_same. lia.
        -- rewrite (Nat.mod_small (S r)) by lia.
           rewrite (Nat.mod_small (n - S r)) by lia. lia.
Qed.

(** X19.  Jokers for the cards over.  With the option extras at jokers
    and players at the table, [handle_opt_deal] adds to the end of the
    deck as few jokers as make the cards a multiple of the players, fewer
    than there are players and none if the deck divides already; the
    jokers are of clubs and of diamonds in turn, the first of clubs; the
    kitty setting stays as it is.  The deal of such a deck leaves no card
    over, if the deck has a card at all. *)
Theorem X19_jokers_for_the_cards_over (extras : string) (n : nat) (deck : list Card)
    (kitty : string) :
  first_char extras = Some "j"%char →
  n ≠ 0%nat →
  ∃ k,
    handle_opt_deal extras n deck kitty = Some (deck ++ jokers k, kitty)
    ∧ (k < n)%nat
    ∧ k = ((n - length deck mod n) mod n)%nat
    ∧ (length (deck ++ jokers k) mod n = 0)%nat
    ∧ ∀ shuffled g,
        deck ≠ [] →
        length shuffled = length (deck ++ jokers k) →
        length (players g) = n → seated g = true → dealer g ∈ players g →
        ∃ g', deal shuffled g = Some g' ∧ deck_cards g' = [].
Proof.
  intros Hx Hn. exists ((n - length deck mod n) mod n)%nat.
  pose proof (Nat.mod_upper_bound (length deck) n Hn) as Hlt.
  assert (length (deck ++ jokers ((n - length deck mod n) mod n)) mod n = 0)%nat as Hdiv.
  { unfold jokers. rewrite length_app, length_fmap, length_seq.
    rewrite Nat.Div0.add_mod_idemp_r.
    pose proof (Nat.div_mod_eq (length deck) n) as Hdm.
    destruct (decide (length deck mod n = 0)%nat) as [Hz|Hnz].
    - rewrite Hz, Nat.sub_0_r, Nat.add_comm. rewrite <- Nat.Div0.add_mod_idemp_l.
      by rewrite Nat.Div0.mod_same, Nat.add_0_l.
    - replace (length deck + (n - length deck mod n))%nat
        with ((length deck / n + 1) * n)%nat by lia.
      apply Nat.Div0.mod_mul. }
  split; [|split; [by apply Nat.mod_upper_bound|split; [done|split; [done|]]]].
  - unfold handle_opt_deal. rewrite Hx. simpl.
    rewrite (bool_decide_eq_false_2 _ Hn).
    rewrite add_jokers_spec by (done || (pose proof (Nat.mod_upper_bound
      (n - length deck mod n) n Hn); lia)).
    done.
  - intros shuffled g Hdeck Hlen Hplayers Hseated Hdealer.
    apply list_elem_of_lookup_1 in Hdealer as [i Hi].
    destruct (deal_spec shuffled g i Hseated Hi)
      as (hands' & next & _ & Hd & _).
    { rewrite Hplayers, Hlen.
      destruct (length (deck ++ jokers ((n - length deck mod n) mod n))) as [|m] eqn:Hm.
      - rewrite length_app in Hm. destruct deck; [done|]. simpl in Hm. lia.
      - apply Nat.Div0.mod_divides in Hdiv as [c Hc]. destruct c; lia. }
    eexists. split; [exact Hd|]. simpl.
    by rewrite Hplayers, Hlen, Hdiv.
Qed.

Lemma X19_jokers_for_the_cards_over_witness :
  handle_opt_deal "joker" 3 standard_deck ""
  = Some (standard_deck ++ [mkCard "X" "C"; mkCard "X" "D"], "").
Proof.
  destruct (X19_jokers_for_the_cards_over "joker" 3 standard_deck "")
    as (k & Hh & _ & Hk & _); [reflexivity|discriminate|].
  vm_compute in Hk. subst k. exact Hh.
Defined.

(** ** Ditching the cards over *)

Lemma contains_remove_ne (text text' : string) (deck : list Card) :
  text ≠ text' → contains text' (remove text deck) = contains text' deck.
Proof.
  intros Hne. unfold contains. induction deck as [|c deck IH]; simpl; [done|].
  destruct (card_eqb c text) eqn:He; simpl.
  - apply bool_decide_eq_true_1 in He.
    assert (card_eqb c text' = false) as ->; [|done].
    apply bool_decide_eq_false_2. congruence.
  - by rewrite IH.
Qed.

Lemma remove_length (text : string) (deck : list Card) :
  contains text deck = true → S (length (remove text deck)) = length deck.
Proof.
  unfold contains. induction deck as [|c deck IH]; simpl; [done|].
  destruct (card_eqb c text); simpl; [done|]. intros Hc. by rewrite IH.
Qed.

Lemma remove_text_Permutation (text : string) (c : Card) (deck : list Card) :
  Card_of_text text = Some c → contains text deck = true →
  c :: remove text deck ≡ₚ deck.
Proof.
  intros Hc Hin.
  assert (text = up_text c) as ->.
  { destruct text as [|r [|s [|]]]; try done. by inversion Hc. }
  rewrite contains_text in Hin. rewrite remove_text.
  apply remove_Permutation. by apply contains_elem_of.
Qed.

Lemma mod_pred (m n : nat) :
  n ≠ 0%nat → (m mod n ≠ 0)%nat → (m ≠ 0 ∧ (m - 1) mod n = m mod n - 1)%nat.
Proof.
  intros Hn Hr. pose proof (Nat.div_mod_eq m n) as Hdm.
  pose proof (Nat.mod_upper_bound m n Hn) as Hlt.
  split; [intros ->; by rewrite Nat.Div0.mod_0_l in Hr|].
  symmetry. apply (Nat.mod_unique _ _ (m / n)); lia.
Qed.

Lemma ditch_spec (n : nat) (stack : list string) :
  n ≠ 0%nat →
  ∀ deck,
    NoDup stack →
    (∀ text, text ∈ stack → contains text deck = true) →
    (length deck mod n ≤ length stack)%nat →
    ditch stack n deck = Some (without (take (length deck mod n) stack) deck)
    ∧ length (without (take (length deck mod n) stack) deck)
      = (length deck - length deck mod n)%nat.
Proof.
  intros Hn. induction stack as [|text stack IH]; intros deck Hnd Hin Hr.
  - simpl in Hr. assert (length deck mod n = 0)%nat as Hz by lia.
    simpl. rewrite bool_decide_eq_true_2 by done. rewrite Hz. simpl.
    split; [done|lia].
  - cbn [ditch]. case_bool_decide as Hz.
    + rewrite Hz. simpl. split; [done|lia].
    + apply NoDup_cons in Hnd as [Hfresh Hnd].
      unfold force. rewrite (Hin text) by left. simpl.
      pose proof (remove_length text deck (Hin text ltac:(left))) as Hl.
      destruct (mod_pred (length deck) n Hn Hz) as [Hne Hpred].
      assert (length (remove text deck) mod n = length deck mod n - 1)%nat as Hr'.
      { rewrite <- Hpred. f_equal. lia. }
      destruct (length deck mod n)%nat as [|r] eqn:Hrm; [done|].
      replace (S r - 1)%nat with r in Hr' by lia.
      destruct (IH (remove text deck) Hnd) as [Hd Hlen].
      * intros text' Hin'. rewrite contains_remove_ne by (intros ->; done).
        apply Hin. by right.
      * rewrite Hr'. simpl in Hr. lia.
      * rewrite Hr' in Hd, Hlen. cbn [take]. unfold without in *. cbn [foldl].
        rewrite Hd, Hlen. split; [done|lia].
Qed.

Lemma ditch_empty (n : nat) (stack : list string) :
  n ≠ 0%nat →
  ∀ deck, (length stack < length deck mod n)%nat → ditch stack n deck = None.
Proof.
  intros Hn. induction stack as [|text stack IH]; intros deck Hr.
  - simpl. by rewrite bool_decide_eq_false_2 by lia.
  - cbn [ditch]. rewrite bool_decide_eq_false_2 by lia.
    unfold force. destruct (contains text deck) eqn:Hc; [|done]. simpl.
    apply IH. pose proof (remove_length text deck Hc) as Hl.
    destruct (mod_pred (length deck) n Hn) as [Hne Hpred]; [lia|].
    replace (length (remove text deck)) with (length deck - 1)%nat by lia.
    rewrite Hpred. simpl in Hr. lia.
Qed.

Lemma without_Permutation (texts : list string) :
  ∀ deck,
    NoDup texts →
    (∀ text, text ∈ texts → contains text deck = true ∧ is_Some (Card_of_text text)) →
    omap Card_of_text texts ++ without texts deck ≡ₚ deck.
Proof.
  induction texts as [|text texts IH]; intros deck Hnd Hin; [done|].
  apply NoDup_cons in Hnd as [Hfresh Hnd].
  destruct (Hin text) as [Hc [c Hcard]]; [left|].
  simpl. rewrite Hcard. simpl. unfold without in IH |- *. simpl.
  rewrite IH; [by apply remove_text_Permutation|done|].
  intros text' Hin'. rewrite contains_remove_ne by (intros ->; done).
  apply Hin. by right.
Qed.

Lemma handle_opt_deal_ditch (extras : string) (n : nat) (deck : list Card)
    (kitty : string) :
  first_char extras = Some "d"%char → n ≠ 0%nat →
  handle_opt_deal extras n deck kitty
  = deck' ← ditch ["2C"; "2D"; "3C"; "3D"] n deck; Some (deck', kitty).
Proof.
  intros Hx Hn. unfold handle_opt_deal. rewrite Hx. simpl.
  by rewrite (bool_decide_eq_false_2 _ Hn).
Qed.

(** X20.  Ditching the cards over.  With the option extras at ditch,
    players at the table and a deck that has the twos and the threes of
    clubs and of diamonds, [handle_opt_deal] takes out of the deck as
    many cards as are over when the deck is divided among the players, in
    the order two of clubs, two of diamonds, three of clubs, three of
    diamonds, and no other card, so that the deck divides evenly; if more
    than four cards are over, it raises an exception, the stack of the
    cards to ditch being empty. *)
Theorem X20_ditching_the_cards_over (extras : string) (n : nat) (deck : list Card)
    (kitty : string) :
  first_char extras = Some "d"%char →
  n ≠ 0%nat →
  (∀ text, text ∈ ["2C"; "2D"; "3C"; "3D"] → contains text deck = true) →
  ((length deck mod n ≤ 4)%nat →
   ∃ deck',
     handle_opt_deal extras n deck kitty = Some (deck', kitty)
     ∧ deck' = without (take (length deck mod n) ["2C"; "2D"; "3C"; "3D"]) deck
     ∧ Table.cards_of (take (length deck mod n) ["2C"; "2D"; "3C"; "3D"]) ++ deck'
       ≡ₚ deck
     ∧ (length deck' mod n = 0)%nat)
  ∧ ((4 < length deck mod n)%nat → handle_opt_deal extras n deck kitty = None).
Proof.
  intros Hx Hn Hin.
  assert (NoDup ["2C"; "2D"; "3C"; "3D"]) as Hnd
    by (apply (bool_decide_unpack _); vm_compute; exact I).
  rewrite (handle_opt_deal_ditch _ _ _ _ Hx Hn).
  split.
  - intros Hr.
    destruct (ditch_spec n ["2C"; "2D"; "3C"; "3D"] Hn deck Hnd Hin Hr) as [Hd Hlen].
    rewrite Hd. simpl. eexists. split; [done|]. split; [done|]. split.
    + unfold Table.cards_of. apply without_Permutation.
      * eapply sublist_NoDup; [exact Hnd|apply sublist_take].
      * intros text Ht. apply (subseteq_take _ _ _) in Ht. split; [by apply Hin|].
        repeat (apply elem_of_cons in Ht as [->|Ht]; [by eexists|]).
        by apply elem_of_nil in Ht.
    + rewrite Hlen. pose proof (Nat.div_mod_eq (length deck) n) as Hdm.
      replace (length deck - length deck mod n)%nat with (length deck / n * n)%nat
        by lia.
      apply Nat.Div0.mod_mul.
  - intros Hr. by rewrite ditch_empty.
Qed.

Lemma X20_ditching_the_cards_over_witness :
  ∃ deck',
    handle_opt_deal "ditch" 5 standard_deck "" = Some (deck', "")
    ∧ Table.cards_of ["2C"; "2D"] ++ deck' ≡ₚ standard_deck
    ∧ length deck' = 50%nat.
Proof.
  destruct (X20_ditching_the_cards_over "ditch" 5 standard_deck "") as [H _];
    [reflexivity|discriminate| |].
  - intros text Ht.
    repeat (apply elem_of_cons in Ht as [->|Ht]; [vm_compute; reflexivity|]).
    by apply elem_of_nil in Ht.
  - destruct H as (deck' & Hh & Hd & Hp & _); [vm_compute; lia|].
    exists deck'. split; [exact Hh|]. split; [exact Hp|].
    rewrite Hd. vm_compute. reflexivity.
Defined.

(** ** The low club *)

Lemma sorted_by_descending (l : list Card) :
  StronglySorted (λ a b, rank_num b ≤ rank_num a)
    (sorted_by (λ a b, b <? a) rank_num l).
Proof.
  rewrite (sorted_by_ext _ _ Z.ltb (λ card, - rank_num card)).
  - eapply StronglySorted_weaken; [|apply sorted_by_sorted].
    intros a b Hab. simpl in Hab. lia.
  - intros x y. destruct (Z.ltb_spec (rank_num y) (rank_num x)),
      (Z.ltb_spec (- rank_num x) (- rank_num y)); lia.
Qed.

Lemma pop_low_spec (jf : bool) (clubs : list Card) :
  StronglySorted (λ a b, rank_num b ≤ rank_num a) clubs →
  ∀ card,
    pop_low jf (reverse clubs) = Some card →
    card ∈ clubs
    ∧ (jf = true → is_joker card = false)
    ∧ ∀ c, c ∈ clubs → (jf = true → is_joker c = false) →
           rank_num card ≤ rank_num c.
Proof.
  induction clubs as [|x clubs IH] using rev_ind; intros Hs card; [done|].
  rewrite reverse_snoc. simpl.
  apply StronglySorted_app in Hs as (Hle & Hs & _).
  destruct (jf && is_joker x) eqn:He.
  - intros (Hin & Hj & Hmin)%(IH Hs).
    split; [apply elem_of_app; by left|]. split; [done|].
    intros c [Hc|Hc%list_elem_of_singleton]%elem_of_app Hel; [by apply Hmin|].
    subst c. apply andb_true_iff in He as [-> He]. specialize (Hel eq_refl).
    congruence.
  - intros [= <-]. split; [apply elem_of_app; right; left|]. split.
    + intros ->. by simpl in He.
    + intros c [Hc|Hc%list_elem_of_singleton]%elem_of_app _; [|subst; lia].
      apply (Hle c x Hc). left.
Qed.

Lemma pop_low_total (jf : bool) (clubs : list Card) (c : Card) :
  c ∈ clubs → (jf = true → is_joker c = false) → is_Some (pop_low jf clubs).
Proof.
  induction clubs as [|x clubs IH]; [by inversion 1|]. simpl.
  intros [->|Hin]%elem_of_cons Hel.
  - destruct jf; simpl; [rewrite Hel by done|]; eauto.
  - destruct (jf && is_joker x); eauto.
Qed.

(** X21.  The low club.  With the option low-club, the card that
    [handle_opt_play] makes the card to lead is a club of the deck, no
    joker under jokers-follow, and no such club of the deck has a lower
    rank, the ace being high; it finds one whenever the deck has such a
    club, and raises an exception if it has none.  Without the option
    there is no such card. *)
Theorem X21_the_low_club (jokers_follow : bool) (deck : list Card) :
  handle_opt_play false jokers_follow deck = Some None
  ∧ (∀ club,
       handle_opt_play true jokers_follow deck = Some (Some club) →
       club ∈ deck ∧ suit club = "C"%char
       ∧ (jokers_follow = true → is_joker club = false)
       ∧ ∀ c, c ∈ deck → suit c = "C"%char →
              (jokers_follow = true → is_joker c = false) →
              rank_num club ≤ rank_num c)
  ∧ ((∃ c, c ∈ deck ∧ suit c = "C"%char
           ∧ (jokers_follow = true → is_joker c = false)) ↔
     ∃ club, handle_opt_play true jokers_follow deck = Some (Some club)).
Proof.
  split; [done|].
  assert (∀ club,
            handle_opt_play true jokers_follow deck = Some (Some club) →
            club ∈ deck ∧ suit club = "C"%char
            ∧ (jokers_follow = true → is_joker club = false)
            ∧ ∀ c, c ∈ deck → suit c = "C"%char →
                   (jokers_follow = true → is_joker c = false) →
                   rank_num club ≤ rank_num c) as Hspec.
  { intros club. unfold handle_opt_play.
    destruct (pop_low _ _) as [card|] eqn:Hp; [|done]. simpl. intros [= ->].
    apply pop_low_spec in Hp as (Hin & Hj & Hmin); [|apply sorted_by_descending].
    apply (sorted_by_elem_of rank_num), list_elem_of_filter in Hin as [Hs Hin].
    repeat split; try done.
    intros c Hc Hsc Hel. apply Hmin; [|done].
    rewrite (sorted_by_elem_of rank_num), list_elem_of_filter. done. }
  split; [done|]. split.
  - intros (c & Hc & Hs & Hel). unfold handle_opt_play.
    destruct (pop_low_total jokers_follow
                (reverse (sorted_by (λ a b, b <? a) rank_num
                            (filter (λ card, suit card = "C"%char) deck))) c)
      as [club Hclub]; [|done|].
    + rewrite elem_of_reverse, (sorted_by_elem_of rank_num), list_elem_of_filter.
      done.
    + rewrite Hclub. simpl. eauto.
  - intros [club Hclub]. destruct (Hspec club Hclub) as (Hin & Hs & Hj & _). eauto.
Qed.

Lemma X21_the_low_club_witness :
  ∃ club,
    handle_opt_play true true Table.deck_of_three = Some (Some club)
    ∧ club ∈ Table.deck_of_three
    ∧ is_joker club = false
    ∧ rank_num club ≤ rank_num Lead.C2.
Proof.
  destruct (X21_the_low_club true Table.deck_of_three) as (_ & Hspec & Hfinds).
  assert (Lead.C2 ∈ Table.deck_of_three) as Hin
    by (apply (bool_decide_unpack _); vm_compute; exact I).
  destruct (proj1 Hfinds) as [club Hclub].
  { exists Lead.C2. split; [exact Hin|]. split; reflexivity. }
  destruct (Hspec club Hclub) as (Hdeck & _ & Hj & Hmin).
  exists club. split; [exact Hclub|]. split; [exact Hdeck|].
  split; [by apply Hj|]. apply Hmin; [exact Hin|reflexivity|reflexivity].
Defined.
